(** * SessionConsoleProcess: the per-session console process engine

    A shallow embedding of [src/cpp/session/SessionConsoleProcess.cpp]:
    the input sequencer ([enqueInput], [dequeInput]), the prompt
    classifier ([maybeConsolePrompt]), the private sampling protocol
    ([privateCommandLoop]), the output pipeline ([enqueOutputEvent]) and
    the lifecycle callbacks ([start], [onContinue], [onHasSubprocs],
    [reportCwd], ...).

    Conventions.
    - A C++ [int] is a [Z]; the one place where the code does arithmetic
      on it ([lastInputSequence_ + 1], [lastInputSequence_++]) wraps at
      32 bits ([int_wrap]).
    - A [std::string] is a [string]; where the code looks at single
      characters the string is read as a [list ascii].
    - Every call that leaves the object (client events, the terminal
      socket, the process supervisor, the process operations, the log)
      is appended, in program order, to the ghost field [effects_]; a
      call to the supervisor is recorded with its answer.
    - [boost::posix_time::ptime] is [ptime]: a count of microseconds or
      one of the special values the code uses. *)

From Stdlib Require Import ZArith List String Ascii Bool Lia Permutation Sorted.
Import ListNotations.

Local Open Scope Z_scope.
Local Open Scope list_scope.

(** ** Regular expressions

    [regexInit] builds two [boost::regex] objects from Perl syntax.  The
    fragment below covers what the two patterns use: character sets,
    concatenation, repetition and the two line anchors.  Matching is by
    derivatives; the character before the current position is carried
    along because [^] and [$] look at their surroundings (in Boost's
    default Perl syntax both also hold next to a newline). *)

Module Regex.

Inductive regex : Type :=
| re_fail : regex
| re_eps : regex
| re_set : (ascii -> bool) -> regex
| re_cat : regex -> regex -> regex
| re_alt : regex -> regex -> regex
| re_star : regex -> regex
| re_bol : regex
| re_eol : regex.

(** [r+] is [r r*]. *)
Definition re_plus (r : regex) : regex := re_cat r (re_star r).

(** [.] with the default match flags: any character at all. *)
Definition re_any : regex := re_set (fun _ => true).

Definition newline : ascii := ascii_of_nat 10.

Definition at_line_edge (c : option ascii) : bool :=
  match c with
  | None => true
  | Some a => Ascii.eqb a newline
  end.

(** Does [r] match the empty string between [prev] and [next]? *)
Fixpoint nullable (prev next : option ascii) (r : regex) : bool :=
  match r with
  | re_fail => false
  | re_eps => true
  | re_set _ => false
  | re_cat r1 r2 => nullable prev next r1 && nullable prev next r2
  | re_alt r1 r2 => nullable prev next r1 || nullable prev next r2
  | re_star _ => true
  | re_bol => at_line_edge prev
  | re_eol => at_line_edge next
  end.

(** What is left of [r] once the character [c], which follows [prev],
    has been read. *)
Fixpoint deriv (prev : option ascii) (c : ascii) (r : regex) : regex :=
  match r with
  | re_fail | re_eps | re_bol | re_eol => re_fail
  | re_set p => if p c then re_eps else re_fail
  | re_cat r1 r2 =>
      if nullable prev (Some c) r1
      then re_alt (re_cat (deriv prev c r1) r2) (deriv prev c r2)
      else re_cat (deriv prev c r1) r2
  | re_alt r1 r2 => re_alt (deriv prev c r1) (deriv prev c r2)
  | re_star r1 => re_cat (deriv prev c r1) (re_star r1)
  end.

Fixpoint run (prev : option ascii) (r : regex) (s : list ascii) : bool :=
  match s with
  | [] => nullable prev None r
  | c :: s' => run (Some c) (deriv prev c r) s'
  end.

(** [boost::regex_match]: the whole of [s] has to match. *)
Definition regex_match (r : regex) (s : string) : bool :=
  run None r (list_ascii_of_string s).

(** [boost::regex_search], as a yes/no answer: some stretch of [s]
    matches. *)
Definition regex_search (r : regex) (s : string) : bool :=
  run None (re_cat (re_star re_any) (re_cat r (re_star re_any)))
      (list_ascii_of_string s).

(** The meaning the matcher is checked against: [Ms pre r s post] says
    that [r] matches exactly [s] when [s] is preceded by the character
    [pre] and followed by [post] ([None] at either end of the input). *)

Definition last_or (pre : option ascii) (s : list ascii) : option ascii :=
  match s with
  | [] => pre
  | _ => Some (last s newline)
  end.

Definition head_or (s : list ascii) (post : option ascii) : option ascii :=
  match s with
  | [] => post
  | c :: _ => Some c
  end.

Inductive Ms : option ascii -> regex -> list ascii -> option ascii -> Prop :=
| Ms_eps pre post : Ms pre re_eps [] post
| Ms_set pre post p c : p c = true -> Ms pre (re_set p) [c] post
| Ms_cat pre post r1 r2 s1 s2 :
    Ms pre r1 s1 (head_or s2 post) ->
    Ms (last_or pre s1) r2 s2 post ->
    Ms pre (re_cat r1 r2) (s1 ++ s2) post
| Ms_alt_l pre post r1 r2 s : Ms pre r1 s post -> Ms pre (re_alt r1 r2) s post
| Ms_alt_r pre post r1 r2 s : Ms pre r2 s post -> Ms pre (re_alt r1 r2) s post
| Ms_star_nil pre post r : Ms pre (re_star r) [] post
| Ms_star_cons pre post r c s1 s2 :
    Ms pre r (c :: s1) (head_or s2 post) ->
    Ms (Some (last (c :: s1) newline)) (re_star r) s2 post ->
    Ms pre (re_star r) (c :: s1 ++ s2) post
| Ms_bol pre post : at_line_edge pre = true -> Ms pre re_bol [] post
| Ms_eol pre post : at_line_edge post = true -> Ms pre re_eol [] post.

End Regex.

Import Regex.

(** ** Machine integers, errors, time *)

(** A 32-bit two's complement [int] after an addition. *)
Definition int_wrap (z : Z) : Z := (z + 2 ^ 31) mod 2 ^ 32 - 2 ^ 31.

(** [core::Error]: converts to [true] exactly when it carries an error. *)
Inductive Error : Type :=
| Success : Error
| Failure : Z -> string -> Error.

Definition is_error (e : Error) : bool :=
  match e with
  | Success => false
  | Failure _ _ => true
  end.

(** [boost::posix_time::ptime], in microseconds, with its special
    values. *)
Inductive ptime : Type :=
| not_a_date_time : ptime
| neg_infin : ptime
| pos_infin : ptime
| time_point : Z -> ptime.

Definition is_not_a_date_time (t : ptime) : bool :=
  match t with
  | not_a_date_time => true
  | _ => false
  end.

(** [t - d] for a duration [d] in microseconds; special values absorb. *)
Definition ptime_minus (t : ptime) (d : Z) : ptime :=
  match t with
  | time_point u => time_point (u - d)
  | special => special
  end.

(** [a < b]: never true when either side is not a time. *)
Definition ptime_lt (a b : ptime) : bool :=
  match a, b with
  | not_a_date_time, _ | _, not_a_date_time => false
  | neg_infin, neg_infin => false
  | neg_infin, _ => true
  | _, neg_infin => false
  | pos_infin, _ => false
  | _, pos_infin => true
  | time_point x, time_point y => x <? y
  end.

(** [<=] and [>] are derived from [<], the way [boost::operators]
    derives them. *)
Definition ptime_le (a b : ptime) : bool := negb (ptime_lt b a).
Definition ptime_gt (a b : ptime) : bool := ptime_lt b a.

(** minimum delay between private command executions (3000 ms) *)
Definition kPrivateCommandDelay : Z := 3000 * 1000.

(** how long after a command is started do we delay before considering
    running a private command (1500 ms) *)
Definition kWaitForCommandDelay : Z := 1500 * 1000.

(** ** Input items *)

(** Modelled from the spec: the [Input] struct is declared in
    SessionConsoleProcess.hpp, which is not among the sources.  Section 3
    of the spec gives its content: text or an interrupt marker, a
    sequence number or a sentinel, and the echo flag. *)
Record Input : Type := mkInput {
  interrupt : bool;
  text : string;
  echoInput : bool;
  sequence : Z
}.

Definition set_sequence (s : Z) (i : Input) : Input :=
  {| interrupt := interrupt i; text := text i; echoInput := echoInput i;
     sequence := s |}.

Definition string_empty (s : string) : bool :=
  match s with
  | EmptyString => true
  | String _ _ => false
  end.

(** Modelled from the spec: [Input::empty()], the test for the "empty
    result" of a dequeue: neither an interrupt nor any text. *)
Definition Input_empty (i : Input) : bool :=
  negb (interrupt i) && string_empty (text i).

(** The constants of SessionConsoleProcess.hpp that the code refers to;
    the header is not among the sources, so they are left open.
    [kIgnoreSequence] is the spec's Unordered sentinel, [kFlushSequence]
    its FlushBarrier, [kAutoFlushLength] the auto-flush threshold. *)
Class Constants : Type := {
  kIgnoreSequence : Z;
  kFlushSequence : Z;
  kAutoFlushLength : nat
}.

(** Functions of other units that the code calls and whose results it
    uses: [string_utils::trimLeadingLines],
    [string_utils::convertLineEndings] to Posix endings,
    [module_context::createAliasedPath], and the alternate-screen status
    [ConsoleProcessInfo] keeps while it appends output. *)
Class Collaborators : Type := {
  trimLeadingLines : Z -> string -> string;
  convertLineEndingsPosix : string -> string;
  createAliasedPath : string -> string;
  altBufferAfterAppend : bool -> string -> bool
}.

(** ** The session record store *)

Inductive ChannelType : Type := Rpc | Websocket.

(** Modelled from the spec: [ConsoleProcessInfo] (the session-record
    store of section 6) is implemented outside the sources; it is
    modelled as the fields behind the accessors and mutators the code
    calls. *)
Record ConsoleProcessInfo : Type := mkProcInfo {
  handle_ : string;
  zombie_ : bool;
  trackEnv_ : bool;
  hasChildProcs_ : bool;
  cwd_ : string;
  channelMode_ : ChannelType;
  channelId_ : string;
  altBufferActive_ : bool;
  maxOutputLines_ : Z;
  outputBuffer_ : string;
  cols_ : Z;
  rows_ : Z;
  exitCode_ : option Z
}.

Definition setZombie_ (v : bool) (pi : ConsoleProcessInfo) : ConsoleProcessInfo :=
  {| handle_ := handle_ pi; zombie_ := v; trackEnv_ := trackEnv_ pi;
     hasChildProcs_ := hasChildProcs_ pi; cwd_ := cwd_ pi; channelMode_ :=
     channelMode_ pi; channelId_ := channelId_ pi; altBufferActive_ :=
     altBufferActive_ pi; maxOutputLines_ := maxOutputLines_ pi;
     outputBuffer_ := outputBuffer_ pi; cols_ := cols_ pi; rows_ := rows_
     pi; exitCode_ := exitCode_ pi |}.

Definition setHasChildProcs (v : bool) (pi : ConsoleProcessInfo) : ConsoleProcessInfo :=
  {| handle_ := handle_ pi; zombie_ := zombie_ pi; trackEnv_ := trackEnv_
     pi; hasChildProcs_ := v; cwd_ := cwd_ pi; channelMode_ := channelMode_
     pi; channelId_ := channelId_ pi; altBufferActive_ := altBufferActive_
     pi; maxOutputLines_ := maxOutputLines_ pi; outputBuffer_ :=
     outputBuffer_ pi; cols_ := cols_ pi; rows_ := rows_ pi; exitCode_ :=
     exitCode_ pi |}.

Definition setCwd (v : string) (pi : ConsoleProcessInfo) : ConsoleProcessInfo :=
  {| handle_ := handle_ pi; zombie_ := zombie_ pi; trackEnv_ := trackEnv_
     pi; hasChildProcs_ := hasChildProcs_ pi; cwd_ := v; channelMode_ :=
     channelMode_ pi; channelId_ := channelId_ pi; altBufferActive_ :=
     altBufferActive_ pi; maxOutputLines_ := maxOutputLines_ pi;
     outputBuffer_ := outputBuffer_ pi; cols_ := cols_ pi; rows_ := rows_
     pi; exitCode_ := exitCode_ pi |}.

Definition setCols (v : Z) (pi : ConsoleProcessInfo) : ConsoleProcessInfo :=
  {| handle_ := handle_ pi; zombie_ := zombie_ pi; trackEnv_ := trackEnv_
     pi; hasChildProcs_ := hasChildProcs_ pi; cwd_ := cwd_ pi; channelMode_
     := channelMode_ pi; channelId_ := channelId_ pi; altBufferActive_ :=
     altBufferActive_ pi; maxOutputLines_ := maxOutputLines_ pi;
     outputBuffer_ := outputBuffer_ pi; cols_ := v; rows_ := rows_ pi;
     exitCode_ := exitCode_ pi |}.

Definition setRows (v : Z) (pi : ConsoleProcessInfo) : ConsoleProcessInfo :=
  {| handle_ := handle_ pi; zombie_ := zombie_ pi; trackEnv_ := trackEnv_
     pi; hasChildProcs_ := hasChildProcs_ pi; cwd_ := cwd_ pi; channelMode_
     := channelMode_ pi; channelId_ := channelId_ pi; altBufferActive_ :=
     altBufferActive_ pi; maxOutputLines_ := maxOutputLines_ pi;
     outputBuffer_ := outputBuffer_ pi; cols_ := cols_ pi; rows_ := v;
     exitCode_ := exitCode_ pi |}.

Definition setExitCode_ (v : option Z) (pi : ConsoleProcessInfo) : ConsoleProcessInfo :=
  {| handle_ := handle_ pi; zombie_ := zombie_ pi; trackEnv_ := trackEnv_
     pi; hasChildProcs_ := hasChildProcs_ pi; cwd_ := cwd_ pi; channelMode_
     := channelMode_ pi; channelId_ := channelId_ pi; altBufferActive_ :=
     altBufferActive_ pi; maxOutputLines_ := maxOutputLines_ pi;
     outputBuffer_ := outputBuffer_ pi; cols_ := cols_ pi; rows_ := rows_
     pi; exitCode_ := v |}.

Definition setOutputBuffer (v : string) (pi : ConsoleProcessInfo) : ConsoleProcessInfo :=
  {| handle_ := handle_ pi; zombie_ := zombie_ pi; trackEnv_ := trackEnv_
     pi; hasChildProcs_ := hasChildProcs_ pi; cwd_ := cwd_ pi; channelMode_
     := channelMode_ pi; channelId_ := channelId_ pi; altBufferActive_ :=
     altBufferActive_ pi; maxOutputLines_ := maxOutputLines_ pi;
     outputBuffer_ := v; cols_ := cols_ pi; rows_ := rows_ pi; exitCode_ :=
     exitCode_ pi |}.

Definition setAltBufferActive (v : bool) (pi : ConsoleProcessInfo) : ConsoleProcessInfo :=
  {| handle_ := handle_ pi; zombie_ := zombie_ pi; trackEnv_ := trackEnv_
     pi; hasChildProcs_ := hasChildProcs_ pi; cwd_ := cwd_ pi; channelMode_
     := channelMode_ pi; channelId_ := channelId_ pi; altBufferActive_ := v;
     maxOutputLines_ := maxOutputLines_ pi; outputBuffer_ := outputBuffer_
     pi; cols_ := cols_ pi; rows_ := rows_ pi; exitCode_ := exitCode_ pi |}.

Definition setChannelModeField (v : ChannelType) (pi : ConsoleProcessInfo) : ConsoleProcessInfo :=
  {| handle_ := handle_ pi; zombie_ := zombie_ pi; trackEnv_ := trackEnv_
     pi; hasChildProcs_ := hasChildProcs_ pi; cwd_ := cwd_ pi; channelMode_
     := v; channelId_ := channelId_ pi; altBufferActive_ := altBufferActive_
     pi; maxOutputLines_ := maxOutputLines_ pi; outputBuffer_ :=
     outputBuffer_ pi; cols_ := cols_ pi; rows_ := rows_ pi; exitCode_ :=
     exitCode_ pi |}.

Definition setChannelId (v : string) (pi : ConsoleProcessInfo) : ConsoleProcessInfo :=
  {| handle_ := handle_ pi; zombie_ := zombie_ pi; trackEnv_ := trackEnv_
     pi; hasChildProcs_ := hasChildProcs_ pi; cwd_ := cwd_ pi; channelMode_
     := channelMode_ pi; channelId_ := v; altBufferActive_ :=
     altBufferActive_ pi; maxOutputLines_ := maxOutputLines_ pi;
     outputBuffer_ := outputBuffer_ pi; cols_ := cols_ pi; rows_ := rows_
     pi; exitCode_ := exitCode_ pi |}.
(** [ConsoleProcessInfo::appendToOutputBuffer]: the scrollback grows by
    [s]; the alternate-screen status follows what was appended. *)
Definition appendToOutputBuffer `{Collaborators} (s : string)
    (pi : ConsoleProcessInfo) : ConsoleProcessInfo :=
  setAltBufferActive (altBufferAfterAppend (altBufferActive_ pi) s)
    (setOutputBuffer (outputBuffer_ pi ++ s)%string pi).

(** [ConsoleProcessInfo::setChannelMode(mode, channelId)]. *)
Definition setChannelMode (m : ChannelType) (id : string)
    (pi : ConsoleProcessInfo) : ConsoleProcessInfo :=
  setChannelId id (setChannelModeField m pi).

(** ** What the session does to the outside *)

Inductive ClientEvent : Type :=
| kConsoleProcessOutput (handle output : string)
| kConsoleProcessPrompt (handle prompt : string)
| kConsoleProcessExit (handle : string) (exitCode : Z)
| kTerminalSubprocs (handle : string) (subprocs : bool)
| kTerminalCwd (handle cwd : string).

Inductive Effect : Type :=
| enqueClientEvent (e : ClientEvent)
| socketSendText (handle output : string)
| socketStopListening (handle : string)
| saveConsoleProcesses
| LOG_ERROR (e : Error)
| opsWriteToStdin (input : string)
| opsPtyInterrupt
| opsPtySetSize (cols rows : Z)
| opsTerminate
| supervisorRunCommand (command : string) (answer : Error)
| supervisorRunProgram (program : string) (args : list string) (answer : Error)
| supervisorRunTerminal (answer : Error)
| callOnPrompt (prompt : string)
| callOnExit (exitCode : Z).

(** [core::system::ProcessOperations], as far as the code uses it: what
    each request answers. *)
Record ProcessOperations : Type := mkOps {
  writeToStdin : string -> bool -> Error;
  ptyInterrupt : Error;
  ptySetSize : Z -> Z -> Error;
  terminate : Error;
  getPid : Z
}.

(** [module_context::processSupervisor()]: the answer to each of the
    three ways of launching. *)
Record ProcessSupervisor : Type := mkSupervisor {
  runCommand : string -> Error;
  runProgram : string -> list string -> Error;
  runTerminal : Error
}.

(** [boost::function<bool(const std::string&, Input* )>]: the handler is
    handed the prompt and an [Input] to fill in. *)
Definition PromptHandler : Type := string -> Input -> bool * Input.

(** ** The session object *)

(** The data members of [ConsoleProcess] that the modelled member
    functions read or write ([smartTerminal_] stands for
    [options_.smartTerminal]), followed by three ghost fields: the
    readings the clock will give, how many were taken, and the calls
    made to the outside so far. *)
Record ConsoleProcess : Type := mkConsoleProcess {
  command_ : string;
  program_ : string;
  args_ : list string;
  smartTerminal_ : bool;
  procInfo_ : ConsoleProcessInfo;
  interrupt_ : bool;
  interruptChild_ : bool;
  newCols_ : Z;
  newRows_ : Z;
  pid_ : Z;
  childProcsSent_ : bool;
  inputQueue_ : list Input;
  lastInputSequence_ : Z;
  started_ : bool;
  haveProcOps_ : bool;
  privateCommandLoop_ : bool;
  lastPrivateCommand_ : ptime;
  lastEnterTime_ : ptime;
  pendingCommand_ : bool;
  onPrompt_ : option PromptHandler;
  captureEnvironmentCommand_ : string;
  clock_ : nat -> Z;
  clockReads_ : nat;
  effects_ : list Effect
}.

Definition set_procInfo (v : ConsoleProcessInfo) (cp : ConsoleProcess) : ConsoleProcess :=
  {| command_ := command_ cp; program_ := program_ cp; args_ := args_ cp;
     smartTerminal_ := smartTerminal_ cp; procInfo_ := v; interrupt_ :=
     interrupt_ cp; interruptChild_ := interruptChild_ cp; newCols_ :=
     newCols_ cp; newRows_ := newRows_ cp; pid_ := pid_ cp; childProcsSent_
     := childProcsSent_ cp; inputQueue_ := inputQueue_ cp;
     lastInputSequence_ := lastInputSequence_ cp; started_ := started_ cp;
     haveProcOps_ := haveProcOps_ cp; privateCommandLoop_ :=
     privateCommandLoop_ cp; lastPrivateCommand_ := lastPrivateCommand_ cp;
     lastEnterTime_ := lastEnterTime_ cp; pendingCommand_ := pendingCommand_
     cp; onPrompt_ := onPrompt_ cp; captureEnvironmentCommand_ :=
     captureEnvironmentCommand_ cp; clock_ := clock_ cp; clockReads_ :=
     clockReads_ cp; effects_ := effects_ cp |}.

Definition set_interrupt (v : bool) (cp : ConsoleProcess) : ConsoleProcess :=
  {| command_ := command_ cp; program_ := program_ cp; args_ := args_ cp;
     smartTerminal_ := smartTerminal_ cp; procInfo_ := procInfo_ cp;
     interrupt_ := v; interruptChild_ := interruptChild_ cp; newCols_ :=
     newCols_ cp; newRows_ := newRows_ cp; pid_ := pid_ cp; childProcsSent_
     := childProcsSent_ cp; inputQueue_ := inputQueue_ cp;
     lastInputSequence_ := lastInputSequence_ cp; started_ := started_ cp;
     haveProcOps_ := haveProcOps_ cp; privateCommandLoop_ :=
     privateCommandLoop_ cp; lastPrivateCommand_ := lastPrivateCommand_ cp;
     lastEnterTime_ := lastEnterTime_ cp; pendingCommand_ := pendingCommand_
     cp; onPrompt_ := onPrompt_ cp; captureEnvironmentCommand_ :=
     captureEnvironmentCommand_ cp; clock_ := clock_ cp; clockReads_ :=
     clockReads_ cp; effects_ := effects_ cp |}.

Definition set_interruptChild (v : bool) (cp : ConsoleProcess) : ConsoleProcess :=
  {| command_ := command_ cp; program_ := program_ cp; args_ := args_ cp;
     smartTerminal_ := smartTerminal_ cp; procInfo_ := procInfo_ cp;
     interrupt_ := interrupt_ cp; interruptChild_ := v; newCols_ := newCols_
     cp; newRows_ := newRows_ cp; pid_ := pid_ cp; childProcsSent_ :=
     childProcsSent_ cp; inputQueue_ := inputQueue_ cp; lastInputSequence_
     := lastInputSequence_ cp; started_ := started_ cp; haveProcOps_ :=
     haveProcOps_ cp; privateCommandLoop_ := privateCommandLoop_ cp;
     lastPrivateCommand_ := lastPrivateCommand_ cp; lastEnterTime_ :=
     lastEnterTime_ cp; pendingCommand_ := pendingCommand_ cp; onPrompt_ :=
     onPrompt_ cp; captureEnvironmentCommand_ := captureEnvironmentCommand_
     cp; clock_ := clock_ cp; clockReads_ := clockReads_ cp; effects_ :=
     effects_ cp |}.

Definition set_newCols (v : Z) (cp : ConsoleProcess) : ConsoleProcess :=
  {| command_ := command_ cp; program_ := program_ cp; args_ := args_ cp;
     smartTerminal_ := smartTerminal_ cp; procInfo_ := procInfo_ cp;
     interrupt_ := interrupt_ cp; interruptChild_ := interruptChild_ cp;
     newCols_ := v; newRows_ := newRows_ cp; pid_ := pid_ cp;
     childProcsSent_ := childProcsSent_ cp; inputQueue_ := inputQueue_ cp;
     lastInputSequence_ := lastInputSequence_ cp; started_ := started_ cp;
     haveProcOps_ := haveProcOps_ cp; privateCommandLoop_ :=
     privateCommandLoop_ cp; lastPrivateCommand_ := lastPrivateCommand_ cp;
     lastEnterTime_ := lastEnterTime_ cp; pendingCommand_ := pendingCommand_
     cp; onPrompt_ := onPrompt_ cp; captureEnvironmentCommand_ :=
     captureEnvironmentCommand_ cp; clock_ := clock_ cp; clockReads_ :=
     clockReads_ cp; effects_ := effects_ cp |}.

Definition set_newRows (v : Z) (cp : ConsoleProcess) : ConsoleProcess :=
  {| command_ := command_ cp; program_ := program_ cp; args_ := args_ cp;
     smartTerminal_ := smartTerminal_ cp; procInfo_ := procInfo_ cp;
     interrupt_ := interrupt_ cp; interruptChild_ := interruptChild_ cp;
     newCols_ := newCols_ cp; newRows_ := v; pid_ := pid_ cp;
     childProcsSent_ := childProcsSent_ cp; inputQueue_ := inputQueue_ cp;
     lastInputSequence_ := lastInputSequence_ cp; started_ := started_ cp;
     haveProcOps_ := haveProcOps_ cp; privateCommandLoop_ :=
     privateCommandLoop_ cp; lastPrivateCommand_ := lastPrivateCommand_ cp;
     lastEnterTime_ := lastEnterTime_ cp; pendingCommand_ := pendingCommand_
     cp; onPrompt_ := onPrompt_ cp; captureEnvironmentCommand_ :=
     captureEnvironmentCommand_ cp; clock_ := clock_ cp; clockReads_ :=
     clockReads_ cp; effects_ := effects_ cp |}.

Definition set_pid (v : Z) (cp : ConsoleProcess) : ConsoleProcess :=
  {| command_ := command_ cp; program_ := program_ cp; args_ := args_ cp;
     smartTerminal_ := smartTerminal_ cp; procInfo_ := procInfo_ cp;
     interrupt_ := interrupt_ cp; interruptChild_ := interruptChild_ cp;
     newCols_ := newCols_ cp; newRows_ := newRows_ cp; pid_ := v;
     childProcsSent_ := childProcsSent_ cp; inputQueue_ := inputQueue_ cp;
     lastInputSequence_ := lastInputSequence_ cp; started_ := started_ cp;
     haveProcOps_ := haveProcOps_ cp; privateCommandLoop_ :=
     privateCommandLoop_ cp; lastPrivateCommand_ := lastPrivateCommand_ cp;
     lastEnterTime_ := lastEnterTime_ cp; pendingCommand_ := pendingCommand_
     cp; onPrompt_ := onPrompt_ cp; captureEnvironmentCommand_ :=
     captureEnvironmentCommand_ cp; clock_ := clock_ cp; clockReads_ :=
     clockReads_ cp; effects_ := effects_ cp |}.

Definition set_childProcsSent (v : bool) (cp : ConsoleProcess) : ConsoleProcess :=
  {| command_ := command_ cp; program_ := program_ cp; args_ := args_ cp;
     smartTerminal_ := smartTerminal_ cp; procInfo_ := procInfo_ cp;
     interrupt_ := interrupt_ cp; interruptChild_ := interruptChild_ cp;
     newCols_ := newCols_ cp; newRows_ := newRows_ cp; pid_ := pid_ cp;
     childProcsSent_ := v; inputQueue_ := inputQueue_ cp; lastInputSequence_
     := lastInputSequence_ cp; started_ := started_ cp; haveProcOps_ :=
     haveProcOps_ cp; privateCommandLoop_ := privateCommandLoop_ cp;
     lastPrivateCommand_ := lastPrivateCommand_ cp; lastEnterTime_ :=
     lastEnterTime_ cp; pendingCommand_ := pendingCommand_ cp; onPrompt_ :=
     onPrompt_ cp; captureEnvironmentCommand_ := captureEnvironmentCommand_
     cp; clock_ := clock_ cp; clockReads_ := clockReads_ cp; effects_ :=
     effects_ cp |}.

Definition set_inputQueue (v : list Input) (cp : ConsoleProcess) : ConsoleProcess :=
  {| command_ := command_ cp; program_ := program_ cp; args_ := args_ cp;
     smartTerminal_ := smartTerminal_ cp; procInfo_ := procInfo_ cp;
     interrupt_ := interrupt_ cp; interruptChild_ := interruptChild_ cp;
     newCols_ := newCols_ cp; newRows_ := newRows_ cp; pid_ := pid_ cp;
     childProcsSent_ := childProcsSent_ cp; inputQueue_ := v;
     lastInputSequence_ := lastInputSequence_ cp; started_ := started_ cp;
     haveProcOps_ := haveProcOps_ cp; privateCommandLoop_ :=
     privateCommandLoop_ cp; lastPrivateCommand_ := lastPrivateCommand_ cp;
     lastEnterTime_ := lastEnterTime_ cp; pendingCommand_ := pendingCommand_
     cp; onPrompt_ := onPrompt_ cp; captureEnvironmentCommand_ :=
     captureEnvironmentCommand_ cp; clock_ := clock_ cp; clockReads_ :=
     clockReads_ cp; effects_ := effects_ cp |}.

Definition set_lastInputSequence (v : Z) (cp : ConsoleProcess) : ConsoleProcess :=
  {| command_ := command_ cp; program_ := program_ cp; args_ := args_ cp;
     smartTerminal_ := smartTerminal_ cp; procInfo_ := procInfo_ cp;
     interrupt_ := interrupt_ cp; interruptChild_ := interruptChild_ cp;
     newCols_ := newCols_ cp; newRows_ := newRows_ cp; pid_ := pid_ cp;
     childProcsSent_ := childProcsSent_ cp; inputQueue_ := inputQueue_ cp;
     lastInputSequence_ := v; started_ := started_ cp; haveProcOps_ :=
     haveProcOps_ cp; privateCommandLoop_ := privateCommandLoop_ cp;
     lastPrivateCommand_ := lastPrivateCommand_ cp; lastEnterTime_ :=
     lastEnterTime_ cp; pendingCommand_ := pendingCommand_ cp; onPrompt_ :=
     onPrompt_ cp; captureEnvironmentCommand_ := captureEnvironmentCommand_
     cp; clock_ := clock_ cp; clockReads_ := clockReads_ cp; effects_ :=
     effects_ cp |}.

Definition set_started (v : bool) (cp : ConsoleProcess) : ConsoleProcess :=
  {| command_ := command_ cp; program_ := program_ cp; args_ := args_ cp;
     smartTerminal_ := smartTerminal_ cp; procInfo_ := procInfo_ cp;
     interrupt_ := interrupt_ cp; interruptChild_ := interruptChild_ cp;
     newCols_ := newCols_ cp; newRows_ := newRows_ cp; pid_ := pid_ cp;
     childProcsSent_ := childProcsSent_ cp; inputQueue_ := inputQueue_ cp;
     lastInputSequence_ := lastInputSequence_ cp; started_ := v;
     haveProcOps_ := haveProcOps_ cp; privateCommandLoop_ :=
     privateCommandLoop_ cp; lastPrivateCommand_ := lastPrivateCommand_ cp;
     lastEnterTime_ := lastEnterTime_ cp; pendingCommand_ := pendingCommand_
     cp; onPrompt_ := onPrompt_ cp; captureEnvironmentCommand_ :=
     captureEnvironmentCommand_ cp; clock_ := clock_ cp; clockReads_ :=
     clockReads_ cp; effects_ := effects_ cp |}.

Definition set_haveProcOps (v : bool) (cp : ConsoleProcess) : ConsoleProcess :=
  {| command_ := command_ cp; program_ := program_ cp; args_ := args_ cp;
     smartTerminal_ := smartTerminal_ cp; procInfo_ := procInfo_ cp;
     interrupt_ := interrupt_ cp; interruptChild_ := interruptChild_ cp;
     newCols_ := newCols_ cp; newRows_ := newRows_ cp; pid_ := pid_ cp;
     childProcsSent_ := childProcsSent_ cp; inputQueue_ := inputQueue_ cp;
     lastInputSequence_ := lastInputSequence_ cp; started_ := started_ cp;
     haveProcOps_ := v; privateCommandLoop_ := privateCommandLoop_ cp;
     lastPrivateCommand_ := lastPrivateCommand_ cp; lastEnterTime_ :=
     lastEnterTime_ cp; pendingCommand_ := pendingCommand_ cp; onPrompt_ :=
     onPrompt_ cp; captureEnvironmentCommand_ := captureEnvironmentCommand_
     cp; clock_ := clock_ cp; clockReads_ := clockReads_ cp; effects_ :=
     effects_ cp |}.

Definition set_privateCommandLoop (v : bool) (cp : ConsoleProcess) : ConsoleProcess :=
  {| command_ := command_ cp; program_ := program_ cp; args_ := args_ cp;
     smartTerminal_ := smartTerminal_ cp; procInfo_ := procInfo_ cp;
     interrupt_ := interrupt_ cp; interruptChild_ := interruptChild_ cp;
     newCols_ := newCols_ cp; newRows_ := newRows_ cp; pid_ := pid_ cp;
     childProcsSent_ := childProcsSent_ cp; inputQueue_ := inputQueue_ cp;
     lastInputSequence_ := lastInputSequence_ cp; started_ := started_ cp;
     haveProcOps_ := haveProcOps_ cp; privateCommandLoop_ := v;
     lastPrivateCommand_ := lastPrivateCommand_ cp; lastEnterTime_ :=
     lastEnterTime_ cp; pendingCommand_ := pendingCommand_ cp; onPrompt_ :=
     onPrompt_ cp; captureEnvironmentCommand_ := captureEnvironmentCommand_
     cp; clock_ := clock_ cp; clockReads_ := clockReads_ cp; effects_ :=
     effects_ cp |}.

Definition set_lastPrivateCommand (v : ptime) (cp : ConsoleProcess) : ConsoleProcess :=
  {| command_ := command_ cp; program_ := program_ cp; args_ := args_ cp;
     smartTerminal_ := smartTerminal_ cp; procInfo_ := procInfo_ cp;
     interrupt_ := interrupt_ cp; interruptChild_ := interruptChild_ cp;
     newCols_ := newCols_ cp; newRows_ := newRows_ cp; pid_ := pid_ cp;
     childProcsSent_ := childProcsSent_ cp; inputQueue_ := inputQueue_ cp;
     lastInputSequence_ := lastInputSequence_ cp; started_ := started_ cp;
     haveProcOps_ := haveProcOps_ cp; privateCommandLoop_ :=
     privateCommandLoop_ cp; lastPrivateCommand_ := v; lastEnterTime_ :=
     lastEnterTime_ cp; pendingCommand_ := pendingCommand_ cp; onPrompt_ :=
     onPrompt_ cp; captureEnvironmentCommand_ := captureEnvironmentCommand_
     cp; clock_ := clock_ cp; clockReads_ := clockReads_ cp; effects_ :=
     effects_ cp |}.

Definition set_lastEnterTime (v : ptime) (cp : ConsoleProcess) : ConsoleProcess :=
  {| command_ := command_ cp; program_ := program_ cp; args_ := args_ cp;
     smartTerminal_ := smartTerminal_ cp; procInfo_ := procInfo_ cp;
     interrupt_ := interrupt_ cp; interruptChild_ := interruptChild_ cp;
     newCols_ := newCols_ cp; newRows_ := newRows_ cp; pid_ := pid_ cp;
     childProcsSent_ := childProcsSent_ cp; inputQueue_ := inputQueue_ cp;
     lastInputSequence_ := lastInputSequence_ cp; started_ := started_ cp;
     haveProcOps_ := haveProcOps_ cp; privateCommandLoop_ :=
     privateCommandLoop_ cp; lastPrivateCommand_ := lastPrivateCommand_ cp;
     lastEnterTime_ := v; pendingCommand_ := pendingCommand_ cp; onPrompt_
     := onPrompt_ cp; captureEnvironmentCommand_ :=
     captureEnvironmentCommand_ cp; clock_ := clock_ cp; clockReads_ :=
     clockReads_ cp; effects_ := effects_ cp |}.

Definition set_pendingCommand (v : bool) (cp : ConsoleProcess) : ConsoleProcess :=
  {| command_ := command_ cp; program_ := program_ cp; args_ := args_ cp;
     smartTerminal_ := smartTerminal_ cp; procInfo_ := procInfo_ cp;
     interrupt_ := interrupt_ cp; interruptChild_ := interruptChild_ cp;
     newCols_ := newCols_ cp; newRows_ := newRows_ cp; pid_ := pid_ cp;
     childProcsSent_ := childProcsSent_ cp; inputQueue_ := inputQueue_ cp;
     lastInputSequence_ := lastInputSequence_ cp; started_ := started_ cp;
     haveProcOps_ := haveProcOps_ cp; privateCommandLoop_ :=
     privateCommandLoop_ cp; lastPrivateCommand_ := lastPrivateCommand_ cp;
     lastEnterTime_ := lastEnterTime_ cp; pendingCommand_ := v; onPrompt_ :=
     onPrompt_ cp; captureEnvironmentCommand_ := captureEnvironmentCommand_
     cp; clock_ := clock_ cp; clockReads_ := clockReads_ cp; effects_ :=
     effects_ cp |}.

Definition set_onPrompt (v : option PromptHandler) (cp : ConsoleProcess) : ConsoleProcess :=
  {| command_ := command_ cp; program_ := program_ cp; args_ := args_ cp;
     smartTerminal_ := smartTerminal_ cp; procInfo_ := procInfo_ cp;
     interrupt_ := interrupt_ cp; interruptChild_ := interruptChild_ cp;
     newCols_ := newCols_ cp; newRows_ := newRows_ cp; pid_ := pid_ cp;
     childProcsSent_ := childProcsSent_ cp; inputQueue_ := inputQueue_ cp;
     lastInputSequence_ := lastInputSequence_ cp; started_ := started_ cp;
     haveProcOps_ := haveProcOps_ cp; privateCommandLoop_ :=
     privateCommandLoop_ cp; lastPrivateCommand_ := lastPrivateCommand_ cp;
     lastEnterTime_ := lastEnterTime_ cp; pendingCommand_ := pendingCommand_
     cp; onPrompt_ := v; captureEnvironmentCommand_ :=
     captureEnvironmentCommand_ cp; clock_ := clock_ cp; clockReads_ :=
     clockReads_ cp; effects_ := effects_ cp |}.

Definition set_clockReads (v : nat) (cp : ConsoleProcess) : ConsoleProcess :=
  {| command_ := command_ cp; program_ := program_ cp; args_ := args_ cp;
     smartTerminal_ := smartTerminal_ cp; procInfo_ := procInfo_ cp;
     interrupt_ := interrupt_ cp; interruptChild_ := interruptChild_ cp;
     newCols_ := newCols_ cp; newRows_ := newRows_ cp; pid_ := pid_ cp;
     childProcsSent_ := childProcsSent_ cp; inputQueue_ := inputQueue_ cp;
     lastInputSequence_ := lastInputSequence_ cp; started_ := started_ cp;
     haveProcOps_ := haveProcOps_ cp; privateCommandLoop_ :=
     privateCommandLoop_ cp; lastPrivateCommand_ := lastPrivateCommand_ cp;
     lastEnterTime_ := lastEnterTime_ cp; pendingCommand_ := pendingCommand_
     cp; onPrompt_ := onPrompt_ cp; captureEnvironmentCommand_ :=
     captureEnvironmentCommand_ cp; clock_ := clock_ cp; clockReads_ := v;
     effects_ := effects_ cp |}.

Definition set_effects (v : list Effect) (cp : ConsoleProcess) : ConsoleProcess :=
  {| command_ := command_ cp; program_ := program_ cp; args_ := args_ cp;
     smartTerminal_ := smartTerminal_ cp; procInfo_ := procInfo_ cp;
     interrupt_ := interrupt_ cp; interruptChild_ := interruptChild_ cp;
     newCols_ := newCols_ cp; newRows_ := newRows_ cp; pid_ := pid_ cp;
     childProcsSent_ := childProcsSent_ cp; inputQueue_ := inputQueue_ cp;
     lastInputSequence_ := lastInputSequence_ cp; started_ := started_ cp;
     haveProcOps_ := haveProcOps_ cp; privateCommandLoop_ :=
     privateCommandLoop_ cp; lastPrivateCommand_ := lastPrivateCommand_ cp;
     lastEnterTime_ := lastEnterTime_ cp; pendingCommand_ := pendingCommand_
     cp; onPrompt_ := onPrompt_ cp; captureEnvironmentCommand_ :=
     captureEnvironmentCommand_ cp; clock_ := clock_ cp; clockReads_ :=
     clockReads_ cp; effects_ := v |}.
Definition emit (e : Effect) (cp : ConsoleProcess) : ConsoleProcess :=
  set_effects (effects_ cp ++ [e]) cp.

(** [LOG_ERROR(error)] under [if (error)]. *)
Definition log_if_error (error : Error) (cp : ConsoleProcess) : ConsoleProcess :=
  if is_error error then emit (LOG_ERROR error) cp else cp.

Definition handle (cp : ConsoleProcess) : string := handle_ (procInfo_ cp).

(** [now()]: the next reading of the clock. *)
Definition now (cp : ConsoleProcess) : ptime * ConsoleProcess :=
  (time_point (clock_ cp (clockReads_ cp)),
   set_clockReads (S (clockReads_ cp)) cp).

(** ** [regexInit] *)

Definition carriage_return : ascii := ascii_of_nat 13.
Definition backspace : ascii := ascii_of_nat 8.
Definition form_feed : ascii := ascii_of_nat 12.
Definition space : ascii := ascii_of_nat 32.
Definition underscore : ascii := ascii_of_nat 95.

(** [\w]: a letter, a digit or the underscore. *)
Definition is_word (c : ascii) : bool :=
  let n := nat_of_ascii c in
  ((48 <=? n) && (n <=? 57) || (65 <=? n) && (n <=? 90) ||
   (97 <=? n) && (n <=? 122) || (n =? 95))%nat.

(** [[\W_]] *)
Definition nonword_or_underscore (c : ascii) : bool :=
  negb (is_word c) || Ascii.eqb c underscore.

(** [[\r\b]]: inside a set [\b] is the backspace. *)
Definition controlCharsPattern_ : regex :=
  re_set (fun c => Ascii.eqb c carriage_return || Ascii.eqb c backspace).

(** [^(.+)[\W_]( +)$] *)
Definition promptPattern_ : regex :=
  re_cat re_bol
    (re_cat (re_plus re_any)
       (re_cat (re_set nonword_or_underscore)
          (re_cat (re_plus (re_set (Ascii.eqb space))) re_eol))).

(** ** Construction *)

Section Session.

Context `{Constants} `{Collaborators}.

(** Modelled from the spec: [Input()], the "empty result" of the input
    sequencer; its sequence is the Unordered sentinel. *)
Definition Input_ctor : Input :=
  {| interrupt := false; text := ""; echoInput := false;
     sequence := kIgnoreSequence |}.

(** The member initialisers shared by the three constructors. *)
Definition init_members (command program : string) (args : list string)
    (smartTerminal : bool) (procInfo : ConsoleProcessInfo)
    (captureEnvironmentCommand : string) (clock : nat -> Z) : ConsoleProcess :=
  {| command_ := command; program_ := program; args_ := args;
     smartTerminal_ := smartTerminal; procInfo_ := procInfo;
     interrupt_ := false; interruptChild_ := false;
     newCols_ := -1; newRows_ := -1; pid_ := -1;
     childProcsSent_ := false; inputQueue_ := [];
     lastInputSequence_ := kIgnoreSequence; started_ := false;
     haveProcOps_ := false; privateCommandLoop_ := false;
     lastPrivateCommand_ := not_a_date_time;
     lastEnterTime_ := not_a_date_time;
     pendingCommand_ := true; onPrompt_ := None;
     captureEnvironmentCommand_ := captureEnvironmentCommand;
     clock_ := clock; clockReads_ := 0%nat; effects_ := [] |}.

(** [ConsoleProcess(procInfo)]: the session read back from its record. *)
Definition ConsoleProcess_fromInfo (smartTerminal : bool)
    (procInfo : ConsoleProcessInfo) (clock : nat -> Z) : ConsoleProcess :=
  let cp := init_members "" "" [] smartTerminal procInfo "" clock in
  set_procInfo (appendToOutputBuffer (String newline "") (procInfo_ cp)) cp.

(** [ConsoleProcess(command, options, procInfo)] and
    [ConsoleProcess(program, args, options, procInfo)], with
    [commonInit]; [bom] and [eom] are the two generated delimiters. *)
Definition ConsoleProcess_ctor (command program : string) (args : list string)
    (smartTerminal : bool) (procInfo : ConsoleProcessInfo)
    (bom eom : string) (clock : nat -> Z) : ConsoleProcess :=
  let capture :=
    ("echo " ++ bom ++ String newline "/usr/bin/env && echo " ++ eom
       ++ String newline "")%string in
  let cp := init_members command program args smartTerminal procInfo
              capture clock in
  if negb smartTerminal
  then set_procInfo (appendToOutputBuffer (String newline "") (procInfo_ cp)) cp
  else cp.

Definition setPromptHandler (onPrompt : option PromptHandler)
    (cp : ConsoleProcess) : ConsoleProcess :=
  set_onPrompt onPrompt cp.

(** ** [start] *)

Definition start (supervisor : ProcessSupervisor) (cp : ConsoleProcess)
    : Error * ConsoleProcess :=
  if started_ cp || zombie_ (procInfo_ cp) then (Success, cp)
  else
    let '(error, cp1) :=
      if negb (string_empty (command_ cp)) then
        let error := runCommand supervisor (command_ cp) in
        (error, emit (supervisorRunCommand (command_ cp) error) cp)
      else if negb (string_empty (program_ cp)) then
        let error := runProgram supervisor (program_ cp) (args_ cp) in
        (error, emit (supervisorRunProgram (program_ cp) (args_ cp) error) cp)
      else
        let error := runTerminal supervisor in
        (error, emit (supervisorRunTerminal error) cp) in
    if negb (is_error error) then (error, set_started true cp1)
    else (error, cp1).

(** ** The input sequencer *)

(** The insertion loop of [enqueInput]: before the first queued item
    with a larger sequence, else at the back. *)
Fixpoint insert_by_sequence (input : Input) (q : list Input) : list Input :=
  match q with
  | [] => [input]
  | it :: rest =>
      if sequence input <? sequence it then input :: it :: rest
      else it :: insert_by_sequence input rest
  end.

Definition enqueInput (input : Input) (cp : ConsoleProcess) : ConsoleProcess :=
  if sequence input =? kIgnoreSequence then
    set_inputQueue (inputQueue_ cp ++ [input]) cp
  else if sequence input =? kFlushSequence then
    let cp := set_inputQueue (inputQueue_ cp ++ [input]) cp in
    let cp := set_inputQueue
                (map (set_sequence kIgnoreSequence) (inputQueue_ cp)) cp in
    set_lastInputSequence kIgnoreSequence cp
  else
    set_inputQueue (insert_by_sequence input (inputQueue_ cp)) cp.

(** The loop of the auto-flush: every item passed over leaves its
    sequence in [lastInputSequence_] and is then marked. *)
Definition autoflush_loop (q : list Input) (last : Z) : list Input * Z :=
  fold_left
    (fun acc it => (fst acc ++ [set_sequence kIgnoreSequence it], sequence it))
    q ([], last).

Definition dequeInput (cp : ConsoleProcess) : Input * ConsoleProcess :=
  match inputQueue_ cp with
  | [] => (Input_ctor, cp)
  | input :: rest =>
      if (sequence input =? kIgnoreSequence)
         || (sequence input =? kFlushSequence) then
        (input, set_inputQueue rest cp)
      else if sequence input =? int_wrap (lastInputSequence_ cp + 1) then
        let cp := set_lastInputSequence
                    (int_wrap (lastInputSequence_ cp + 1)) cp in
        (input, set_inputQueue rest cp)
      else if (kAutoFlushLength <=? List.length (inputQueue_ cp))%nat then
        let '(q, last) :=
          autoflush_loop (inputQueue_ cp) (lastInputSequence_ cp) in
        let cp := set_lastInputSequence last (set_inputQueue q cp) in
        (set_sequence kIgnoreSequence input,
         set_inputQueue (tl (inputQueue_ cp)) cp)
      else (Input_ctor, cp)
  end.

Definition enquePromptEvent (prompt : string) (cp : ConsoleProcess)
    : ConsoleProcess :=
  emit (enqueClientEvent (kConsoleProcessPrompt (handle cp) prompt)) cp.

Definition enquePrompt (prompt : string) (cp : ConsoleProcess)
    : ConsoleProcess :=
  enquePromptEvent prompt cp.

(** [ConsoleProcess::interrupt] (the name [interrupt] is taken by the
    field of [Input]). *)
Definition ConsoleProcess_interrupt (cp : ConsoleProcess) : ConsoleProcess :=
  set_interrupt true cp.

Definition interruptChild (cp : ConsoleProcess) : ConsoleProcess :=
  set_interruptChild true cp.

Definition resize (cols rows : Z) (cp : ConsoleProcess) : ConsoleProcess :=
  set_newRows rows (set_newCols cols cp).

(** ** The private sampling protocol *)

Definition privateCommandLoop (ops : ProcessOperations) (cp : ConsoleProcess)
    : bool * ConsoleProcess :=
  if negb (trackEnv_ (procInfo_ cp)) || hasChildProcs_ (procInfo_ cp) then
    (false, cp)
  else
    let '(currentTime, cp) := now cp in
    if privateCommandLoop_ cp then (true, cp)
    else
      (* We don't start a private command if something is being typed, or
         a command has never been run. *)
      if pendingCommand_ cp || is_not_a_date_time (lastEnterTime_ cp) then
        (false, cp)
      else if ptime_le (ptime_minus currentTime kWaitForCommandDelay)
                       (lastEnterTime_ cp) then
        (* not enough time has elapsed since last command was submitted *)
        (false, cp)
      else if negb (is_not_a_date_time (lastPrivateCommand_ cp))
              && ptime_le (ptime_minus currentTime kPrivateCommandDelay)
                          (lastPrivateCommand_ cp) then
        (* not enough time has elapsed since last private command ran *)
        (false, cp)
      else if negb (is_not_a_date_time (lastPrivateCommand_ cp))
              && ptime_gt (lastPrivateCommand_ cp) (lastEnterTime_ cp) then
        (* no new command executed since our last private command *)
        (false, cp)
      else
        let cp := set_lastPrivateCommand currentTime cp in
        let cp := set_privateCommandLoop true cp in
        (* send the command *)
        let error := writeToStdin ops (captureEnvironmentCommand_ cp) false in
        let cp := emit (opsWriteToStdin (captureEnvironmentCommand_ cp)) cp in
        if is_error error then
          let cp := emit (LOG_ERROR error) cp in
          let cp := set_privateCommandLoop false cp in
          (* disable private commands *)
          let cp := set_lastPrivateCommand pos_infin cp in
          (false, cp)
        else (true, cp).

(** ** Queued input *)

Definition last_char (s : string) : option ascii :=
  match rev (list_ascii_of_string s) with
  | [] => None
  | c :: _ => Some c
  end.

Definition ends_with_char (c : ascii) (s : string) : bool :=
  match last_char s with
  | Some d => Ascii.eqb d c
  | None => false
  end.

(** What [processQueuedInput] does with one dequeued, non-empty input
    (a Posix build: the conversion to Windows line endings is compiled
    out). *)
Definition process_input (ops : ProcessOperations) (input : Input)
    (cp : ConsoleProcess) : ConsoleProcess :=
  let cp := set_pendingCommand true cp in
  if interrupt input then
    (* pty interrupt *)
    let error := ptyInterrupt ops in
    let cp := log_if_error error (emit opsPtyInterrupt cp) in
    if echoInput input
    then set_procInfo (appendToOutputBuffer "^C" (procInfo_ cp)) cp
    else cp
  else
    (* text input *)
    let inputText := text input in
    let cp :=
      if negb (string_empty inputText) && ends_with_char carriage_return inputText
      then
        let '(t, cp) := now cp in
        set_pendingCommand false (set_lastEnterTime t cp)
      else cp in
    let error := writeToStdin ops inputText false in
    let cp := log_if_error error (emit (opsWriteToStdin inputText) cp) in
    if negb (smartTerminal_ cp) then
      (* smart terminal does echo via pty *)
      if echoInput input
      then set_procInfo (appendToOutputBuffer inputText (procInfo_ cp)) cp
      else set_procInfo
             (appendToOutputBuffer (String newline "") (procInfo_ cp)) cp
    else cp.

(** The [while (!input.empty())] loop, [fuel] iterations at most;
    [None] when they do not suffice. *)
Fixpoint processQueuedInput_loop (fuel : nat) (ops : ProcessOperations)
    (input : Input) (cp : ConsoleProcess) : option ConsoleProcess :=
  if Input_empty input then Some cp
  else
    match fuel with
    | O => None
    | S fuel' =>
        let cp := process_input ops input cp in
        let '(next, cp) := dequeInput cp in
        processQueuedInput_loop fuel' ops next cp
    end.

(** Every iteration removes an item from the queue, so its length is
    fuel enough ([processQueuedInput_total]). *)
Definition processQueuedInput (ops : ProcessOperations) (cp : ConsoleProcess)
    : option ConsoleProcess :=
  let fuel := List.length (inputQueue_ cp) in
  let '(input, cp) := dequeInput cp in
  processQueuedInput_loop fuel ops input cp.

(** ** The per-tick callback *)

Definition onContinue (ops : ProcessOperations) (cp : ConsoleProcess)
    : option (bool * ConsoleProcess) :=
  (* full stop interrupt if requested *)
  if interrupt_ cp then Some (false, cp)
  else
    (* send SIGINT to children of the shell *)
    let cp :=
      if interruptChild_ cp then
        let error := ptyInterrupt ops in
        let cp := log_if_error error (emit opsPtyInterrupt cp) in
        set_interruptChild false cp
      else cp in
    (* opportunity to execute a private command *)
    let '(sampling, cp) := privateCommandLoop ops cp in
    if sampling then Some (true, cp)
    else
      match processQueuedInput ops cp with
      | None => None
      | Some cp =>
          let cp :=
            match channelMode_ (procInfo_ cp) with
            | Websocket =>
                if negb (haveProcOps_ cp) then set_haveProcOps true cp else cp
            | Rpc => cp
            end in
          let cp :=
            if negb (newCols_ cp =? -1) && negb (newRows_ cp =? -1) then
              let cp := emit (opsPtySetSize (newCols_ cp) (newRows_ cp)) cp in
              let cp := set_procInfo (setCols (newCols_ cp) (procInfo_ cp)) cp in
              let cp := set_procInfo (setRows (newRows_ cp) (procInfo_ cp)) cp in
              let cp := set_newCols (-1) cp in
              let cp := set_newRows (-1) cp in
              emit saveConsoleProcesses cp
            else cp in
          let cp := set_pid (getPid ops) cp in
          (* continue *)
          Some (true, cp)
      end.

(** ** The output pipeline *)

Definition enqueOutputEvent (output : string) (cp : ConsoleProcess)
    : ConsoleProcess :=
  let cp :=
    if privateCommandLoop_ cp then set_privateCommandLoop false cp else cp in
  (* normal output processing *)
  let currentAltBufferStatus := altBufferActive_ (procInfo_ cp) in
  (* copy to output buffer *)
  let cp := set_procInfo (appendToOutputBuffer output (procInfo_ cp)) cp in
  let cp :=
    if negb (Bool.eqb (altBufferActive_ (procInfo_ cp)) currentAltBufferStatus)
    then emit saveConsoleProcesses cp
    else cp in
  (* truncate to the amount that the client can show *)
  let trimmedOutput :=
    trimLeadingLines (maxOutputLines_ (procInfo_ cp)) output in
  match channelMode_ (procInfo_ cp) with
  | Websocket => emit (socketSendText (handle_ (procInfo_ cp)) output) cp
  | Rpc =>
      emit (enqueClientEvent (kConsoleProcessOutput (handle cp) trimmedOutput))
           cp
  end.

Definition handleConsolePrompt (ops : ProcessOperations) (prompt : string)
    (cp : ConsoleProcess) : ConsoleProcess :=
  (* if there is a custom prompt handler then give it a chance to handle
     the prompt first *)
  match onPrompt_ cp with
  | Some onPrompt =>
      let '(handled, input) := onPrompt prompt Input_ctor in
      let cp := emit (callOnPrompt prompt) cp in
      if handled then
        if negb (Input_empty input) then enqueInput input cp
        else
          let error := terminate ops in
          log_if_error error (emit opsTerminate cp)
      else enquePromptEvent prompt cp
  | None => enquePromptEvent prompt cp
  end.

Definition maybeConsolePrompt (ops : ProcessOperations) (output : string)
    (cp : ConsoleProcess) : ConsoleProcess :=
  (* treat special control characters as output rather than a prompt *)
  let cp :=
    if regex_search controlCharsPattern_ output
    then enqueOutputEvent output cp
    else cp in
  (* make sure the output matches our prompt pattern *)
  if negb (regex_match promptPattern_ output) then enqueOutputEvent output cp
  (* it is a prompt *)
  else handleConsolePrompt ops output cp.

(** [posixOutput.find_last_of("\n\f")]: scanning from position [n],
    the last position seen so far being [found]. *)
Fixpoint find_last_of_from (n : nat) (found : option nat) (s : string)
    : option nat :=
  match s with
  | EmptyString => found
  | String c s' =>
      find_last_of_from (S n)
        (if Ascii.eqb c newline || Ascii.eqb c form_feed then Some n
         else found) s'
  end.

Definition find_last_newline_or_formfeed (s : string) : option nat :=
  find_last_of_from 0 None s.

Definition onStdout (ops : ProcessOperations) (output : string)
    (cp : ConsoleProcess) : ConsoleProcess :=
  if smartTerminal_ cp then enqueOutputEvent output cp
  else
    (* convert line endings to posix *)
    let posixOutput := convertLineEndingsPosix output in
    (* process as normal output or detect a prompt if there is one *)
    if ends_with_char newline posixOutput then enqueOutputEvent posixOutput cp
    else
      (* look for the last newline and take the content after that as the
         prompt *)
      match find_last_newline_or_formfeed posixOutput with
      | Some lastLoc =>
          let cp := enqueOutputEvent (substring 0 lastLoc posixOutput) cp in
          maybeConsolePrompt ops
            (substring (lastLoc + 1)
               (String.length posixOutput - (lastLoc + 1)) posixOutput) cp
      | None => maybeConsolePrompt ops posixOutput cp
      end.

(** ** Notifications from the supervisor *)

Definition onExit (exitCode : Z) (cp : ConsoleProcess) : ConsoleProcess :=
  let cp := set_procInfo (setExitCode_ (Some exitCode) (procInfo_ cp)) cp in
  let cp := set_procInfo (setHasChildProcs false (procInfo_ cp)) cp in
  let cp := emit saveConsoleProcesses cp in
  let cp := emit (enqueClientEvent (kConsoleProcessExit (handle cp) exitCode))
                 cp in
  emit (callOnExit exitCode) cp.

Definition onHasSubprocs (hasSubprocs : bool) (cp : ConsoleProcess)
    : ConsoleProcess :=
  if negb (Bool.eqb hasSubprocs (hasChildProcs_ (procInfo_ cp)))
     || negb (childProcsSent_ cp) then
    let cp := set_procInfo (setHasChildProcs hasSubprocs (procInfo_ cp)) cp in
    let cp := emit (enqueClientEvent
                      (kTerminalSubprocs (handle cp)
                         (hasChildProcs_ (procInfo_ cp)))) cp in
    set_childProcsSent true cp
  else cp.

Definition reportCwd (cwd : string) (cp : ConsoleProcess) : ConsoleProcess :=
  if negb (String.eqb (cwd_ (procInfo_ cp)) cwd) then
    let cp := set_procInfo (setCwd cwd (procInfo_ cp)) cp in
    let cp := emit (enqueClientEvent
                      (kTerminalCwd (handle cp) (createAliasedPath cwd))) cp in
    let cp := set_childProcsSent true cp in
    emit saveConsoleProcesses cp
  else cp.

Definition setRpcMode (cp : ConsoleProcess) : ConsoleProcess :=
  let cp := emit (socketStopListening (handle cp)) cp in
  set_procInfo (setChannelMode Rpc "" (procInfo_ cp)) cp.

Definition setZombie (cp : ConsoleProcess) : ConsoleProcess :=
  let cp := set_procInfo (setZombie_ true (procInfo_ cp)) cp in
  let cp := set_procInfo (setHasChildProcs false (procInfo_ cp)) cp in
  emit saveConsoleProcesses cp.

(** ** What can happen to a session

    One step is one call of a member function, with whatever arguments
    and collaborators the caller has.  ([onReceivedInput] is an
    [enqueInput] followed, when the operations are still there and no
    sample is in progress, by a [processQueuedInput].) *)
Inductive step : ConsoleProcess -> ConsoleProcess -> Prop :=
| step_start supervisor cp :
    step cp (snd (start supervisor cp))
| step_enqueInput input cp :
    step cp (enqueInput input cp)
| step_onContinue ops cp r cp' :
    onContinue ops cp = Some (r, cp') -> step cp cp'
| step_processQueuedInput ops cp cp' :
    processQueuedInput ops cp = Some cp' -> step cp cp'
| step_onStdout ops output cp :
    step cp (onStdout ops output cp)
| step_onExit exitCode cp :
    step cp (onExit exitCode cp)
| step_onHasSubprocs b cp :
    step cp (onHasSubprocs b cp)
| step_reportCwd cwd cp :
    step cp (reportCwd cwd cp)
| step_interrupt cp :
    step cp (ConsoleProcess_interrupt cp)
| step_interruptChild cp :
    step cp (interruptChild cp)
| step_resize cols rows cp :
    step cp (resize cols rows cp)
| step_setPromptHandler h cp :
    step cp (setPromptHandler h cp)
| step_setRpcMode cp :
    step cp (setRpcMode cp)
| step_setZombie cp :
    step cp (setZombie cp).

Inductive steps : ConsoleProcess -> ConsoleProcess -> Prop :=
| steps_refl cp : steps cp cp
| steps_step cp1 cp2 cp3 : step cp1 cp2 -> steps cp2 cp3 -> steps cp1 cp3.

(** ** Observations on a run *)

(** The text that reached the client as ordinary output. *)
Definition is_output_delivery (e : Effect) : bool :=
  match e with
  | socketSendText _ _ => true
  | enqueClientEvent (kConsoleProcessOutput _ _) => true
  | _ => false
  end.

Definition flush_count (es : list Effect) : nat :=
  List.length (filter is_output_delivery es).

Definition is_prompt_event (e : Effect) : bool :=
  match e with
  | enqueClientEvent (kConsoleProcessPrompt _ _) => true
  | _ => false
  end.

Definition is_subprocs_event (e : Effect) : bool :=
  match e with
  | enqueClientEvent (kTerminalSubprocs _ _) => true
  | _ => false
  end.

Definition is_client_event (e : Effect) : bool :=
  match e with
  | enqueClientEvent _ => true
  | _ => false
  end.

(** A call to the supervisor that it answered with success: a process
    was launched. *)
Definition is_launch (e : Effect) : bool :=
  match e with
  | supervisorRunCommand _ answer
  | supervisorRunProgram _ _ answer
  | supervisorRunTerminal answer => negb (is_error answer)
  | _ => false
  end.

Definition launches (es : list Effect) : nat :=
  List.length (filter is_launch es).

Definition is_supervisor_call (e : Effect) : bool :=
  match e with
  | supervisorRunCommand _ _
  | supervisorRunProgram _ _ _
  | supervisorRunTerminal _ => true
  | _ => false
  end.

(** A private sample is attempted by a call of [privateCommandLoop]
    when that call writes the capture command to stdin. *)
Definition sample_attempted (ops : ProcessOperations) (cp : ConsoleProcess)
    : Prop :=
  exists rest,
    effects_ (snd (privateCommandLoop ops cp)) =
    effects_ cp ++ opsWriteToStdin (captureEnvironmentCommand_ cp) :: rest.

(** The decision of the classifier on a candidate. *)
Definition treated_as_prompt (ops : ProcessOperations) (output : string)
    (cp : ConsoleProcess) : Prop :=
  maybeConsolePrompt ops output cp = handleConsolePrompt ops output cp.

Definition flushed_as_output (ops : ProcessOperations) (output : string)
    (cp : ConsoleProcess) : Prop :=
  maybeConsolePrompt ops output cp = enqueOutputEvent output cp.

(** Arrivals at the sequencer interleaved with attempts to dequeue. *)
Inductive sched_op : Type :=
| Enq (input : Input)
| Deq.

Fixpoint run_schedule (s : list sched_op) (cp : ConsoleProcess)
    : list Input * ConsoleProcess :=
  match s with
  | [] => ([], cp)
  | Enq input :: s' => run_schedule s' (enqueInput input cp)
  | Deq :: s' =>
      let '(r, cp1) := dequeInput cp in
      let '(rs, cp2) := run_schedule s' cp1 in
      (r :: rs, cp2)
  end.

Definition arrivals (s : list sched_op) : list Input :=
  flat_map (fun o => match o with Enq i => [i] | Deq => [] end) s.

(** The results of dequeuing that are not the empty result, as the
    callers tell them apart ([input.empty()]). *)
Definition returned (rs : list Input) : list Input :=
  filter (fun i => negb (Input_empty i)) rs.

(** What one dequeue takes off the queue: the item it returns when the
    queue got shorter, nothing when it returns the empty result and
    leaves the queue as it is. *)
Definition popped (cp : ConsoleProcess) : list Input :=
  if (List.length (inputQueue_ (snd (dequeInput cp)))
      <? List.length (inputQueue_ cp))%nat
  then [fst (dequeInput cp)]
  else [].

(** The items the dequeues of a schedule take off the queue, in the
    order in which they are returned. *)
Fixpoint dequeued (s : list sched_op) (cp : ConsoleProcess) : list Input :=
  match s with
  | [] => []
  | Enq input :: s' => dequeued s' (enqueInput input cp)
  | Deq :: s' => popped cp ++ dequeued s' (snd (dequeInput cp))
  end.

(** The sequence numbers [from + 1, ..., from + n]. *)
Definition sequence_numbers (from : Z) (n : nat) : list Z :=
  map (fun j => from + Z.of_nat j) (seq 1 n).

Definition is_ordered (i : Input) : Prop :=
  sequence i <> kIgnoreSequence /\ sequence i <> kFlushSequence.

End Session.

(** ** The prompt shape in the words of the specification

    "one-or-more non-whitespace characters followed by one-or-more
    trailing spaces at end of string" *)

Definition is_whitespace (c : ascii) : bool :=
  let n := nat_of_ascii c in
  ((n =? 32) || (9 <=? n) && (n <=? 13))%nat.

Fixpoint drop_spaces (s : list ascii) : list ascii :=
  match s with
  | c :: s' => if Ascii.eqb c space then drop_spaces s' else s
  | [] => []
  end.

Definition spec_prompt_shape (s : string) : bool :=
  match rev (list_ascii_of_string s) with
  | c :: r =>
      Ascii.eqb c space &&
      match drop_spaces r with
      | d :: _ => negb (is_whitespace d)
      | [] => false
      end
  | [] => false
  end.

(** The shape [promptPattern_] describes, spelled out: some characters,
    then one that is not a letter or a digit, then spaces up to the
    end. *)
Definition code_prompt_shape (s : string) : Prop :=
  exists (a : list ascii) (c : ascii) (sp : list ascii),
    list_ascii_of_string s = a ++ c :: sp /\
    a <> [] /\ nonword_or_underscore c = true /\
    sp <> [] /\ Forall (fun d => d = space) sp.

Definition has_control_char (s : string) : Prop :=
  In carriage_return (list_ascii_of_string s) \/
  In backspace (list_ascii_of_string s).

(** ** Notions used in the statements and proofs *)

(** Queued items in strictly increasing order of sequence. *)
Definition ltseq (a b : Input) : Prop := sequence a < sequence b.

Section Notions.

Context `{Constants} `{Collaborators}.

(** An item the sequencer orders, and that its callers do not mistake
    for the empty result. *)
Definition good (i : Input) : Prop := is_ordered i /\ Input_empty i = false.

(** The state of the sequencer after the items [E] have arrived and the
    items [D] have been returned: returned and queued items together are
    the arrivals, in increasing order, and the returned ones carry the
    sequence numbers up to [lastInputSequence_]. *)
Definition seq_inv (cp : ConsoleProcess) (D E : list Input) : Prop :=
  StronglySorted ltseq (D ++ inputQueue_ cp) /\
  Permutation (D ++ inputQueue_ cp) E /\
  map sequence D = sequence_numbers kIgnoreSequence (List.length D) /\
  lastInputSequence_ cp = kIgnoreSequence + Z.of_nat (List.length D).

(** The same for a session that had last seen the sequence [b] when its
    queue was empty, [D] being the items dequeued since. *)
Definition seq_inv_from (b : Z) (cp : ConsoleProcess) (D E : list Input)
    : Prop :=
  StronglySorted ltseq (D ++ inputQueue_ cp) /\
  Permutation (D ++ inputQueue_ cp) E /\
  map sequence D = sequence_numbers b (List.length D) /\
  lastInputSequence_ cp = b + Z.of_nat (List.length D).

(** [enqueInput] for each item of [l], in order. *)
Definition enqueue_all (l : list Input) (cp : ConsoleProcess) :=
  fold_left (fun c i => enqueInput i c) l cp.

(** What a member function other than [start] and [privateCommandLoop]
    leaves alone. *)
Definition frame (cp cp' : ConsoleProcess) : Prop :=
  started_ cp' = started_ cp /\
  launches (effects_ cp') = launches (effects_ cp) /\
  lastPrivateCommand_ cp' = lastPrivateCommand_ cp /\
  (privateCommandLoop_ cp = false -> privateCommandLoop_ cp' = false).

(** The reading the next call of [now()] gives. *)
Definition reading (cp : ConsoleProcess) : Z := clock_ cp (clockReads_ cp).

(** At time [t] at least [d] microseconds have passed since [since]. *)
Definition elapsed (since : ptime) (d t : Z) : Prop :=
  match since with
  | time_point u => u + d <= t
  | neg_infin => True
  | _ => False
  end.

(** At time [t] more than [d] microseconds have passed since [since]. *)
Definition elapsed_more (since : ptime) (d t : Z) : Prop :=
  match since with
  | time_point u => u + d < t
  | neg_infin => True
  | _ => False
  end.

(** Every test [privateCommandLoop] makes before it writes. *)
Definition sample_gates (cp : ConsoleProcess) : bool :=
  let t := time_point (reading cp) in
  trackEnv_ (procInfo_ cp) && negb (hasChildProcs_ (procInfo_ cp)) &&
  negb (privateCommandLoop_ cp) &&
  negb (pendingCommand_ cp) && negb (is_not_a_date_time (lastEnterTime_ cp)) &&
  negb (ptime_le (ptime_minus t kWaitForCommandDelay) (lastEnterTime_ cp)) &&
  negb (negb (is_not_a_date_time (lastPrivateCommand_ cp)) &&
        ptime_le (ptime_minus t kPrivateCommandDelay) (lastPrivateCommand_ cp)) &&
  negb (negb (is_not_a_date_time (lastPrivateCommand_ cp)) &&
        ptime_gt (lastPrivateCommand_ cp) (lastEnterTime_ cp)).

(** Sampling is switched off for good. *)
Definition sampling_disabled (cp : ConsoleProcess) : Prop :=
  lastPrivateCommand_ cp = pos_infin /\ privateCommandLoop_ cp = false.

(** The answer of the supervisor to the launch [start] asks for. *)
Definition supervisor_answer (supervisor : ProcessSupervisor)
    (cp : ConsoleProcess) : Error :=
  if negb (string_empty (command_ cp)) then runCommand supervisor (command_ cp)
  else if negb (string_empty (program_ cp)) then
    runProgram supervisor (program_ cp) (args_ cp)
  else runTerminal supervisor.

(** At most one launch has succeeded, and none while the session is not
    started. *)
Definition launch_inv (cp : ConsoleProcess) : Prop :=
  (launches (effects_ cp) <= 1)%nat /\
  (started_ cp = false -> launches (effects_ cp) = 0%nat).

(** The delivery of [output] on the channel of the session. *)
Definition output_delivery (output : string)
    (cp : ConsoleProcess) : Effect :=
  match channelMode_ (procInfo_ cp) with
  | Websocket => socketSendText (handle_ (procInfo_ cp)) output
  | Rpc =>
      enqueClientEvent
        (kConsoleProcessOutput (handle cp)
           (trimLeadingLines (maxOutputLines_ (procInfo_ cp)) output))
  end.

End Notions.

(** ** Sample values *)

Module Samples.

(** The sentinels one below the other and below every real sequence
    number, the threshold at 40. *)
Definition constants : Constants :=
  {| kIgnoreSequence := -1; kFlushSequence := -2; kAutoFlushLength := 40 |}.

(** The Unordered sentinel at 0. *)
Definition constants0 : Constants :=
  {| kIgnoreSequence := 0; kFlushSequence := -1; kAutoFlushLength := 40 |}.

Definition collaborators : Collaborators :=
  {| trimLeadingLines := fun _ s => s;
     convertLineEndingsPosix := fun s => s;
     createAliasedPath := fun s => s;
     altBufferAfterAppend := fun b _ => b |}.

Definition procInfo : ConsoleProcessInfo :=
  {| handle_ := "h1"; zombie_ := false; trackEnv_ := true;
     hasChildProcs_ := false; cwd_ := "/home"; channelMode_ := Rpc;
     channelId_ := ""; altBufferActive_ := false; maxOutputLines_ := 1000;
     outputBuffer_ := ""; cols_ := 80; rows_ := 25; exitCode_ := None |}.

Definition ops_ok : ProcessOperations :=
  {| writeToStdin := fun _ _ => Success; ptyInterrupt := Success;
     ptySetSize := fun _ _ => Success; terminate := Success; getPid := 4242 |}.

Definition ops_broken : ProcessOperations :=
  {| writeToStdin := fun _ _ => Failure 32 "broken pipe";
     ptyInterrupt := Success; ptySetSize := fun _ _ => Success;
     terminate := Success; getPid := 4242 |}.

Definition supervisor_ok : ProcessSupervisor :=
  {| runCommand := fun _ => Success; runProgram := fun _ _ => Success;
     runTerminal := Success |}.

Definition supervisor_failing : ProcessSupervisor :=
  {| runCommand := fun _ => Failure 2 "no such file";
     runProgram := fun _ _ => Failure 2 "no such file";
     runTerminal := Failure 2 "no such file" |}.

(** A terminal session (no command, no program) on a dumb terminal, just
    constructed; the clock reads [clock 0], [clock 1], ... *)
Definition session (K : Constants) (clock : nat -> Z) : ConsoleProcess :=
  @ConsoleProcess_ctor K collaborators "" "" [] false procInfo
    "BOM" "EOM" clock.

Definition item (n : Z) : Input :=
  {| interrupt := false; text := "x"; echoInput := true; sequence := n |}.

(** Candidates for the classifier: with a backspace, with a carriage
    return, with and without the trailing spaces. *)
Definition foo_bs : string := "foo" ++ String backspace "".
Definition foo_bs_spaces : string := "foo" ++ String backspace "  ".
Definition foo_cr_spaces : string := "foo" ++ String carriage_return "  ".

(** A clock that reads 0 and from then on 2 s. *)
Definition clock_0_then_2s (n : nat) : Z :=
  match n with
  | O => 0
  | S _ => 2000000
  end.

Definition fresh : ConsoleProcess := session constants clock_0_then_2s.

(** The command line [ls], ended by a carriage return, queued on a
    fresh session, and the session once it has been processed. *)
Definition command_line : Input :=
  {| interrupt := false; text := "ls" ++ String carriage_return "";
     echoInput := true; sequence := -1 |}.

Definition session_with_command : ConsoleProcess :=
  @enqueInput constants command_line fresh.

Definition after_command : ConsoleProcess :=
  match @processQueuedInput constants collaborators ops_ok
          session_with_command with
  | Some cp => cp
  | None => session_with_command
  end.

(** A session that has returned the items 0 and 1 and waits for 2. *)
Definition session_after_1 : ConsoleProcess :=
  snd (@run_schedule constants
         [Enq (item 0); Enq (item 1); Deq; Deq] fresh).

(** Forty items with the sequence numbers 3 to 42. *)
Definition forty_items : list Input :=
  map (fun n => item (Z.of_nat n)) (seq 3 40).

End Samples.

(** ** Further notions *)

(** Two inputs that differ at most in their sequence. *)
Definition same_content (a b : Input) : Prop :=
  interrupt a = interrupt b /\ text a = text b /\ echoInput a = echoInput b.

(** Queued items in non-decreasing order of sequence. *)
Definition leseq (a b : Input) : Prop := sequence a <= sequence b.

(** An item that carries one of the two sentinels. *)
Definition is_unordered `{Constants} (i : Input) : Prop :=
  sequence i = kIgnoreSequence \/ sequence i = kFlushSequence.

(** The input is a command line that is being submitted: text that ends
    in a carriage return. *)
Definition submits (i : Input) : bool :=
  negb (interrupt i) && ends_with_char carriage_return (text i).

(** What [processQueuedInput] asks of the process for one input. *)
Definition ops_request (i : Input) : Effect :=
  if interrupt i then opsPtyInterrupt else opsWriteToStdin (text i).

Definition is_ops_request (e : Effect) : bool :=
  match e with
  | opsWriteToStdin _ | opsPtyInterrupt => true
  | _ => false
  end.

(** [onReceivedInput]: input from the websocket.  [input_of_text] is the
    constructor [Input(const std::string&)] of the header, which is not
    among the sources; [ops] is what [pOps_.lock()] gives, [None] once
    the process operations are gone. *)
Definition onReceivedInput `{Constants} `{Collaborators}
    (input_of_text : string -> Input) (ops : option ProcessOperations)
    (input : string) (cp : ConsoleProcess) : option ConsoleProcess :=
  let cp := enqueInput (input_of_text input) cp in
  match ops with
  | Some ops =>
      if negb (privateCommandLoop_ cp) then processQueuedInput ops cp
      else Some cp
  | None => Some cp
  end.

(** What no member function undoes: a session once started stays
    started, a zombie stays a zombie, the poll channel stays the poll
    channel, captured process operations stay captured, and the handle
    and the tracking of the environment are never touched. *)
Definition sticky (cp cp' : ConsoleProcess) : Prop :=
  (started_ cp = true -> started_ cp' = true) /\
  (zombie_ (procInfo_ cp) = true -> zombie_ (procInfo_ cp') = true) /\
  (channelMode_ (procInfo_ cp) = Rpc -> channelMode_ (procInfo_ cp') = Rpc) /\
  (haveProcOps_ cp = true -> haveProcOps_ cp' = true) /\
  handle_ (procInfo_ cp') = handle_ (procInfo_ cp) /\
  trackEnv_ (procInfo_ cp') = trackEnv_ (procInfo_ cp).

(** The characters [onStdout] looks for: newline and form feed. *)
Definition is_separator (c : ascii) : bool :=
  Ascii.eqb c newline || Ascii.eqb c form_feed.

Definition no_separator (s : string) : Prop :=
  forall c, In c (list_ascii_of_string s) -> is_separator c = false.

Definition is_pty_resize (e : Effect) : bool :=
  match e with
  | opsPtySetSize _ _ => true
  | _ => false
  end.

(** What [processQueuedInput] leaves alone of the terminal's geometry:
    the pending and the recorded size, the channel, and the sizes passed
    to the pty so far. *)
Definition geometry_kept (cp cp' : ConsoleProcess) : Prop :=
  newCols_ cp' = newCols_ cp /\ newRows_ cp' = newRows_ cp /\
  cols_ (procInfo_ cp') = cols_ (procInfo_ cp) /\
  rows_ (procInfo_ cp') = rows_ (procInfo_ cp) /\
  channelMode_ (procInfo_ cp') = channelMode_ (procInfo_ cp) /\
  haveProcOps_ cp' = haveProcOps_ cp /\
  filter is_pty_resize (effects_ cp') = filter is_pty_resize (effects_ cp).

Definition is_socket_send (e : Effect) : bool :=
  match e with
  | socketSendText _ _ => true
  | _ => false
  end.

(** On the poll channel nothing goes to the socket. *)
Definition socket_silent (cp cp' : ConsoleProcess) : Prop :=
  channelMode_ (procInfo_ cp) = Rpc ->
  channelMode_ (procInfo_ cp') = Rpc /\
  filter is_socket_send (effects_ cp') = filter is_socket_send (effects_ cp).

(** ** Further sample values *)

Module MoreSamples.

Import Samples.

(** A session with the items 5 and 9 queued: a gap in front of both. *)
Definition session_with_gaps : ConsoleProcess :=
  @enqueue_all constants [item 9; item 5] fresh.

(** An unordered item without text, and one with. *)
Definition blank : Input :=
  {| interrupt := false; text := ""; echoInput := true; sequence := -1 |}.

Definition typed : Input :=
  {| interrupt := false; text := "x"; echoInput := true; sequence := -1 |}.

Definition session_with_blank : ConsoleProcess :=
  @enqueue_all constants [blank; typed] fresh.

(** The [Input] made of a text received from the websocket. *)
Definition input_of_text (s : string) : Input :=
  {| interrupt := false; text := s; echoInput := true; sequence := -1 |}.

(** A session whose environment is not tracked, with a resize pending. *)
Definition untracked_procInfo : ConsoleProcessInfo :=
  {| handle_ := "h2"; zombie_ := false; trackEnv_ := false;
     hasChildProcs_ := false; cwd_ := "/home"; channelMode_ := Websocket;
     channelId_ := "8787"; altBufferActive_ := false; maxOutputLines_ := 1000;
     outputBuffer_ := ""; cols_ := 80; rows_ := 25; exitCode_ := None |}.

Definition untracked : ConsoleProcess :=
  @ConsoleProcess_ctor constants collaborators "" "" [] false
    untracked_procInfo "BOM" "EOM" clock_0_then_2s.

Definition resizing : ConsoleProcess := resize 100 40 untracked.

(** A line of output followed by an unfinished one. *)
Definition line_and_prompt : string :=
  "done" ++ String newline "user$  ".

(** A session in which a sample is in progress. *)
Definition sampling : ConsoleProcess :=
  snd (privateCommandLoop ops_ok after_command).

End MoreSamples.

Module PromptSamples.

Import Samples.

(** A handler that answers every prompt with [yes]. *)
Definition answer_yes : PromptHandler :=
  fun _ _ =>
    (true,
     {| interrupt := false; text := "yes"%string; echoInput := false;
        sequence := -1 |}).

Definition session_with_handler : ConsoleProcess :=
  setPromptHandler (Some answer_yes) fresh.

End PromptSamples.

Module DebounceSamples.

Import Samples.

(** A clock that reads 0 and from then on exactly 1.5 s, and one that
    always reads 2 s. *)
Definition clock_0_then_1500ms (n : nat) : Z :=
  match n with
  | O => 0
  | S _ => 1500000
  end.

Definition clock_2s (n : nat) : Z := 2000000.

(** The session once the command line [ls], ended by a carriage return,
    has been processed at 0; the clock then reads 1.5 s. *)
Definition at_idle_interval : ConsoleProcess :=
  match @processQueuedInput constants collaborators ops_ok
          (@enqueInput constants command_line
             (session constants clock_0_then_1500ms)) with
  | Some cp => cp
  | None => session constants clock_0_then_1500ms
  end.

(** The command line [ls] ended by a line feed, and the session once it
    has been processed (which reads no clock). *)
Definition line_feed_command : Input :=
  {| interrupt := false; text := "ls" ++ String newline "";
     echoInput := true; sequence := -1 |}.

Definition after_line_feed : ConsoleProcess :=
  match @processQueuedInput constants collaborators ops_ok
          (@enqueInput constants line_feed_command
             (session constants clock_2s)) with
  | Some cp => cp
  | None => session constants clock_2s
  end.

End DebounceSamples.

(** * Proofs *)

(** ** The matcher agrees with the meaning of the patterns *)

Lemma Ms_cat_inv pre r1 r2 s post :
  Ms pre (re_cat r1 r2) s post ->
  exists s1 s2, s = s1 ++ s2 /\ Ms pre r1 s1 (head_or s2 post) /\
                Ms (last_or pre s1) r2 s2 post.
Proof. inversion 1; subst; eauto. Qed.

Lemma Ms_alt_inv pre r1 r2 s post :
  Ms pre (re_alt r1 r2) s post -> Ms pre r1 s post \/ Ms pre r2 s post.
Proof. inversion 1; subst; auto. Qed.

Lemma Ms_star_inv pre r s post :
  Ms pre (re_star r) s post ->
  s = [] \/
  exists c s1 s2, s = c :: s1 ++ s2 /\ Ms pre r (c :: s1) (head_or s2 post) /\
                  Ms (Some (last (c :: s1) newline)) (re_star r) s2 post.
Proof. inversion 1; subst; eauto 8. Qed.

Lemma Ms_set_inv pre p s post :
  Ms pre (re_set p) s post -> exists c, s = [c] /\ p c = true.
Proof. inversion 1; subst; eauto. Qed.

Lemma last_or_cons pre c s : last_or (Some c) s = last_or pre (c :: s).
Proof. destruct s; reflexivity. Qed.

Lemma nullable_Ms pre post r : nullable pre post r = true <-> Ms pre r [] post.
Proof.
  induction r; cbn.
  - split; [discriminate | inversion 1].
  - split; [constructor | reflexivity].
  - split; [discriminate | inversion 1].
  - rewrite andb_true_iff, IHr1, IHr2. split.
    + intros [H1 H2]. change (@nil ascii) with (@nil ascii ++ []). now constructor.
    + intros H. apply Ms_cat_inv in H as (s1 & s2 & E & H1 & H2).
      symmetry in E. apply app_eq_nil in E as [-> ->]. now split.
  - rewrite orb_true_iff, IHr1, IHr2. split.
    + intros [H|H]; [now apply Ms_alt_l | now apply Ms_alt_r].
    + apply Ms_alt_inv.
  - split; [constructor | reflexivity].
  - split; [now constructor | now inversion 1].
  - split; [now constructor | now inversion 1].
Qed.

Lemma Ms_cat_cons pre c r1 r2 s1 s2 post :
  Ms pre r1 (c :: s1) (head_or s2 post) ->
  Ms (last_or (Some c) s1) r2 s2 post ->
  Ms pre (re_cat r1 r2) (c :: s1 ++ s2) post.
Proof.
  intros H1 H2. change (c :: s1 ++ s2) with ((c :: s1) ++ s2).
  constructor; [exact H1|]. now rewrite <- (last_or_cons pre).
Qed.

Lemma deriv_Ms r : forall pre c s post,
  Ms (Some c) (deriv pre c r) s post <-> Ms pre r (c :: s) post.
Proof.
  induction r; intros pre c s post; cbn [deriv].
  - split; inversion 1.
  - split; inversion 1.
  - split.
    + destruct (b c) eqn:E; inversion 1; subst. now constructor.
    + intros H. apply Ms_set_inv in H as (d & E & Hd). injection E as -> ->.
      rewrite Hd. constructor.
  - (* cat *)
    assert (Hl : Ms (Some c) (re_cat (deriv pre c r1) r2) s post ->
                 Ms pre (re_cat r1 r2) (c :: s) post).
    { intros H. apply Ms_cat_inv in H as (s1 & s2 & -> & H1 & H2).
      apply Ms_cat_cons; [now apply IHr1 | exact H2]. }
    split.
    + intros H.
      destruct (nullable pre (Some c) r1) eqn:N; [|now apply Hl].
      apply Ms_alt_inv in H as [H|H]; [now apply Hl|].
      change (c :: s) with ([] ++ c :: s). constructor.
      * now apply nullable_Ms.
      * cbn. now apply IHr2.
    + intros H. apply Ms_cat_inv in H as (s1 & s2 & E & H1 & H2).
      destruct s1 as [|d s1]; cbn in E.
      * subst s2. cbn in H1, H2. apply nullable_Ms in H1. rewrite H1.
        apply Ms_alt_r. now apply IHr2.
      * injection E as -> ->.
        assert (Hc : Ms (Some d) (re_cat (deriv pre d r1) r2) (s1 ++ s2) post).
        { constructor; [now apply IHr1|]. now rewrite (last_or_cons pre). }
        destruct (nullable pre (Some d) r1); [now apply Ms_alt_l | exact Hc].
  - split; intros H; apply Ms_alt_inv in H as [H|H];
      (apply Ms_alt_l; now apply IHr1) || (apply Ms_alt_r; now apply IHr2).
  - (* star *)
    split.
    + intros H. apply Ms_cat_inv in H as (s1 & s2 & -> & H1 & H2).
      constructor; [now apply IHr|].
      now rewrite (last_or_cons pre) in H2.
    + intros H. apply Ms_star_inv in H as [E|(d & s1 & s2 & E & H1 & H2)];
        [discriminate|]. injection E as -> ->.
      constructor; [now apply IHr|]. now rewrite (last_or_cons pre).
  - split; inversion 1.
  - split; inversion 1.
Qed.

Lemma run_Ms s : forall pre r, run pre r s = true <-> Ms pre r s None.
Proof.
  induction s as [|c s IH]; intros pre r; cbn [run].
  - apply nullable_Ms.
  - rewrite IH. apply deriv_Ms.
Qed.

Lemma Ms_star_set_intro p s : forall pre post,
  Forall (fun c => p c = true) s -> Ms pre (re_star (re_set p)) s post.
Proof.
  induction s as [|c s IH]; intros pre post Hs.
  - constructor.
  - inversion Hs; subst.
    change (c :: s) with (c :: [] ++ s). constructor.
    + now constructor.
    + now apply IH.
Qed.

Lemma Ms_star_set_elim p s : forall pre post,
  Ms pre (re_star (re_set p)) s post -> Forall (fun c => p c = true) s.
Proof.
  induction s as [|c s IH]; intros pre post Hm; [constructor|].
  apply Ms_star_inv in Hm as [E|(d & s1 & s2 & E & H1 & H2)]; [discriminate|].
  apply Ms_set_inv in H1 as (e & E1 & He). injection E1 as -> ->.
  cbn in E. injection E as -> ->. constructor; [exact He|].
  now apply IH in H2.
Qed.

Lemma Ms_plus_set p s pre post :
  Ms pre (re_plus (re_set p)) s post <->
  s <> [] /\ Forall (fun c => p c = true) s.
Proof.
  unfold re_plus. split.
  - intros Hm. apply Ms_cat_inv in Hm as (s1 & s2 & -> & H1 & H2).
    apply Ms_set_inv in H1 as (c & -> & Hc). split; [discriminate|].
    constructor; [exact Hc|]. now apply Ms_star_set_elim in H2.
  - intros [Hne Hs]. destruct s as [|c s]; [congruence|].
    inversion Hs; subst. change (c :: s) with ([c] ++ s). constructor.
    + now constructor.
    + now apply Ms_star_set_intro.
Qed.

Lemma Forall_any (s : list ascii) : Forall (fun c => (fun _ : ascii => true) c = true) s.
Proof. induction s; constructor; auto. Qed.

Lemma Ms_star_any s pre post : Ms pre (re_star re_any) s post.
Proof. apply Ms_star_set_intro, Forall_any. Qed.

Lemma regex_match_Ms r s :
  regex_match r s = true <-> Ms None r (list_ascii_of_string s) None.
Proof. apply run_Ms. Qed.

Lemma regex_search_set p s :
  regex_search (re_set p) s = true <->
  exists c, In c (list_ascii_of_string s) /\ p c = true.
Proof.
  unfold regex_search. rewrite run_Ms. split.
  - intros Hm. apply Ms_cat_inv in Hm as (s1 & s2 & E & _ & H2).
    apply Ms_cat_inv in H2 as (s3 & s4 & -> & H3 & _).
    apply Ms_set_inv in H3 as (c & -> & Hc).
    exists c. split; [|exact Hc]. rewrite E. apply in_or_app. right. now left.
  - intros (c & Hin & Hc). apply in_split in Hin as (l1 & l2 & ->).
    constructor; [apply Ms_star_any|].
    change (c :: l2) with ([c] ++ l2). constructor.
    + now constructor.
    + apply Ms_star_any.
Qed.

Lemma regex_search_set_false p s :
  regex_search (re_set p) s = false <->
  forall c, In c (list_ascii_of_string s) -> p c = false.
Proof.
  split.
  - intros Hs c Hin. destruct (p c) eqn:E; [|reflexivity].
    assert (regex_search (re_set p) s = true) by (apply regex_search_set; eauto).
    congruence.
  - intros Hall. destruct (regex_search (re_set p) s) eqn:E; [|reflexivity].
    apply regex_search_set in E as (c & Hin & Hc). rewrite (Hall c Hin) in Hc.
    discriminate.
Qed.

Lemma controlChars_search s :
  regex_search controlCharsPattern_ s = true <-> has_control_char s.
Proof.
  unfold controlCharsPattern_, has_control_char. rewrite regex_search_set. split.
  - intros (c & Hin & Hc). apply orb_true_iff in Hc as [Hc|Hc];
      apply Ascii.eqb_eq in Hc; subst; auto.
  - intros [Hin|Hin]; eexists; (split; [exact Hin|]).
    + reflexivity.
    + reflexivity.
Qed.

Lemma promptPattern_match s :
  regex_match promptPattern_ s = true <-> code_prompt_shape s.
Proof.
  rewrite regex_match_Ms. unfold promptPattern_, code_prompt_shape. split.
  - intros Hm.
    apply Ms_cat_inv in Hm as (s0 & s1 & E0 & Hb & Hm).
    inversion Hb; subst s0. cbn in E0, Hm. subst s1.
    apply Ms_cat_inv in Hm as (a & s2 & E1 & Ha & Hm).
    apply Ms_plus_set in Ha as [Hane _].
    apply Ms_cat_inv in Hm as (s3 & s4 & -> & Hc & Hm).
    apply Ms_set_inv in Hc as (c & -> & Hc).
    apply Ms_cat_inv in Hm as (sp & s5 & -> & Hsp & He).
    inversion He; subst. rewrite app_nil_r in *.
    apply Ms_plus_set in Hsp as [Hspne Hsp].
    exists a, c, sp. repeat split; auto.
    eapply Forall_impl; [|exact Hsp]. intros d Hd.
    apply (proj1 (Ascii.eqb_eq space d)) in Hd. now symmetry.
  - intros (a & c & sp & E & Hane & Hc & Hspne & Hsp). rewrite E.
    change (a ++ c :: sp) with ([] ++ (a ++ c :: sp)). constructor.
    { now constructor. }
    constructor.
    { apply Ms_plus_set. split; [exact Hane | apply Forall_any]. }
    change (c :: sp) with ([c] ++ sp). constructor.
    { now constructor. }
    rewrite <- (app_nil_r sp). constructor.
    { apply Ms_plus_set. split; [exact Hspne|].
      eapply Forall_impl; [|exact Hsp]. intros d ->. apply Ascii.eqb_refl. }
    now constructor.
Qed.

(** ** Tactics *)

(** Case analysis on every test a function makes, simplifying the
    record accesses in between. *)
Ltac break_tests :=
  repeat (cbn;
          match goal with
          | |- context [if ?b then _ else _] => destruct b eqn:?
          | |- context [match ?x with Rpc => _ | Websocket => _ end] =>
              destruct x eqn:?
          end);
  cbn.

Ltac count_effects :=
  unfold flush_count, launches in *; cbn in *;
  rewrite ?filter_app, ?length_app in *; cbn in *; try lia.

(** ** The prompt classifier *)

Section SessionFacts.
Context `{Constants} `{Collaborators}.

Lemma flush_count_app es1 es2 :
  flush_count (es1 ++ es2) = (flush_count es1 + flush_count es2)%nat.
Proof. unfold flush_count. now rewrite filter_app, length_app. Qed.

Lemma effects_emit e cp : effects_ (emit e cp) = effects_ cp ++ [e].
Proof. reflexivity. Qed.

(** One call of [enqueOutputEvent] is one delivery of output. *)
Lemma enqueOutputEvent_flush_count output cp :
  flush_count (effects_ (enqueOutputEvent output cp)) =
  S (flush_count (effects_ cp)).
Proof.
  unfold enqueOutputEvent. break_tests; count_effects.
Qed.

Lemma enqueOutputEvent_onPrompt output cp :
  onPrompt_ (enqueOutputEvent output cp) = onPrompt_ cp.
Proof. unfold enqueOutputEvent. now break_tests. Qed.

Lemma enqueOutputEvent_handle output cp :
  handle (enqueOutputEvent output cp) = handle cp.
Proof. unfold enqueOutputEvent, handle. now break_tests. Qed.

Lemma handleConsolePrompt_flush_count ops prompt cp :
  flush_count (effects_ (handleConsolePrompt ops prompt cp)) =
  flush_count (effects_ cp).
Proof.
  unfold handleConsolePrompt, enquePromptEvent, log_if_error, enqueInput.
  destruct (onPrompt_ cp) as [h|]; [destruct (h prompt Input_ctor) as [[|] input]|];
    break_tests; count_effects.
Qed.

Lemma handle_not_flush ops output cp :
  handleConsolePrompt ops output cp <> enqueOutputEvent output cp.
Proof.
  intros E. apply (f_equal (fun c => flush_count (effects_ c))) in E.
  rewrite handleConsolePrompt_flush_count, enqueOutputEvent_flush_count in E.
  lia.
Qed.

Lemma not_control_chars output :
  ~ has_control_char output -> regex_search controlCharsPattern_ output = false.
Proof.
  intros Hn. destruct (regex_search controlCharsPattern_ output) eqn:E; [|reflexivity].
  apply controlChars_search in E. contradiction.
Qed.

Lemma not_prompt_shape output :
  ~ code_prompt_shape output <-> regex_match promptPattern_ output = false.
Proof.
  rewrite <- promptPattern_match. now destruct (regex_match promptPattern_ output).
Qed.

(** C1 (evaluation of the code): a candidate with a control character
    that does not have the prompt shape passes through both flushing
    branches of [maybeConsolePrompt]: it is delivered as output twice. *)
Theorem maybeConsolePrompt_flushes_twice ops output cp :
  has_control_char output ->
  ~ code_prompt_shape output ->
  maybeConsolePrompt ops output cp =
    enqueOutputEvent output (enqueOutputEvent output cp) /\
  flush_count (effects_ (maybeConsolePrompt ops output cp)) =
    (2 + flush_count (effects_ cp))%nat.
Proof.
  intros Hc Hs. apply controlChars_search in Hc. apply not_prompt_shape in Hs.
  unfold maybeConsolePrompt. rewrite Hc, Hs. cbn [negb]. split; [reflexivity|].
  now rewrite !enqueOutputEvent_flush_count.
Qed.

(** C2 (evaluation of the code): a candidate with a control character
    that has the prompt shape is delivered as output once and is then
    handled as a prompt all the same; with no handler registered the
    prompt notification follows the output. *)
Theorem maybeConsolePrompt_control_char_prompt ops output cp :
  has_control_char output ->
  code_prompt_shape output ->
  maybeConsolePrompt ops output cp =
    handleConsolePrompt ops output (enqueOutputEvent output cp) /\
  (onPrompt_ cp = None ->
   effects_ (maybeConsolePrompt ops output cp) =
     effects_ (enqueOutputEvent output cp) ++
     [enqueClientEvent (kConsoleProcessPrompt (handle cp) output)]).
Proof.
  intros Hc Hs. apply controlChars_search in Hc. apply promptPattern_match in Hs.
  unfold maybeConsolePrompt. rewrite Hc, Hs. cbn [negb]. split; [reflexivity|].
  intros Hn. unfold handleConsolePrompt.
  rewrite enqueOutputEvent_onPrompt, Hn. unfold enquePromptEvent.
  now rewrite effects_emit, enqueOutputEvent_handle.
Qed.

(** C3 (amended): a candidate without carriage return or backspace is
    treated as a prompt exactly when the whole of it is one or more
    characters, then a character that is not a letter or a digit, then
    one or more spaces; otherwise it is flushed as output. *)
Theorem maybeConsolePrompt_prompt_iff_shape ops output cp :
  ~ has_control_char output ->
  (treated_as_prompt ops output cp <-> code_prompt_shape output) /\
  (flushed_as_output ops output cp <-> ~ code_prompt_shape output).
Proof.
  intros Hc. apply not_control_chars in Hc.
  unfold treated_as_prompt, flushed_as_output, maybeConsolePrompt.
  rewrite Hc. rewrite not_prompt_shape, <- promptPattern_match.
  destruct (regex_match promptPattern_ output); cbn [negb]; split; split;
    try reflexivity; try discriminate; intros E; exfalso;
    first [ now apply handle_not_flush in E
          | symmetry in E; now apply handle_not_flush in E ].
Qed.

End SessionFacts.

(** ** The input sequencer *)

Lemma int_wrap_id z : - 2 ^ 31 <= z < 2 ^ 31 -> int_wrap z = z.
Proof. intros Hz. unfold int_wrap. rewrite Z.mod_small; lia. Qed.

(** Strictly increasing lists of integers are determined by their
    elements. *)
Lemma sorted_perm_eq (l1 : list Z) : forall l2,
  StronglySorted Z.lt l1 -> StronglySorted Z.lt l2 -> Permutation l1 l2 ->
  l1 = l2.
Proof.
  induction l1 as [|a l1 IH]; intros l2 S1 S2 P.
  - apply Permutation_nil in P. now subst.
  - destruct l2 as [|b l2].
    { apply Permutation_sym, Permutation_nil in P. discriminate. }
    apply StronglySorted_inv in S1 as [S1 F1].
    apply StronglySorted_inv in S2 as [S2 F2].
    rewrite Forall_forall in F1, F2.
    assert (a = b).
    { assert (Ha : In a (b :: l2)) by (eapply Permutation_in; [exact P | now left]).
      assert (Hb : In b (a :: l1))
        by (eapply Permutation_in; [apply Permutation_sym; exact P | now left]).
      destruct Ha as [Ha|Ha]; [now symmetry|].
      destruct Hb as [Hb|Hb]; [assumption|].
      apply F2 in Ha. apply F1 in Hb. lia. }
    subst b. f_equal. apply IH; auto. eapply Permutation_cons_inv; exact P.
Qed.

Lemma sorted_map_sequence q :
  StronglySorted ltseq q -> StronglySorted Z.lt (map sequence q).
Proof.
  induction 1 as [|a q S IH F]; cbn; constructor; auto.
  rewrite Forall_forall in *. intros z Hz. apply in_map_iff in Hz as (x & <- & Hx).
  now apply F.
Qed.

Lemma sequence_numbers_length from n : List.length (sequence_numbers from n) = n.
Proof. unfold sequence_numbers. now rewrite length_map, length_seq. Qed.

Lemma sequence_numbers_S from n :
  sequence_numbers from (S n) = sequence_numbers from n ++ [from + Z.of_nat (S n)].
Proof. unfold sequence_numbers. now rewrite seq_S, map_app. Qed.

Lemma sequence_numbers_app from n m :
  sequence_numbers from (n + m) =
  sequence_numbers from n ++ sequence_numbers (from + Z.of_nat n) m.
Proof.
  induction m as [|m IH].
  - now rewrite Nat.add_0_r, app_nil_r.
  - rewrite Nat.add_succ_r, !sequence_numbers_S, IH, <- app_assoc.
    do 3 f_equal. lia.
Qed.

Lemma sequence_numbers_In from n z :
  In z (sequence_numbers from n) <-> from < z <= from + Z.of_nat n.
Proof.
  unfold sequence_numbers. rewrite in_map_iff. split.
  - intros (j & <- & Hj). apply in_seq in Hj. lia.
  - intros Hz. exists (Z.to_nat (z - from)). split; [lia|]. apply in_seq. lia.
Qed.

Lemma sequence_numbers_sorted from n : StronglySorted Z.lt (sequence_numbers from n).
Proof.
  induction n as [|n IH].
  - constructor.
  - rewrite sequence_numbers_S. clear -IH. 
    assert (F : Forall (fun z => z < from + Z.of_nat (S n)) (sequence_numbers from n)).
    { rewrite Forall_forall. intros z Hz. apply sequence_numbers_In in Hz. lia. }
    induction IH as [|a l S IH' Fa]; cbn.
    + repeat constructor.
    + inversion F; subst. constructor; [now apply IH'|].
      apply Forall_app. split; [exact Fa | now repeat constructor].
Qed.

Lemma sorted_NoDup (l : list Z) : StronglySorted Z.lt l -> NoDup l.
Proof.
  induction 1 as [|a l S IH F]; constructor; [|exact IH].
  intros Hin. rewrite Forall_forall in F. apply F in Hin. lia.
Qed.

Lemma sequence_numbers_NoDup from n : NoDup (sequence_numbers from n).
Proof. apply sorted_NoDup, sequence_numbers_sorted. Qed.

Section SequencerFacts.
Context `{Constants} `{Collaborators}.

Lemma insert_by_sequence_perm input q :
  Permutation (insert_by_sequence input q) (input :: q).
Proof.
  induction q as [|it q IH]; cbn; [reflexivity|].
  destruct (sequence input <? sequence it); [reflexivity|].
  rewrite IH. apply perm_swap.
Qed.

Lemma insert_by_sequence_sorted input q :
  StronglySorted ltseq q ->
  ~ In (sequence input) (map sequence q) ->
  StronglySorted ltseq (insert_by_sequence input q).
Proof.
  induction 1 as [|it q S IH F]; intros Hn; cbn.
  - repeat constructor.
  - destruct (sequence input <? sequence it) eqn:E.
    + apply Z.ltb_lt in E. constructor; [now constructor|].
      constructor; [exact E|]. eapply Forall_impl; [|exact F].
      unfold ltseq. intros; lia.
    + apply Z.ltb_ge in E. cbn in Hn. constructor; [apply IH; tauto|].
      rewrite Forall_forall in *. intros x Hx.
      eapply Permutation_in in Hx; [|apply insert_by_sequence_perm].
      destruct Hx as [<-|Hx]; [unfold ltseq; lia | now apply F].
Qed.

Lemma insert_by_sequence_after D input q :
  Forall (fun d => ltseq d input) D ->
  insert_by_sequence input (D ++ q) = D ++ insert_by_sequence input q.
Proof.
  induction 1 as [|d D Hd F IH]; cbn; [reflexivity|].
  unfold ltseq in Hd. destruct (sequence input <? sequence d) eqn:E.
  - apply Z.ltb_lt in E. lia.
  - now rewrite IH.
Qed.

Lemma enqueInput_ordered input cp :
  is_ordered input ->
  enqueInput input cp =
  set_inputQueue (insert_by_sequence input (inputQueue_ cp)) cp.
Proof.
  intros [Hi Hf]. unfold enqueInput.
  apply Z.eqb_neq in Hi, Hf. now rewrite Hi, Hf.
Qed.

(** The loop of the auto-flush marks every item and leaves the sequence
    of the last one behind. *)
Lemma autoflush_loop_spec q last :
  autoflush_loop q last =
  (map (set_sequence kIgnoreSequence) q, List.last (map sequence q) last).
Proof.
  unfold autoflush_loop. induction q as [|it q IH] using rev_ind.
  - reflexivity.
  - rewrite fold_left_app, IH. cbn [fold_left fst].
    rewrite !map_app. cbn [map]. now rewrite last_last.
Qed.

Lemma dequeInput_nil cp :
  inputQueue_ cp = [] -> dequeInput cp = (Input_ctor, cp).
Proof. intros E. unfold dequeInput. now rewrite E. Qed.

Lemma dequeInput_expected cp h rest :
  inputQueue_ cp = h :: rest -> is_ordered h ->
  sequence h = int_wrap (lastInputSequence_ cp + 1) ->
  dequeInput cp =
  (h, set_inputQueue rest
        (set_lastInputSequence (int_wrap (lastInputSequence_ cp + 1)) cp)).
Proof.
  intros E [Hi Hf] Hs. unfold dequeInput. rewrite E.
  apply Z.eqb_neq in Hi, Hf. rewrite Hi, Hf. cbn [orb].
  apply Z.eqb_eq in Hs. now rewrite Hs.
Qed.

Lemma dequeInput_gap cp h rest :
  inputQueue_ cp = h :: rest -> is_ordered h ->
  sequence h <> int_wrap (lastInputSequence_ cp + 1) ->
  (List.length (inputQueue_ cp) < kAutoFlushLength)%nat ->
  dequeInput cp = (Input_ctor, cp).
Proof.
  intros E [Hi Hf] Hs Hl. unfold dequeInput. rewrite E in *.
  apply Z.eqb_neq in Hi, Hf, Hs. rewrite Hi, Hf, Hs. cbn [orb].
  apply Nat.leb_gt in Hl. now rewrite Hl.
Qed.

Lemma dequeInput_autoflush cp h rest :
  inputQueue_ cp = h :: rest -> is_ordered h ->
  sequence h <> int_wrap (lastInputSequence_ cp + 1) ->
  (kAutoFlushLength <= List.length (inputQueue_ cp))%nat ->
  dequeInput cp =
  (set_sequence kIgnoreSequence h,
   set_inputQueue (map (set_sequence kIgnoreSequence) rest)
     (set_lastInputSequence
        (List.last (map sequence (inputQueue_ cp)) (lastInputSequence_ cp)) cp)).
Proof.
  intros E [Hi Hf] Hs Hl. unfold dequeInput. rewrite E in *.
  apply Z.eqb_neq in Hi, Hf, Hs. rewrite Hi, Hf, Hs. cbn [orb].
  apply Nat.leb_le in Hl. rewrite Hl, autoflush_loop_spec. reflexivity.
Qed.

End SequencerFacts.

Section SequencerRun.
Context `{Constants} `{Collaborators}.

Lemma returned_good r : good r -> returned [r] = [r].
Proof. intros [_ Hr]. unfold returned. cbn. now rewrite Hr. Qed.

Lemma returned_empty : returned [Input_ctor] = [].
Proof. reflexivity. Qed.

Lemma returned_app rs1 rs2 : returned (rs1 ++ rs2) = returned rs1 ++ returned rs2.
Proof. apply filter_app. Qed.

Lemma seq_inv_delivered_le cp D E d :
  seq_inv cp D E -> In d D ->
  kIgnoreSequence < sequence d <= kIgnoreSequence + Z.of_nat (List.length D).
Proof.
  intros (_ & _ & HD & _) Hd. apply sequence_numbers_In. rewrite <- HD.
  now apply in_map.
Qed.

Lemma seq_inv_enq cp D E i :
  seq_inv cp D E -> is_ordered i -> kIgnoreSequence < sequence i ->
  ~ In (sequence i) (map sequence E) ->
  seq_inv (enqueInput i cp) D (E ++ [i]).
Proof.
  intros Hinv Ho Hlo Hnew. pose proof Hinv as (HS & HP & HD & HL).
  assert (Hq : ~ In (sequence i) (map sequence (D ++ inputQueue_ cp))).
  { intros Hin. apply Hnew. eapply Permutation_in; [|exact Hin].
    now apply Permutation_map. }
  assert (Hlt : Forall (fun d => ltseq d i) D).
  { rewrite Forall_forall. intros d Hd. unfold ltseq.
    pose proof (seq_inv_delivered_le _ _ _ _ Hinv Hd) as Hr.
    destruct (Z_lt_le_dec (kIgnoreSequence + Z.of_nat (List.length D)) (sequence i));
      [lia|].
    exfalso. apply Hq. rewrite map_app, HD. apply in_or_app. left.
    apply sequence_numbers_In. lia. }
  rewrite enqueInput_ordered by exact Ho. unfold seq_inv. cbn.
  rewrite <- insert_by_sequence_after by exact Hlt. repeat split.
  - apply insert_by_sequence_sorted; assumption.
  - rewrite insert_by_sequence_perm. rewrite HP. apply Permutation_cons_append.
  - exact HD.
  - exact HL.
Qed.

Lemma seq_inv_deq N cp D E :
  seq_inv cp D E -> Forall good E ->
  (List.length E <= N)%nat -> (N < kAutoFlushLength)%nat ->
  - 2 ^ 31 <= kIgnoreSequence -> kIgnoreSequence + Z.of_nat N < 2 ^ 31 ->
  seq_inv (snd (dequeInput cp)) (D ++ returned [fst (dequeInput cp)]) E.
Proof.
  intros Hinv Hgood HN Hthr Hmin Hmax. pose proof Hinv as (HS & HP & HD & HL).
  destruct (inputQueue_ cp) as [|h rest] eqn:EQ.
  - rewrite dequeInput_nil by exact EQ. cbn [fst snd].
    now rewrite returned_empty, app_nil_r.
  - assert (Hh : good h).
    { rewrite Forall_forall in Hgood. apply Hgood.
      eapply Permutation_in; [exact HP|]. apply in_or_app. right. now left. }
    assert (Hlen : (List.length D + S (List.length rest) <= N)%nat).
    { apply Permutation_length in HP. rewrite length_app in HP. cbn in HP. lia. }
    assert (Hw : int_wrap (lastInputSequence_ cp + 1) =
                 kIgnoreSequence + Z.of_nat (List.length D) + 1).
    { rewrite HL. apply int_wrap_id. lia. }
    destruct (Z.eq_dec (sequence h) (int_wrap (lastInputSequence_ cp + 1)))
      as [Eh|Eh].
    + rewrite (dequeInput_expected cp h rest) by (try apply Hh; assumption).
      cbn [fst snd]. rewrite returned_good by exact Hh.
      unfold seq_inv. cbn. rewrite <- app_assoc. cbn [app].
      repeat split; try assumption.
      * rewrite map_app, length_app, HD. cbn [map List.length].
        rewrite Nat.add_1_r, sequence_numbers_S. do 2 f_equal. lia.
      * rewrite length_app. cbn. lia.
    + rewrite (dequeInput_gap cp h rest); try apply Hh; try assumption.
      * cbn [fst snd]. rewrite returned_empty, app_nil_r.
        unfold seq_inv. now rewrite EQ.
      * rewrite EQ. cbn. lia.
Qed.

Lemma run_schedule_app s1 s2 cp :
  run_schedule (s1 ++ s2) cp =
  (fst (run_schedule s1 cp) ++ fst (run_schedule s2 (snd (run_schedule s1 cp))),
   snd (run_schedule s2 (snd (run_schedule s1 cp)))).
Proof.
  revert cp. induction s1 as [|[i|] s1 IH]; intros cp; cbn.
  - now destruct (run_schedule s2 cp).
  - apply IH.
  - destruct (dequeInput cp) as [r cp1]. rewrite IH.
    destruct (run_schedule s1 cp1) as [rs cp2]. reflexivity.
Qed.

Lemma run_schedule_deq s cp :
  run_schedule (Deq :: s) cp =
  (fst (dequeInput cp) :: fst (run_schedule s (snd (dequeInput cp))),
   snd (run_schedule s (snd (dequeInput cp)))).
Proof.
  cbn. destruct (dequeInput cp) as [r cp1]. cbn.
  now destruct (run_schedule s cp1).
Qed.

Lemma arrivals_enq i s : arrivals (Enq i :: s) = i :: arrivals s.
Proof. reflexivity. Qed.

Lemma arrivals_deq s : arrivals (Deq :: s) = arrivals s.
Proof. reflexivity. Qed.

(** The invariant along any interleaving of arrivals and dequeues. *)
Lemma run_schedule_inv N s : forall cp D E,
  seq_inv cp D E ->
  NoDup (map sequence (E ++ arrivals s)) ->
  Forall good (E ++ arrivals s) ->
  Forall (fun i => kIgnoreSequence < sequence i) (arrivals s) ->
  (List.length (E ++ arrivals s) <= N)%nat -> (N < kAutoFlushLength)%nat ->
  - 2 ^ 31 <= kIgnoreSequence -> kIgnoreSequence + Z.of_nat N < 2 ^ 31 ->
  seq_inv (snd (run_schedule s cp)) (D ++ returned (fst (run_schedule s cp)))
          (E ++ arrivals s).
Proof.
  induction s as [|[i|] s IH]; intros cp D E Hinv Hnd Hgood Hlo HN Hthr Hmin Hmax.
  - cbn. now rewrite !app_nil_r.
  - rewrite arrivals_enq in *. cbn [run_schedule].
    replace (E ++ i :: arrivals s) with ((E ++ [i]) ++ arrivals s) in *
      by (now rewrite <- app_assoc).
    inversion Hlo; subst.
    apply IH; try assumption.
    apply seq_inv_enq; try assumption.
    + rewrite Forall_forall in Hgood. apply Hgood.
      apply in_or_app. left. apply in_or_app. right. now left.
    + rewrite map_app, map_app in Hnd. apply NoDup_app_remove_r in Hnd.
      cbn in Hnd. apply NoDup_remove_2 in Hnd. now rewrite app_nil_r in Hnd.
  - rewrite run_schedule_deq. rewrite arrivals_deq in *. cbn [fst snd].
    change (fst (dequeInput cp) :: fst (run_schedule s (snd (dequeInput cp))))
      with ([fst (dequeInput cp)] ++ fst (run_schedule s (snd (dequeInput cp)))).
    rewrite returned_app, app_assoc.
    apply IH; try assumption.
    apply (seq_inv_deq N); try assumption.
    + rewrite Forall_app in Hgood. tauto.
    + rewrite length_app in HN. lia.
Qed.

End SequencerRun.

Section SequencerClaims.
Context `{Constants} `{Collaborators}.

Lemma same_sequences_perm_eq (l1 : list Input) : forall l2,
  map sequence l1 = map sequence l2 -> NoDup (map sequence l1) ->
  Permutation l1 l2 -> l1 = l2.
Proof.
  induction l1 as [|a l1 IH]; intros [|b l2] Hm Hnd HP; try discriminate.
  - reflexivity.
  - cbn in Hm. injection Hm as Hab Hm. cbn in Hnd. inversion Hnd; subst.
    assert (a = b).
    { assert (Hb : In b (a :: l1))
        by (eapply Permutation_in; [apply Permutation_sym; exact HP | now left]).
      destruct Hb as [Hb|Hb]; [exact Hb|].
      exfalso. apply H3. rewrite Hab. now apply in_map. }
    subst b. f_equal. apply IH; auto. eapply Permutation_cons_inv; exact HP.
Qed.

(** The invariant from a base [b], kept by an arrival and by a
    dequeue. *)
Lemma seq_inv_from_enq b cp D E i :
  seq_inv_from b cp D E -> is_ordered i -> b < sequence i ->
  ~ In (sequence i) (map sequence E) ->
  seq_inv_from b (enqueInput i cp) D (E ++ [i]).
Proof.
  intros Hinv Ho Hlo Hnew. pose proof Hinv as (HS & HP & HD & HL).
  assert (Hq : ~ In (sequence i) (map sequence (D ++ inputQueue_ cp))).
  { intros Hin. apply Hnew. eapply Permutation_in; [|exact Hin].
    now apply Permutation_map. }
  assert (Hlt : Forall (fun d => ltseq d i) D).
  { rewrite Forall_forall. intros d Hd. unfold ltseq.
    assert (Hr : b < sequence d <= b + Z.of_nat (List.length D)).
    { apply sequence_numbers_In. rewrite <- HD. now apply in_map. }
    destruct (Z_lt_le_dec (b + Z.of_nat (List.length D)) (sequence i)); [lia|].
    exfalso. apply Hq. rewrite map_app, HD. apply in_or_app. left.
    apply sequence_numbers_In. lia. }
  rewrite enqueInput_ordered by exact Ho. unfold seq_inv_from. cbn.
  rewrite <- insert_by_sequence_after by exact Hlt. repeat split.
  - apply insert_by_sequence_sorted; assumption.
  - rewrite insert_by_sequence_perm. rewrite HP. apply Permutation_cons_append.
  - exact HD.
  - exact HL.
Qed.

Lemma popped_nil cp : inputQueue_ cp = [] -> popped cp = [].
Proof.
  intros E. unfold popped. rewrite dequeInput_nil by exact E. cbn [snd].
  now rewrite Nat.ltb_irrefl.
Qed.

Lemma popped_expected cp h rest :
  inputQueue_ cp = h :: rest -> is_ordered h ->
  sequence h = int_wrap (lastInputSequence_ cp + 1) ->
  popped cp = [h].
Proof.
  intros E Ho Hs. unfold popped.
  rewrite (dequeInput_expected cp h rest E Ho Hs). cbn [fst snd]. rewrite E.
  replace (List.length (inputQueue_ (set_inputQueue rest
             (set_lastInputSequence (int_wrap (lastInputSequence_ cp + 1)) cp))))
    with (List.length rest) by reflexivity.
  replace (List.length rest <? List.length (h :: rest))%nat with true;
    [reflexivity|].
  symmetry. apply Nat.ltb_lt. cbn. lia.
Qed.

Lemma popped_gap cp h rest :
  inputQueue_ cp = h :: rest -> is_ordered h ->
  sequence h <> int_wrap (lastInputSequence_ cp + 1) ->
  (List.length (inputQueue_ cp) < kAutoFlushLength)%nat ->
  popped cp = [].
Proof.
  intros E Ho Hs Hl. unfold popped.
  rewrite (dequeInput_gap cp h rest E Ho Hs Hl). cbn [snd].
  now rewrite Nat.ltb_irrefl.
Qed.

Lemma seq_inv_from_deq b N cp D E :
  seq_inv_from b cp D E -> Forall is_ordered E ->
  (List.length E <= N)%nat -> (N < kAutoFlushLength)%nat ->
  - 2 ^ 31 <= b -> b + Z.of_nat N < 2 ^ 31 ->
  seq_inv_from b (snd (dequeInput cp)) (D ++ popped cp) E.
Proof.
  intros Hinv Hord HN Hthr Hmin Hmax. pose proof Hinv as (HS & HP & HD & HL).
  destruct (inputQueue_ cp) as [|h rest] eqn:EQ.
  - rewrite popped_nil, dequeInput_nil by exact EQ. cbn [snd].
    now rewrite app_nil_r.
  - assert (Hh : is_ordered h).
    { rewrite Forall_forall in Hord. apply Hord.
      eapply Permutation_in; [exact HP|]. apply in_or_app. right. now left. }
    assert (Hlen : (List.length D + S (List.length rest) <= N)%nat).
    { apply Permutation_length in HP. rewrite length_app in HP. cbn in HP. lia. }
    assert (Hw : int_wrap (lastInputSequence_ cp + 1) =
                 b + Z.of_nat (List.length D) + 1).
    { rewrite HL. apply int_wrap_id. lia. }
    destruct (Z.eq_dec (sequence h) (int_wrap (lastInputSequence_ cp + 1)))
      as [Eh|Eh].
    + rewrite (popped_expected cp h rest), (dequeInput_expected cp h rest)
        by assumption.
      cbn [snd]. unfold seq_inv_from. cbn. rewrite <- app_assoc. cbn [app].
      repeat split; try assumption.
      * rewrite map_app, length_app, HD. cbn [map List.length].
        rewrite Nat.add_1_r, sequence_numbers_S. do 2 f_equal. lia.
      * rewrite length_app. cbn. lia.
    + assert (Hshort : (List.length (inputQueue_ cp) < kAutoFlushLength)%nat)
        by (rewrite EQ; cbn; lia).
      rewrite (popped_gap cp h rest), (dequeInput_gap cp h rest) by assumption.
      cbn [snd]. rewrite app_nil_r. unfold seq_inv_from. now rewrite EQ.
Qed.

(** Once every item has arrived the head of the queue is the one the
    sequencer is waiting for. *)
Lemma seq_inv_from_head b N cp D E h rest :
  seq_inv_from b cp D E ->
  Permutation (map sequence E) (sequence_numbers b N) ->
  inputQueue_ cp = h :: rest ->
  sequence h = b + Z.of_nat (List.length D) + 1.
Proof.
  intros (HS & HP & HD & HL) HE EQ. rewrite EQ in *.
  assert (Hall : map sequence (D ++ h :: rest) = sequence_numbers b N).
  { apply sorted_perm_eq.
    - now apply sorted_map_sequence.
    - apply sequence_numbers_sorted.
    - rewrite <- HE. now apply Permutation_map. }
  assert (HN : N = (List.length D + S (List.length rest))%nat).
  { apply (f_equal (@List.length Z)) in Hall.
    rewrite length_map, length_app, sequence_numbers_length in Hall. cbn in Hall. lia. }
  rewrite map_app, HN, sequence_numbers_app, HD in Hall.
  apply app_inv_head in Hall. cbn in Hall. injection Hall as Hh _. lia.
Qed.

Lemma run_schedule_snd_deq s cp :
  snd (run_schedule (Deq :: s) cp) = snd (run_schedule s (snd (dequeInput cp))).
Proof. now rewrite run_schedule_deq. Qed.

Lemma dequeued_app s1 s2 cp :
  dequeued (s1 ++ s2) cp =
  dequeued s1 cp ++ dequeued s2 (snd (run_schedule s1 cp)).
Proof.
  revert cp. induction s1 as [|[i|] s1 IH]; intros cp.
  - reflexivity.
  - cbn [app dequeued run_schedule]. apply IH.
  - cbn [app dequeued]. rewrite IH, run_schedule_snd_deq, app_assoc. reflexivity.
Qed.

(** The invariant along any interleaving of arrivals and dequeues. *)
Lemma dequeued_inv b N s : forall cp D E,
  seq_inv_from b cp D E ->
  NoDup (map sequence (E ++ arrivals s)) ->
  Forall is_ordered (E ++ arrivals s) ->
  Forall (fun i => b < sequence i) (arrivals s) ->
  (List.length (E ++ arrivals s) <= N)%nat -> (N < kAutoFlushLength)%nat ->
  - 2 ^ 31 <= b -> b + Z.of_nat N < 2 ^ 31 ->
  seq_inv_from b (snd (run_schedule s cp)) (D ++ dequeued s cp)
               (E ++ arrivals s).
Proof.
  induction s as [|[i|] s IH]; intros cp D E Hinv Hnd Hord Hlo HN Hthr Hmin Hmax.
  - cbn. now rewrite !app_nil_r.
  - rewrite arrivals_enq in *. cbn [run_schedule dequeued].
    replace (E ++ i :: arrivals s) with ((E ++ [i]) ++ arrivals s) in *
      by (now rewrite <- app_assoc).
    inversion Hlo; subst.
    apply IH; try assumption.
    apply seq_inv_from_enq; try assumption.
    + rewrite Forall_forall in Hord. apply Hord.
      apply in_or_app. left. apply in_or_app. right. now left.
    + rewrite map_app, map_app in Hnd. apply NoDup_app_remove_r in Hnd.
      cbn in Hnd. apply NoDup_remove_2 in Hnd. now rewrite app_nil_r in Hnd.
  - rewrite run_schedule_snd_deq. rewrite arrivals_deq in *. cbn [dequeued].
    rewrite app_assoc.
    apply IH; try assumption.
    apply (seq_inv_from_deq b N); try assumption.
    + rewrite Forall_app in Hord. tauto.
    + rewrite length_app in HN. lia.
Qed.

(** With everything arrived, [n] dequeues empty a queue of at most [n]
    items. *)
Lemma dequeued_drain b N n : forall cp D E,
  seq_inv_from b cp D E -> Forall is_ordered E ->
  Permutation (map sequence E) (sequence_numbers b N) ->
  (N < kAutoFlushLength)%nat ->
  - 2 ^ 31 <= b -> b + Z.of_nat N < 2 ^ 31 ->
  (List.length (inputQueue_ cp) <= n)%nat ->
  seq_inv_from b (snd (run_schedule (repeat Deq n) cp))
               (D ++ dequeued (repeat Deq n) cp) E /\
  inputQueue_ (snd (run_schedule (repeat Deq n) cp)) = [].
Proof.
  induction n as [|n IH]; intros cp D E Hinv Hord HE Hthr Hmin Hmax Hn.
  - cbn. rewrite app_nil_r. split; [exact Hinv|].
    destruct (inputQueue_ cp); [reflexivity | cbn in Hn; lia].
  - cbn [repeat dequeued]. rewrite run_schedule_snd_deq, app_assoc.
    assert (HlenE : List.length E = N).
    { apply Permutation_length in HE.
      now rewrite length_map, sequence_numbers_length in HE. }
    apply IH; try assumption.
    + apply (seq_inv_from_deq b N); try assumption. lia.
    + destruct (inputQueue_ cp) as [|h rest] eqn:EQ.
      * rewrite dequeInput_nil by exact EQ. cbn. rewrite EQ. cbn. lia.
      * pose proof (seq_inv_from_head b N _ _ _ _ _ Hinv HE EQ) as Hh.
        pose proof Hinv as (HS & HP & HD & HL).
        assert (Hg : is_ordered h).
        { rewrite Forall_forall in Hord. apply Hord.
          eapply Permutation_in; [exact HP|]. rewrite EQ.
          apply in_or_app. right. now left. }
        assert (Hlen : (List.length D + S (List.length rest) <= N)%nat).
        { apply Permutation_length in HP. rewrite EQ, length_app in HP.
          cbn in HP. lia. }
        rewrite (dequeInput_expected cp h rest); try assumption.
        -- cbn. cbn in Hn. lia.
        -- rewrite HL, int_wrap_id by lia. exact Hh.
Qed.

(** From a session with an empty queue that has last seen the sequence
    [b]: the [N] following sequence numbers, arriving in any order and
    interleaved with dequeues in any way, are dequeued in increasing
    order, each once. *)
Lemma dequeued_all_arrived b N sched cp :
  (N < kAutoFlushLength)%nat ->
  - 2 ^ 31 <= b -> b + Z.of_nat N < 2 ^ 31 ->
  inputQueue_ cp = [] -> lastInputSequence_ cp = b ->
  Permutation (map sequence (arrivals sched)) (sequence_numbers b N) ->
  Forall is_ordered (arrivals sched) ->
  map sequence (dequeued (sched ++ repeat Deq N) cp) = sequence_numbers b N /\
  Permutation (dequeued (sched ++ repeat Deq N) cp) (arrivals sched) /\
  inputQueue_ (snd (run_schedule (sched ++ repeat Deq N) cp)) = [].
Proof.
  intros Hthr Hmin Hmax Hq Hl HP Hord.
  assert (Hlen : List.length (arrivals sched) = N).
  { apply Permutation_length in HP.
    now rewrite length_map, sequence_numbers_length in HP. }
  assert (Hinv0 : seq_inv_from b cp [] []).
  { unfold seq_inv_from. cbn. rewrite Hq, Hl. repeat split; try constructor. lia. }
  assert (Hinv1 : seq_inv_from b (snd (run_schedule sched cp))
                    (dequeued sched cp) (arrivals sched)).
  { apply (dequeued_inv b N sched cp [] [] Hinv0); try assumption.
    - eapply Permutation_NoDup; [apply Permutation_sym; exact HP|].
      apply sequence_numbers_NoDup.
    - rewrite Forall_forall. intros i Hi.
      assert (Hs : In (sequence i) (sequence_numbers b N))
        by (eapply Permutation_in; [exact HP | now apply in_map]).
      apply sequence_numbers_In in Hs. lia.
    - cbn. lia. }
  destruct (dequeued_drain b N N _ _ _ Hinv1 Hord HP Hthr Hmin Hmax)
    as [Hinv2 Hempty].
  { destruct Hinv1 as (_ & HP1 & _). apply Permutation_length in HP1.
    rewrite length_app in HP1. lia. }
  rewrite dequeued_app.
  assert (Hsnd : snd (run_schedule (sched ++ repeat Deq N) cp) =
                 snd (run_schedule (repeat Deq N) (snd (run_schedule sched cp))))
    by now rewrite run_schedule_app.
  rewrite Hsnd.
  destruct Hinv2 as (HS & HP2 & HD & HL). rewrite Hempty, app_nil_r in HP2.
  split; [|split]; [|exact HP2|exact Hempty].
  rewrite HD. f_equal. apply Permutation_length in HP2. lia.
Qed.


Lemma enqueue_all_ordered l : forall cp,
  Forall is_ordered l ->
  Permutation (inputQueue_ (enqueue_all l cp)) (inputQueue_ cp ++ l) /\
  lastInputSequence_ (enqueue_all l cp) = lastInputSequence_ cp.
Proof.
  induction l as [|i l IH]; intros cp Hl; cbn.
  - now rewrite app_nil_r.
  - inversion Hl; subst. destruct (IH (enqueInput i cp)) as [HP HL]; [assumption|].
    unfold enqueue_all in *. rewrite HP, HL.
    rewrite enqueInput_ordered by assumption. cbn. split; [|reflexivity].
    rewrite insert_by_sequence_perm. apply Permutation_middle.
Qed.

(** C5: with the threshold at 40, a session that has delivered sequence
    1 and then receives 40 ordered items none of which is sequence 2
    does not stall: the next dequeue returns the head of the queue (not
    the empty result), marks every remaining item Unordered and leaves
    in [lastInputSequence_] the sequence of the last item of the
    queue. *)
Theorem autoflush_makes_progress (l : list Input) (cp : ConsoleProcess) :
  kAutoFlushLength = 40%nat ->
  inputQueue_ cp = [] -> lastInputSequence_ cp = 1 ->
  List.length l = 40%nat ->
  Forall (fun i => is_ordered i /\ sequence i <> 2 /\ Input_empty i = false) l ->
  let cp1 := enqueue_all l cp in
  exists h rest,
    inputQueue_ cp1 = h :: rest /\ In h l /\
    fst (dequeInput cp1) = set_sequence kIgnoreSequence h /\
    Input_empty (fst (dequeInput cp1)) = false /\
    inputQueue_ (snd (dequeInput cp1)) =
      map (set_sequence kIgnoreSequence) rest /\
    Forall (fun i => sequence i = kIgnoreSequence)
      (inputQueue_ (snd (dequeInput cp1))) /\
    lastInputSequence_ (snd (dequeInput cp1)) =
      List.last (map sequence (inputQueue_ cp1)) 1.
Proof.
  intros Hthr Hq Hl Hlen Hgood cp1.
  destruct (enqueue_all_ordered l cp) as [HP HL].
  { eapply Forall_impl; [|exact Hgood]. cbn. tauto. }
  fold cp1 in HP, HL. rewrite Hq in HP. cbn [app] in HP. rewrite Hl in HL.
  destruct (inputQueue_ cp1) as [|h rest] eqn:EQ.
  { apply Permutation_length in HP. cbn in HP. lia. }
  assert (Hh : In h l) by (eapply Permutation_in; [exact HP | now left]).
  rewrite Forall_forall in Hgood. destruct (Hgood h Hh) as (Ho & H2 & He).
  exists h, rest. rewrite (dequeInput_autoflush cp1 h rest); try assumption.
  - cbn [fst snd]. rewrite EQ, HL. cbn -[List.last map].
    repeat split; try assumption.
    rewrite Forall_forall. intros x Hx. apply in_map_iff in Hx as (y & <- & _).
    reflexivity.
  - rewrite HL. cbn. exact H2.
  - rewrite EQ, Hthr. apply Permutation_length in HP. rewrite HP, Hlen. lia.
Qed.

End SequencerClaims.

(** ** Frames *)

Ltac frame_tac := unfold frame; break_tests; repeat split; count_effects; auto.

Section Frames.
Context `{Constants} `{Collaborators}.

Lemma frame_refl cp : frame cp cp.
Proof. unfold frame; auto. Qed.

Lemma frame_trans cp1 cp2 cp3 : frame cp1 cp2 -> frame cp2 cp3 -> frame cp1 cp3.
Proof.
  unfold frame. intros (A1 & B1 & C1 & D1) (A2 & B2 & C2 & D2).
  repeat split; try congruence; auto.
Qed.

Lemma frame_enqueInput i cp : frame cp (enqueInput i cp).
Proof. unfold enqueInput. frame_tac. Qed.

Lemma frame_dequeInput cp : frame cp (snd (dequeInput cp)).
Proof.
  unfold dequeInput. destruct (inputQueue_ cp) as [|h rest]; [apply frame_refl|].
  rewrite autoflush_loop_spec. frame_tac.
Qed.

Lemma frame_process_input ops i cp : frame cp (process_input ops i cp).
Proof. unfold process_input, log_if_error, now. frame_tac. Qed.

Lemma frame_processQueuedInput_loop ops fuel : forall i cp cp',
  processQueuedInput_loop fuel ops i cp = Some cp' -> frame cp cp'.
Proof.
  induction fuel as [|fuel IH]; intros i cp cp'; cbn.
  - destruct (Input_empty i); [|discriminate]. intros [= <-]. apply frame_refl.
  - destruct (Input_empty i); [intros [= <-]; apply frame_refl|].
    destruct (dequeInput (process_input ops i cp)) as [next cp2] eqn:E.
    intros Hl. apply IH in Hl.
    eapply frame_trans; [apply (frame_process_input ops i)|].
    eapply frame_trans; [apply frame_dequeInput|]. now rewrite E.
Qed.

Lemma frame_processQueuedInput ops cp cp' :
  processQueuedInput ops cp = Some cp' -> frame cp cp'.
Proof.
  unfold processQueuedInput. destruct (dequeInput cp) as [i cp1] eqn:E.
  intros Hl. apply frame_processQueuedInput_loop in Hl.
  eapply frame_trans; [apply frame_dequeInput|]. now rewrite E.
Qed.

Lemma frame_enqueOutputEvent output cp : frame cp (enqueOutputEvent output cp).
Proof. unfold enqueOutputEvent. frame_tac. Qed.

Lemma frame_handleConsolePrompt ops prompt cp :
  frame cp (handleConsolePrompt ops prompt cp).
Proof.
  unfold handleConsolePrompt, enquePromptEvent, log_if_error, enqueInput.
  destruct (onPrompt_ cp) as [h|]; [destruct (h prompt Input_ctor) as [[|] input]|];
    frame_tac.
Qed.

Lemma frame_maybeConsolePrompt ops output cp :
  frame cp (maybeConsolePrompt ops output cp).
Proof.
  unfold maybeConsolePrompt.
  destruct (regex_search _ _); destruct (negb _);
    try apply frame_enqueOutputEvent; try apply frame_handleConsolePrompt;
    (eapply frame_trans; [apply frame_enqueOutputEvent|]);
    first [apply frame_enqueOutputEvent | apply frame_handleConsolePrompt].
Qed.

Lemma frame_onStdout ops output cp : frame cp (onStdout ops output cp).
Proof.
  unfold onStdout. destruct (smartTerminal_ cp); [apply frame_enqueOutputEvent|].
  destruct (ends_with_char _ _); [apply frame_enqueOutputEvent|].
  destruct (find_last_newline_or_formfeed _); [|apply frame_maybeConsolePrompt].
  eapply frame_trans; [apply frame_enqueOutputEvent | apply frame_maybeConsolePrompt].
Qed.

Lemma frame_onExit c cp : frame cp (onExit c cp).
Proof. unfold onExit. frame_tac. Qed.

Lemma frame_onHasSubprocs b cp : frame cp (onHasSubprocs b cp).
Proof. unfold onHasSubprocs. frame_tac. Qed.

Lemma frame_reportCwd cwd cp : frame cp (reportCwd cwd cp).
Proof. unfold reportCwd. frame_tac. Qed.

Lemma frame_setRpcMode cp : frame cp (setRpcMode cp).
Proof. unfold setRpcMode. frame_tac. Qed.

Lemma frame_setZombie cp : frame cp (setZombie cp).
Proof. unfold setZombie. frame_tac. Qed.

(** ** [processQueuedInput] returns *)

Lemma dequeInput_progress cp :
  (Input_empty (fst (dequeInput cp)) = true /\ snd (dequeInput cp) = cp) \/
  S (List.length (inputQueue_ (snd (dequeInput cp)))) =
  List.length (inputQueue_ cp).
Proof.
  unfold dequeInput. destruct (inputQueue_ cp) as [|h rest] eqn:E.
  - left. now split.
  - rewrite autoflush_loop_spec.
    destruct (_ || _); [right; reflexivity|].
    destruct (_ =? _); [right; reflexivity|].
    destruct (_ <=? _)%nat; [|left; now split].
    right. cbn. now rewrite length_map.
Qed.

Lemma process_input_queue ops i cp :
  inputQueue_ (process_input ops i cp) = inputQueue_ cp.
Proof. unfold process_input, log_if_error, now. now break_tests. Qed.

Lemma processQueuedInput_loop_total ops fuel : forall i cp,
  Input_empty i = true \/ (List.length (inputQueue_ cp) < fuel)%nat ->
  exists cp', processQueuedInput_loop fuel ops i cp = Some cp'.
Proof.
  induction fuel as [|fuel IH]; intros i cp Hf; cbn.
  - destruct Hf as [-> | Hf]; [eauto | lia].
  - destruct (Input_empty i) eqn:Ei; [eauto|].
    destruct Hf as [Hf|Hf]; [discriminate|].
    pose proof (dequeInput_progress (process_input ops i cp)) as Hp.
    destruct (dequeInput (process_input ops i cp)) as [next cp2]. cbn in Hp.
    apply IH. rewrite process_input_queue in Hp.
    destruct Hp as [[Hp _]|Hp]; [now left | right; lia].
Qed.

Lemma processQueuedInput_total ops cp :
  exists cp', processQueuedInput ops cp = Some cp'.
Proof.
  unfold processQueuedInput.
  pose proof (dequeInput_progress cp) as Hp.
  destruct (dequeInput cp) as [i cp1]. cbn in Hp.
  apply processQueuedInput_loop_total.
  destruct Hp as [[Hp _]|Hp]; [now left | right; lia].
Qed.

End Frames.

(** ** The sampling gates *)

Section SamplingFacts.
Context `{Constants} `{Collaborators}.

Lemma not_extended {A} (l : list A) x rest : l <> l ++ x :: rest.
Proof.
  intros E. apply (f_equal (@List.length A)) in E.
  rewrite length_app in E. cbn in E. lia.
Qed.

Lemma sample_attempted_iff ops cp :
  sample_attempted ops cp <-> sample_gates cp = true.
Proof.
  unfold sample_attempted, sample_gates, privateCommandLoop, now, reading.
  destruct (trackEnv_ (procInfo_ cp)); cbn;
    [|split; [intros [r E]; now apply not_extended in E | discriminate]].
  destruct (hasChildProcs_ (procInfo_ cp)); cbn;
    [split; [intros [r E]; now apply not_extended in E | discriminate]|].
  destruct (privateCommandLoop_ cp); cbn;
    [split; [intros [r E]; now apply not_extended in E | discriminate]|].
  destruct (pendingCommand_ cp); cbn;
    [split; [intros [r E]; now apply not_extended in E | discriminate]|].
  destruct (is_not_a_date_time (lastEnterTime_ cp)); cbn;
    [split; [intros [r E]; now apply not_extended in E | discriminate]|].
  destruct (ptime_le _ (lastEnterTime_ cp)); cbn;
    [split; [intros [r E]; now apply not_extended in E | discriminate]|].
  destruct (negb (is_not_a_date_time (lastPrivateCommand_ cp)) && ptime_le _ _); cbn;
    [split; [intros [r E]; now apply not_extended in E | discriminate]|].
  destruct (negb (is_not_a_date_time (lastPrivateCommand_ cp)) && ptime_gt _ _); cbn;
    [split; [intros [r E]; now apply not_extended in E | discriminate]|].
  split; [reflexivity|]. intros _.
  destruct (is_error _); cbn; eexists; rewrite <- ?app_assoc; reflexivity.
Qed.

Lemma gate_elapsed since d t :
  is_not_a_date_time since = false ->
  ptime_le (ptime_minus (time_point t) d) since = false ->
  elapsed since d t.
Proof.
  unfold ptime_le, elapsed. destruct since; cbn; try discriminate; auto.
  intros _ Hn. apply negb_false_iff, Z.ltb_lt in Hn. lia.
Qed.

Lemma sample_gates_claimed cp :
  sample_gates cp = true ->
  pendingCommand_ cp = false /\
  elapsed (lastEnterTime_ cp) kWaitForCommandDelay (reading cp) /\
  (lastPrivateCommand_ cp = not_a_date_time \/
   elapsed (lastPrivateCommand_ cp) kPrivateCommandDelay (reading cp) /\
   ptime_gt (lastPrivateCommand_ cp) (lastEnterTime_ cp) = false).
Proof.
  unfold sample_gates. rewrite !andb_true_iff, !negb_true_iff.
  intros (((((((_ & _) & _) & Hp) & He) & Hw) & Hd) & Hn).
  split; [exact Hp|]. split; [now apply gate_elapsed|].
  destruct (lastPrivateCommand_ cp) eqn:EL; [now left | right ..];
    cbn in Hd, Hn; (split; [apply gate_elapsed; [reflexivity | exact Hd] | exact Hn]).
Qed.

End SamplingFacts.

(** ** Launching and the life of a session *)

Section LifecycleFacts.
Context `{Constants} `{Collaborators}.

Lemma frame_sampling_disabled cp cp' :
  frame cp cp' -> sampling_disabled cp -> sampling_disabled cp'.
Proof.
  unfold frame, sampling_disabled. intros (_ & _ & HL & HF) [H1 H2].
  split; [congruence | auto].
Qed.

Lemma frame_launch_inv cp cp' : frame cp cp' -> launch_inv cp -> launch_inv cp'.
Proof.
  unfold frame, launch_inv. intros (HS & HL & _ & _) [H1 H2].
  rewrite HS, HL. auto.
Qed.

Lemma start_not_needed supervisor cp :
  started_ cp = true \/ zombie_ (procInfo_ cp) = true ->
  start supervisor cp = (Success, cp).
Proof.
  intros Hs. unfold start.
  replace (started_ cp || zombie_ (procInfo_ cp)) with true; [reflexivity|].
  symmetry. apply orb_true_iff. exact Hs.
Qed.

Lemma start_launching supervisor cp :
  started_ cp = false -> zombie_ (procInfo_ cp) = false ->
  exists call,
    is_supervisor_call call = true /\
    is_launch call = negb (is_error (supervisor_answer supervisor cp)) /\
    start supervisor cp =
    (supervisor_answer supervisor cp,
     if is_error (supervisor_answer supervisor cp) then emit call cp
     else set_started true (emit call cp)).
Proof.
  intros Hs Hz. unfold start, supervisor_answer. rewrite Hs, Hz. cbn [orb].
  destruct (negb (string_empty (command_ cp)));
    [|destruct (negb (string_empty (program_ cp)))];
    eexists; (split; [|split]);
    try (match goal with |- start _ _ = _ => idtac end);
    try (destruct (is_error _); reflexivity); reflexivity.
Qed.

Lemma start_sampling supervisor cp :
  lastPrivateCommand_ (snd (start supervisor cp)) = lastPrivateCommand_ cp /\
  privateCommandLoop_ (snd (start supervisor cp)) = privateCommandLoop_ cp.
Proof.
  destruct (started_ cp) eqn:Es; [now rewrite start_not_needed by auto|].
  destruct (zombie_ (procInfo_ cp)) eqn:Ez; [now rewrite start_not_needed by auto|].
  destruct (start_launching supervisor cp Es Ez) as (call & _ & _ & ->).
  cbn [snd]. destruct (is_error _); now split.
Qed.

Lemma start_launch_inv supervisor cp :
  launch_inv cp -> launch_inv (snd (start supervisor cp)).
Proof.
  intros Hinv. destruct (started_ cp) eqn:Es.
  { now rewrite start_not_needed by auto. }
  destruct (zombie_ (procInfo_ cp)) eqn:Ez.
  { now rewrite start_not_needed by auto. }
  destruct Hinv as [H1 H2]. specialize (H2 Es).
  destruct (start_launching supervisor cp Es Ez) as (call & _ & Hl & ->).
  unfold launch_inv, launches in *.
  destruct (is_error (supervisor_answer supervisor cp)); cbn in *;
    rewrite filter_app, length_app; cbn; rewrite Hl; cbn; split;
    try discriminate; lia.
Qed.

Lemma privateCommandLoop_launch ops cp :
  started_ (snd (privateCommandLoop ops cp)) = started_ cp /\
  launches (effects_ (snd (privateCommandLoop ops cp))) = launches (effects_ cp).
Proof.
  unfold privateCommandLoop, now.
  break_tests; split; count_effects; reflexivity.
Qed.

Lemma sampling_disabled_gates cp :
  sampling_disabled cp -> sample_gates cp = false.
Proof.
  intros [HL HF]. unfold sample_gates. rewrite HL, HF. cbn.
  now rewrite !andb_false_r.
Qed.

Lemma privateCommandLoop_disabled ops cp :
  sampling_disabled cp ->
  fst (privateCommandLoop ops cp) = false /\
  frame cp (snd (privateCommandLoop ops cp)) /\
  effects_ (snd (privateCommandLoop ops cp)) = effects_ cp.
Proof.
  intros [HL HF]. unfold privateCommandLoop, now, frame.
  break_tests; repeat split; auto;
    exfalso; rewrite ?HL, ?HF in *; cbn in *; congruence.
Qed.

(** [onContinue] is the handling of the child interrupt, then
    [privateCommandLoop], then steps that touch neither the launch nor
    the sampling state. *)
Lemma onContinue_decompose ops cp r cp' :
  onContinue ops cp = Some (r, cp') ->
  cp' = cp \/
  exists cp_a, frame cp cp_a /\ frame (snd (privateCommandLoop ops cp_a)) cp'.
Proof.
  unfold onContinue. destruct (interrupt_ cp); [intros [= _ <-]; now left|].
  intros Hc. right.
  match type of Hc with
  | context [privateCommandLoop ops ?a] => exists a
  end.
  split.
  { unfold log_if_error. frame_tac. }
  destruct (privateCommandLoop ops _) as [s cp_b]. cbn [snd].
  destruct s; [injection Hc as _ <-; apply frame_refl|].
  destruct (processQueuedInput ops cp_b) as [cp_c|] eqn:Eq; [|discriminate].
  apply frame_processQueuedInput in Eq. injection Hc as _ <-.
  eapply frame_trans; [exact Eq|]. frame_tac.
Qed.

Lemma onContinue_continues ops cp :
  interrupt_ cp = false -> exists cp', onContinue ops cp = Some (true, cp').
Proof.
  intros Hi. unfold onContinue. rewrite Hi.
  destruct (privateCommandLoop ops _) as [s cp_b].
  destruct s; [eauto|].
  destruct (processQueuedInput_total ops cp_b) as [cp_c ->]. eauto.
Qed.

Lemma step_frames cp cp' :
  step cp cp' ->
  (launch_inv cp -> launch_inv cp') /\
  (sampling_disabled cp -> sampling_disabled cp').
Proof.
  assert (F : forall a b, frame a b ->
    (launch_inv a -> launch_inv b) /\ (sampling_disabled a -> sampling_disabled b)).
  { intros a b Hf. split; [now apply frame_launch_inv | now apply frame_sampling_disabled]. }
  intros Hs. inversion Hs; subst.
  - split; [apply start_launch_inv|].
    destruct (start_sampling supervisor cp) as [E1 E2].
    unfold sampling_disabled. now rewrite E1, E2.
  - apply F, frame_enqueInput.
  - match goal with Hc : onContinue _ _ = _ |- _ =>
      apply onContinue_decompose in Hc as [->|(cp_a & Fa & Fb)] end; [tauto|].
    split.
    + intros Hl. eapply frame_launch_inv; [exact Fb|].
      destruct (privateCommandLoop_launch ops cp_a) as [E1 E2].
      apply (frame_launch_inv _ _ Fa) in Hl.
      unfold launch_inv in *. now rewrite E1, E2.
    + intros Hd. eapply frame_sampling_disabled; [exact Fb|].
      apply (frame_sampling_disabled _ _ Fa) in Hd.
      destruct (privateCommandLoop_disabled ops cp_a Hd) as (_ & Fp & _).
      now apply (frame_sampling_disabled _ _ Fp).
  - apply F. eapply frame_processQueuedInput; eassumption.
  - apply F, frame_onStdout.
  - apply F, frame_onExit.
  - apply F, frame_onHasSubprocs.
  - apply F, frame_reportCwd.
  - apply F. unfold ConsoleProcess_interrupt. frame_tac.
  - apply F. unfold interruptChild. frame_tac.
  - apply F. unfold resize. frame_tac.
  - apply F. unfold setPromptHandler. frame_tac.
  - apply F, frame_setRpcMode.
  - apply F, frame_setZombie.
Qed.

Lemma steps_frames cp cp' :
  steps cp cp' ->
  (launch_inv cp -> launch_inv cp') /\
  (sampling_disabled cp -> sampling_disabled cp').
Proof.
  induction 1 as [|cp1 cp2 cp3 Hs _ IH]; [tauto|].
  apply step_frames in Hs. tauto.
Qed.

End LifecycleFacts.

(** ** The remaining claims *)

Section Claims.
Context `{Constants} `{Collaborators}.

Lemma ends_with_char_nonempty c s :
  ends_with_char c s = true -> string_empty s = false.
Proof. now destruct s. Qed.

(** A single queued command that ends in a carriage return, once
    processed, leaves its submission time behind. *)
Lemma processQueuedInput_submits ops input cp :
  inputQueue_ cp = [input] -> sequence input = kIgnoreSequence ->
  interrupt input = false ->
  ends_with_char carriage_return (text input) = true ->
  exists cp1,
    processQueuedInput ops cp = Some cp1 /\
    lastEnterTime_ cp1 = time_point (reading cp) /\
    pendingCommand_ cp1 = false /\
    reading cp1 = clock_ cp (S (clockReads_ cp)) /\
    trackEnv_ (procInfo_ cp1) = trackEnv_ (procInfo_ cp) /\
    hasChildProcs_ (procInfo_ cp1) = hasChildProcs_ (procInfo_ cp) /\
    privateCommandLoop_ cp1 = privateCommandLoop_ cp /\
    lastPrivateCommand_ cp1 = lastPrivateCommand_ cp.
Proof.
  intros Hq Hs Hi He. pose proof (ends_with_char_nonempty _ _ He) as Hn.
  exists (process_input ops input (set_inputQueue [] cp)). split.
  - unfold processQueuedInput, dequeInput. rewrite Hq.
    apply Z.eqb_eq in Hs. rewrite Hs. cbn [orb List.length].
    cbn [processQueuedInput_loop]. unfold Input_empty at 1.
    rewrite Hi, Hn. cbn [negb andb].
    rewrite dequeInput_nil by (now rewrite process_input_queue).
    reflexivity.
  - unfold process_input. rewrite Hi, Hn, He. cbn [negb andb].
    unfold now, log_if_error, reading. break_tests; repeat split.
Qed.

Lemma gate_elapsed_more since d t :
  is_not_a_date_time since = false ->
  ptime_le (ptime_minus (time_point t) d) since = false ->
  elapsed_more since d t.
Proof.
  unfold ptime_le, elapsed_more. destruct since; cbn; try discriminate; auto.
  intros _ Hn. apply negb_false_iff, Z.ltb_lt in Hn. lia.
Qed.

Lemma sample_gates_idle cp :
  sample_gates cp = true ->
  elapsed_more (lastEnterTime_ cp) kWaitForCommandDelay (reading cp).
Proof.
  unfold sample_gates. rewrite !andb_true_iff, !negb_true_iff.
  intros (((((((_ & _) & _) & _) & He) & Hw) & _) & _).
  now apply gate_elapsed_more.
Qed.

(** C6 (amended): a private sample is attempted only when every
    debounce gate holds: no command pending, more than the idle interval
    since the last submitted command, and, when there was a sample before, at
    least the minimum interval since it and no sample after the last
    submitted command.  A command ending in a carriage return that is
    processed when the clock reads 0 blocks every sample while the clock
    reads 1.5 s or less; with the other preconditions met a sample is
    attempted once it reads more. *)
Theorem private_sample_debounce ops ops0 input cp cp0 :
  (sample_attempted ops cp ->
   pendingCommand_ cp = false /\
   elapsed_more (lastEnterTime_ cp) kWaitForCommandDelay (reading cp) /\
   (lastPrivateCommand_ cp = not_a_date_time \/
    elapsed (lastPrivateCommand_ cp) kPrivateCommandDelay (reading cp) /\
    ptime_gt (lastPrivateCommand_ cp) (lastEnterTime_ cp) = false)) /\
  (inputQueue_ cp0 = [input] -> sequence input = kIgnoreSequence ->
   interrupt input = false ->
   ends_with_char carriage_return (text input) = true ->
   reading cp0 = 0 ->
   exists cp1,
     processQueuedInput ops0 cp0 = Some cp1 /\
     lastEnterTime_ cp1 = time_point 0 /\
     (reading cp1 <= kWaitForCommandDelay -> ~ sample_attempted ops cp1) /\
     (kWaitForCommandDelay < reading cp1 ->
      trackEnv_ (procInfo_ cp0) = true ->
      hasChildProcs_ (procInfo_ cp0) = false ->
      privateCommandLoop_ cp0 = false ->
      lastPrivateCommand_ cp0 = not_a_date_time ->
      sample_attempted ops cp1)).
Proof.
  split.
  - intros Ha. apply sample_attempted_iff in Ha.
    destruct (sample_gates_claimed cp Ha) as (Hp & _ & Hs).
    split; [exact Hp|]. split; [now apply sample_gates_idle | exact Hs].
  - intros Hq Hs Hi He Hr.
    destruct (processQueuedInput_submits ops0 input cp0 Hq Hs Hi He)
      as (cp1 & Hp & HE & HP & _ & HT & HC & HF & HL).
    rewrite Hr in HE. exists cp1. split; [exact Hp|]. split; [exact HE|]. split.
    + intros Ht Ha. apply sample_attempted_iff, sample_gates_idle in Ha.
      rewrite HE in Ha. unfold elapsed_more, kWaitForCommandDelay in *. lia.
    + intros Ht Htr Hc Hf Hl. apply sample_attempted_iff.
      unfold sample_gates. rewrite HE, HP, HT, HC, HF, HL, Htr, Hc, Hf, Hl.
      unfold ptime_le. cbn.
      replace (0 <? reading cp1 - 1500000) with true; [reflexivity|].
      symmetry. apply Z.ltb_lt. unfold kWaitForCommandDelay in Ht. lia.
Qed.

(** C7: [start] on a started or zombie session answers success and
    does nothing; a failed launch hands back the supervisor's error and
    leaves the session un-started; after a call without error every
    further call answers success and does nothing; and in any run from
    a session that never launched at most one launch succeeds. *)
Theorem start_idempotent_atomic supervisor supervisor' cp cp' :
  (started_ cp = true \/ zombie_ (procInfo_ cp) = true ->
   start supervisor cp = (Success, cp)) /\
  (started_ cp = false -> zombie_ (procInfo_ cp) = false ->
   is_error (supervisor_answer supervisor cp) = true ->
   fst (start supervisor cp) = supervisor_answer supervisor cp /\
   started_ (snd (start supervisor cp)) = false /\
   launches (effects_ (snd (start supervisor cp))) = launches (effects_ cp)) /\
  (is_error (fst (start supervisor cp)) = false ->
   start supervisor' (snd (start supervisor cp)) =
     (Success, snd (start supervisor cp))) /\
  (started_ cp = false -> launches (effects_ cp) = 0%nat -> steps cp cp' ->
   (launches (effects_ cp') <= 1)%nat).
Proof.
  split; [apply start_not_needed|]. split; [|split].
  - intros Es Ez He.
    destruct (start_launching supervisor cp Es Ez) as (call & _ & Hl & ->).
    rewrite He in *. cbn. repeat split; [exact Es|].
    unfold launches. rewrite filter_app, length_app. cbn. rewrite Hl. cbn. lia.
  - intros He. apply start_not_needed.
    destruct (started_ cp) eqn:Es.
    { rewrite start_not_needed by auto. cbn. auto. }
    destruct (zombie_ (procInfo_ cp)) eqn:Ez.
    { rewrite start_not_needed by auto. cbn. auto. }
    destruct (start_launching supervisor cp Es Ez) as (call & _ & _ & Hst).
    rewrite Hst in *. cbn in He. rewrite He. cbn. now left.
  - intros Es El Hsteps. apply steps_frames in Hsteps as [Hinv _].
    apply Hinv. unfold launch_inv. rewrite El. split; [lia | reflexivity].
Qed.

(** C8: when the write of the capture command fails, the call logs the
    error, clears the in-progress flag and sets the time of the last
    sample to plus infinity; it emits nothing else (no client event); in
    no state the session reaches afterwards is a sample attempted; and
    the tick in which this happens continues. *)
Theorem sample_write_failure_disables_sampling ops ops' cp cp2 :
  sample_attempted ops cp ->
  is_error (writeToStdin ops (captureEnvironmentCommand_ cp) false) = true ->
  fst (privateCommandLoop ops cp) = false /\
  effects_ (snd (privateCommandLoop ops cp)) =
    effects_ cp ++
    [opsWriteToStdin (captureEnvironmentCommand_ cp);
     LOG_ERROR (writeToStdin ops (captureEnvironmentCommand_ cp) false)] /\
  privateCommandLoop_ (snd (privateCommandLoop ops cp)) = false /\
  lastPrivateCommand_ (snd (privateCommandLoop ops cp)) = pos_infin /\
  (steps (snd (privateCommandLoop ops cp)) cp2 -> ~ sample_attempted ops' cp2) /\
  (interrupt_ cp = false -> exists cp', onContinue ops cp = Some (true, cp')).
Proof.
  intros Ha He. apply sample_attempted_iff in Ha.
  assert (Hrun : privateCommandLoop ops cp =
    (false,
     set_lastPrivateCommand pos_infin
       (set_privateCommandLoop false
          (emit (LOG_ERROR (writeToStdin ops (captureEnvironmentCommand_ cp) false))
             (emit (opsWriteToStdin (captureEnvironmentCommand_ cp))
                (set_privateCommandLoop true
                   (set_lastPrivateCommand (time_point (reading cp))
                      (set_clockReads (S (clockReads_ cp)) cp)))))))).
  { revert Ha. unfold sample_gates, privateCommandLoop, now, reading.
    destruct (trackEnv_ (procInfo_ cp)), (hasChildProcs_ (procInfo_ cp)),
      (privateCommandLoop_ cp) eqn:Ep, (pendingCommand_ cp) eqn:Epc,
      (lastEnterTime_ cp) eqn:Ee, (lastPrivateCommand_ cp) eqn:El;
      cbn; rewrite ?Ep, ?Epc, ?Ee, ?El; cbn; try discriminate;
      unfold ptime_le, ptime_gt; cbn;
      repeat match goal with
             | |- context [?a <? ?b] => destruct (a <? b)
             end; cbn; try discriminate; intros _; now rewrite He. }
  rewrite Hrun. cbn [fst snd]. split; [reflexivity|].
  split; [cbn; now rewrite <- app_assoc|]. split; [reflexivity|].
  split; [reflexivity|]. split.
  - intros Hsteps Ha'. apply sample_attempted_iff in Ha'.
    apply steps_frames in Hsteps as [_ Hd].
    rewrite sampling_disabled_gates in Ha'; [discriminate|].
    apply Hd. now split.
  - apply onContinue_continues.
Qed.

(** C9: a [reportCwd] with a directory other than the stored one sets
    [childProcsSent_]; an [onHasSubprocs] with the stored child-process
    value that follows changes nothing and emits nothing, also when the
    session has never emitted a subprocs notification. *)
Theorem reportCwd_marks_subprocs_notified cwd cp :
  cwd_ (procInfo_ cp) <> cwd ->
  childProcsSent_ (reportCwd cwd cp) = true /\
  hasChildProcs_ (procInfo_ (reportCwd cwd cp)) = hasChildProcs_ (procInfo_ cp) /\
  onHasSubprocs (hasChildProcs_ (procInfo_ cp)) (reportCwd cwd cp) =
    reportCwd cwd cp /\
  (filter is_subprocs_event (effects_ cp) = [] ->
   filter is_subprocs_event
     (effects_ (onHasSubprocs (hasChildProcs_ (procInfo_ cp)) (reportCwd cwd cp)))
   = []).
Proof.
  intros Hc. apply String.eqb_neq in Hc.
  assert (Hr : reportCwd cwd cp =
    emit saveConsoleProcesses
      (set_childProcsSent true
         (emit (enqueClientEvent
                  (kTerminalCwd (handle cp) (createAliasedPath cwd)))
            (set_procInfo (setCwd cwd (procInfo_ cp)) cp)))).
  { unfold reportCwd. now rewrite Hc. }
  assert (Ho : onHasSubprocs (hasChildProcs_ (procInfo_ cp)) (reportCwd cwd cp) =
               reportCwd cwd cp).
  { rewrite Hr. unfold onHasSubprocs. cbn. now rewrite Bool.eqb_reflx. }
  rewrite Ho. rewrite Hr. cbn. repeat split.
  intros Hn. rewrite !filter_app, Hn. reflexivity.
Qed.

(** C10: the output event that arrives while a private sample is in
    progress clears the in-progress flag and is otherwise handled as any
    other output: appended to the scrollback and delivered on the
    session's channel. *)
Theorem output_during_sample_is_ordinary output cp :
  privateCommandLoop_ cp = true ->
  privateCommandLoop_ (enqueOutputEvent output cp) = false /\
  procInfo_ (enqueOutputEvent output cp) =
    appendToOutputBuffer output (procInfo_ cp) /\
  outputBuffer_ (procInfo_ (enqueOutputEvent output cp)) =
    (outputBuffer_ (procInfo_ cp) ++ output)%string /\
  (exists save,
     effects_ (enqueOutputEvent output cp) =
     effects_ cp ++ save ++ [output_delivery output cp] /\
     (save = [] \/ save = [saveConsoleProcesses])) /\
  enqueOutputEvent output cp =
    enqueOutputEvent output (set_privateCommandLoop false cp).
Proof.
  intros Hp. unfold enqueOutputEvent, output_delivery, handle. rewrite Hp. cbn.
  destruct (negb _); cbn; destruct (channelMode_ (procInfo_ cp)); cbn;
    (split; [reflexivity|]); (split; [reflexivity|]); (split; [reflexivity|]);
    (split; [|reflexivity]);
    first [ exists [saveConsoleProcesses];
            split; [now rewrite <- app_assoc | now right]
          | exists []; split; [reflexivity | now left] ].
Qed.

End Claims.

(** * The claims at sample values *)

Section AtSamples.

Import Samples.
Local Existing Instance constants.
Local Existing Instance collaborators.

Ltac in_list := cbn; repeat (try (left; reflexivity); right).
Ltac not_in_list H :=
  cbn in H; repeat (destruct H as [H|H]; [discriminate H|]); exact H.

Lemma maybeConsolePrompt_flushes_twice_witness :
  has_control_char foo_bs /\ ~ code_prompt_shape foo_bs /\
  flush_count (effects_ (maybeConsolePrompt ops_ok foo_bs fresh)) = 2%nat.
Proof.
  assert (Hc : has_control_char foo_bs) by (right; in_list).
  assert (Hs : ~ code_prompt_shape foo_bs).
  { intros Hs. apply promptPattern_match in Hs. vm_compute in Hs. discriminate Hs. }
  split; [exact Hc|]. split; [exact Hs|].
  exact (proj2 (maybeConsolePrompt_flushes_twice ops_ok foo_bs fresh Hc Hs)).
Defined.

Lemma maybeConsolePrompt_control_char_prompt_witness :
  has_control_char foo_cr_spaces /\ code_prompt_shape foo_cr_spaces /\
  effects_ (maybeConsolePrompt ops_ok foo_cr_spaces fresh) =
    [enqueClientEvent (kConsoleProcessOutput "h1" foo_cr_spaces);
     enqueClientEvent (kConsoleProcessPrompt "h1" foo_cr_spaces)].
Proof.
  assert (Hc : has_control_char foo_cr_spaces) by (left; in_list).
  assert (Hs : code_prompt_shape foo_cr_spaces)
    by (apply promptPattern_match; vm_compute; reflexivity).
  split; [exact Hc|]. split; [exact Hs|].
  exact (proj2 (maybeConsolePrompt_control_char_prompt ops_ok foo_cr_spaces
                  fresh Hc Hs) eq_refl).
Defined.

Lemma maybeConsolePrompt_backspace_prompt :
  effects_ (maybeConsolePrompt ops_ok foo_bs_spaces fresh) =
    [enqueClientEvent (kConsoleProcessOutput "h1" foo_bs_spaces);
     enqueClientEvent (kConsoleProcessPrompt "h1" foo_bs_spaces)].
Proof. vm_compute. reflexivity. Qed.

Lemma maybeConsolePrompt_prompt_iff_shape_witness :
  ~ has_control_char "user@host$  " /\
  treated_as_prompt ops_ok "user@host$  " fresh.
Proof.
  assert (Hc : ~ has_control_char "user@host$  ").
  { intros [Hc|Hc]; not_in_list Hc. }
  split; [exact Hc|].
  apply (proj1 (maybeConsolePrompt_prompt_iff_shape ops_ok "user@host$  " fresh Hc)).
  apply promptPattern_match. vm_compute. reflexivity.
Defined.

Lemma prompt_shape_counterexample :
  ~ has_control_char "$ " /\ spec_prompt_shape "$ " = true /\
  ~ treated_as_prompt ops_ok "$ " fresh /\
  flushed_as_output ops_ok "$ " fresh.
Proof.
  split; [intros [Hc|Hc]; not_in_list Hc|]. split; [reflexivity|].
  split; [|reflexivity].
  unfold treated_as_prompt. intros E.
  apply (f_equal (fun cp => flush_count (effects_ cp))) in E.
  vm_compute in E. discriminate E.
Qed.

Lemma autoflush_makes_progress_witness :
  inputQueue_ session_after_1 = [] /\ lastInputSequence_ session_after_1 = 1 /\
  fst (dequeInput (enqueue_all forty_items session_after_1)) = item (-1) /\
  lastInputSequence_ (snd (dequeInput (enqueue_all forty_items session_after_1)))
    = 42.
Proof.
  split; [reflexivity|]. split; [reflexivity|].
  destruct (autoflush_makes_progress forty_items session_after_1)
    as (h & rest & Hq & _ & Hr & _ & _ & _ & Hl).
  - reflexivity.
  - reflexivity.
  - reflexivity.
  - reflexivity.
  - unfold forty_items. apply Forall_forall. intros i Hi.
    apply in_map_iff in Hi as (n & <- & Hn). apply in_seq in Hn.
    unfold is_ordered. cbn. repeat split; try reflexivity; lia.
  - cbv zeta in Hr, Hl. rewrite Hr, Hl. split.
    + vm_compute in Hq. injection Hq as <- _. reflexivity.
    + vm_compute. reflexivity.
Defined.

Lemma start_idempotent_atomic_witness :
  fst (start supervisor_failing fresh) = Failure 2 "no such file" /\
  started_ (snd (start supervisor_failing fresh)) = false /\
  start supervisor_ok (snd (start supervisor_ok fresh)) =
    (Success, snd (start supervisor_ok fresh)) /\
  (launches
     (effects_ (snd (start supervisor_ok (snd (start supervisor_ok fresh)))))
   <= 1)%nat.
Proof.
  destruct (start_idempotent_atomic supervisor_failing supervisor_ok fresh fresh)
    as (_ & Hfail & _ & _).
  destruct (Hfail eq_refl eq_refl eq_refl) as (Herr & Hst & _).
  destruct (start_idempotent_atomic supervisor_ok supervisor_ok fresh
              (snd (start supervisor_ok (snd (start supervisor_ok fresh)))))
    as (_ & _ & Hagain & Honce).
  split; [exact Herr|]. split; [exact Hst|]. split; [exact (Hagain eq_refl)|].
  apply Honce; try reflexivity.
  eapply steps_step; [apply (step_start supervisor_ok)|].
  eapply steps_step; [apply (step_start supervisor_ok)|]. apply steps_refl.
Defined.

Lemma sample_write_failure_disables_sampling_witness :
  sample_attempted ops_broken after_command /\
  lastPrivateCommand_ (snd (privateCommandLoop ops_broken after_command)) =
    pos_infin /\
  ~ sample_attempted ops_ok
      (onStdout ops_ok "done"
         (snd (privateCommandLoop ops_broken after_command))).
Proof.
  assert (Ha : sample_attempted ops_broken after_command).
  { apply sample_attempted_iff. vm_compute. reflexivity. }
  destruct (sample_write_failure_disables_sampling ops_broken ops_ok
              after_command
              (onStdout ops_ok "done"
                 (snd (privateCommandLoop ops_broken after_command)))
              Ha eq_refl) as (_ & _ & _ & Hl & Hnever & _).
  split; [exact Ha|]. split; [exact Hl|].
  apply Hnever. eapply steps_step; [apply step_onStdout | apply steps_refl].
Defined.

Lemma reportCwd_marks_subprocs_notified_witness :
  childProcsSent_ fresh = false /\
  filter is_subprocs_event
    (effects_ (onHasSubprocs false (reportCwd "/tmp" fresh))) = [].
Proof.
  split; [reflexivity|].
  assert (Hc : cwd_ (procInfo_ fresh) <> "/tmp"%string) by discriminate.
  exact (proj2 (proj2 (proj2
           (reportCwd_marks_subprocs_notified "/tmp" fresh Hc))) eq_refl).
Defined.

Lemma output_during_sample_is_ordinary_witness :
  privateCommandLoop_ (snd (privateCommandLoop ops_ok after_command)) = true /\
  privateCommandLoop_
    (enqueOutputEvent "PATH=/bin"
       (snd (privateCommandLoop ops_ok after_command))) = false.
Proof.
  assert (Hp : privateCommandLoop_
                 (snd (privateCommandLoop ops_ok after_command)) = true)
    by reflexivity.
  split; [exact Hp|].
  exact (proj1 (output_during_sample_is_ordinary "PATH=/bin" _ Hp)).
Defined.

End AtSamples.

Section DebounceAtSamples.

Import Samples DebounceSamples.
Local Existing Instance constants.
Local Existing Instance collaborators.

(** C6 as stated fails in two places.  After a command that ends in a
    carriage return and is processed at 0, when the clock reads exactly
    1.5 s every gate of the claim holds (nothing pending, the idle
    interval has elapsed, no sample before) and no sample is attempted.
    A command that ends in a line feed is written to the process but is
    not a submission: no sample is attempted at 2 s. *)
Lemma private_sample_counterexample :
  (ends_with_char carriage_return (text command_line) = true /\
   reading (enqueInput command_line (session constants clock_0_then_1500ms))
     = 0 /\
   processQueuedInput ops_ok
     (enqueInput command_line (session constants clock_0_then_1500ms)) =
     Some at_idle_interval /\
   lastEnterTime_ at_idle_interval = time_point 0 /\
   reading at_idle_interval = kWaitForCommandDelay /\
   pendingCommand_ at_idle_interval = false /\
   elapsed (lastEnterTime_ at_idle_interval) kWaitForCommandDelay
           (reading at_idle_interval) /\
   lastPrivateCommand_ at_idle_interval = not_a_date_time /\
   trackEnv_ (procInfo_ at_idle_interval) = true /\
   hasChildProcs_ (procInfo_ at_idle_interval) = false /\
   privateCommandLoop_ at_idle_interval = false /\
   ~ sample_attempted ops_ok at_idle_interval) /\
  (ends_with_char newline (text line_feed_command) = true /\
   processQueuedInput ops_ok
     (enqueInput line_feed_command (session constants clock_2s)) =
     Some after_line_feed /\
   effects_ after_line_feed = [opsWriteToStdin (text line_feed_command)] /\
   reading after_line_feed = 2000000 /\
   trackEnv_ (procInfo_ after_line_feed) = true /\
   hasChildProcs_ (procInfo_ after_line_feed) = false /\
   privateCommandLoop_ after_line_feed = false /\
   lastPrivateCommand_ after_line_feed = not_a_date_time /\
   ~ sample_attempted ops_ok after_line_feed).
Proof.
  split.
  - repeat (split; [vm_compute; (reflexivity || (intros E; discriminate E)) |]).
    intros Ha. apply sample_attempted_iff in Ha. vm_compute in Ha.
    discriminate Ha.
  - repeat (split; [vm_compute; reflexivity |]).
    intros Ha. apply sample_attempted_iff in Ha. vm_compute in Ha.
    discriminate Ha.
Qed.

Lemma private_sample_debounce_witness :
  (sample_attempted ops_ok after_command /\
   pendingCommand_ after_command = false /\
   elapsed_more (lastEnterTime_ after_command) kWaitForCommandDelay
                (reading after_command)) /\
  (reading at_idle_interval <= kWaitForCommandDelay /\
   ~ sample_attempted ops_ok at_idle_interval).
Proof.
  split.
  - destruct (private_sample_debounce ops_ok ops_ok command_line after_command
                session_with_command) as [Hgates Hscenario].
    destruct Hscenario as (cp1 & Hp & _ & _ & Ha); try reflexivity.
    assert (E : cp1 = after_command).
    { unfold after_command. now rewrite Hp. }
    subst cp1.
    assert (Hatt : sample_attempted ops_ok after_command).
    { apply Ha; reflexivity. }
    split; [exact Hatt|]. destruct (Hgates Hatt) as (Hpend & Hel & _).
    split; assumption.
  - destruct (private_sample_debounce ops_ok ops_ok command_line fresh
                (enqueInput command_line (session constants clock_0_then_1500ms)))
      as [_ Hscenario].
    destruct Hscenario as (cp1 & Hp & _ & Hblocked & _); try reflexivity.
    assert (E : cp1 = at_idle_interval).
    { unfold at_idle_interval. now rewrite Hp. }
    subst cp1.
    assert (Hr : reading at_idle_interval <= kWaitForCommandDelay)
      by (vm_compute; discriminate).
    split; [exact Hr | exact (Hblocked Hr)].
Defined.

End DebounceAtSamples.

Section SequencerAtSamples.

Import Samples.
Local Existing Instance constants0.
Local Existing Instance collaborators.


End SequencerAtSamples.

(** * Further properties *)

(** ** More on the input sequencer *)

Section SequencerExtras.
Context `{Constants} `{Collaborators}.

Lemma dequeInput_unordered cp h rest :
  inputQueue_ cp = h :: rest -> is_unordered h ->
  dequeInput cp = (h, set_inputQueue rest cp).
Proof.
  intros E Hu. unfold dequeInput. rewrite E.
  replace ((sequence h =? kIgnoreSequence) || (sequence h =? kFlushSequence))
    with true; [reflexivity|].
  symmetry. apply orb_true_iff. destruct Hu as [Hu|Hu]; rewrite Hu, Z.eqb_refl; auto.
Qed.

Lemma drain_unordered q : forall cp,
  inputQueue_ cp = q -> Forall is_unordered q ->
  fst (run_schedule (repeat Deq (List.length q)) cp) = q /\
  inputQueue_ (snd (run_schedule (repeat Deq (List.length q)) cp)) = [] /\
  lastInputSequence_ (snd (run_schedule (repeat Deq (List.length q)) cp)) =
    lastInputSequence_ cp.
Proof.
  induction q as [|h rest IH]; intros cp Hq Hu; cbn [List.length repeat].
  - cbn. auto.
  - inversion Hu; subst. rewrite run_schedule_deq.
    rewrite (dequeInput_unordered cp h rest) by assumption. cbn [fst snd].
    destruct (IH (set_inputQueue rest cp)) as (A & B & C); [reflexivity|assumption|].
    rewrite A, B, C. auto.
Qed.

(** X1: a FlushBarrier item appended to any backlog marks the whole
    queue Unordered and resets the last seen sequence; dequeuing then
    returns every queued item, the barrier last, in queue order whatever
    gaps there were. *)
Theorem flush_barrier_drains_backlog input cp :
  kFlushSequence <> kIgnoreSequence ->
  sequence input = kFlushSequence ->
  let q := map (set_sequence kIgnoreSequence) (inputQueue_ cp ++ [input]) in
  let cp1 := enqueInput input cp in
  inputQueue_ cp1 = q /\
  lastInputSequence_ cp1 = kIgnoreSequence /\
  fst (run_schedule (repeat Deq (List.length q)) cp1) = q /\
  inputQueue_ (snd (run_schedule (repeat Deq (List.length q)) cp1)) = [].
Proof.
  intros Hne Hs q cp1.
  assert (E : cp1 = set_lastInputSequence kIgnoreSequence
                      (set_inputQueue q (set_inputQueue (inputQueue_ cp ++ [input]) cp))).
  { unfold cp1, enqueInput. rewrite Hs.
    apply Z.eqb_neq in Hne. rewrite Hne, Z.eqb_refl. reflexivity. }
  assert (Hq : inputQueue_ cp1 = q) by now rewrite E.
  split; [exact Hq|]. split; [now rewrite E|].
  destruct (drain_unordered q cp1 Hq) as (A & B & _); [|now split].
  unfold q. apply Forall_forall. intros x Hx.
  apply in_map_iff in Hx as (y & <- & _). now left.
Qed.

Lemma same_content_refl i : same_content i i.
Proof. now unfold same_content. Qed.

Lemma same_content_marked s i : same_content (set_sequence s i) i.
Proof. now unfold same_content. Qed.

Lemma Forall2_same_content_refl q : Forall2 same_content q q.
Proof. induction q; constructor; auto using same_content_refl. Qed.

Lemma Forall2_same_content_marked s q :
  Forall2 same_content (map (set_sequence s) q) q.
Proof. induction q; cbn; constructor; auto using same_content_marked. Qed.

(** X2: a dequeue either returns the empty result and leaves the session
    as it is, or removes the head of the queue and returns it: what it
    returns and what stays queued differ from the head and the tail of
    the queue at most in their sequence marks.  Nothing is lost,
    duplicated or reordered. *)
Theorem dequeInput_head_or_nothing cp :
  (fst (dequeInput cp) = Input_ctor /\ snd (dequeInput cp) = cp) \/
  (exists h rest,
     inputQueue_ cp = h :: rest /\
     same_content (fst (dequeInput cp)) h /\
     Forall2 same_content (inputQueue_ (snd (dequeInput cp))) rest).
Proof.
  unfold dequeInput. destruct (inputQueue_ cp) as [|h rest] eqn:E; [now left|].
  rewrite autoflush_loop_spec.
  destruct (_ || _).
  { right. exists h, rest. cbn.
    auto using same_content_refl, Forall2_same_content_refl. }
  destruct (_ =? _).
  { right. exists h, rest. cbn.
    auto using same_content_refl, Forall2_same_content_refl. }
  destruct (_ <=? _)%nat; [|now left].
  right. exists h, rest. cbn.
  auto using same_content_marked, Forall2_same_content_marked.
Qed.

(** X3: with an item queued, a dequeue leaves the queue as long as it was
    exactly when the head is an ordered item other than the one waited
    for and the queue is shorter than the auto-flush threshold; in every
    other case the queue gets shorter by one. *)
Theorem dequeInput_stalls_iff cp h rest :
  inputQueue_ cp = h :: rest ->
  (List.length (inputQueue_ (snd (dequeInput cp))) =
     List.length (inputQueue_ cp) <->
   is_ordered h /\ sequence h <> int_wrap (lastInputSequence_ cp + 1) /\
   (List.length (inputQueue_ cp) < kAutoFlushLength)%nat) /\
  (List.length (inputQueue_ (snd (dequeInput cp))) =
     List.length (inputQueue_ cp) \/
   S (List.length (inputQueue_ (snd (dequeInput cp)))) =
     List.length (inputQueue_ cp)).
Proof.
  intros E. unfold dequeInput, is_ordered. rewrite E, autoflush_loop_spec.
  destruct (sequence h =? kIgnoreSequence) eqn:Ei;
    [apply Z.eqb_eq in Ei | apply Z.eqb_neq in Ei].
  { cbn. split; [|now right]. split; [lia | tauto]. }
  destruct (sequence h =? kFlushSequence) eqn:Ef;
    [apply Z.eqb_eq in Ef | apply Z.eqb_neq in Ef].
  { cbn. split; [|now right]. split; [lia | tauto]. }
  cbn [orb].
  destruct (sequence h =? int_wrap (lastInputSequence_ cp + 1)) eqn:Es;
    [apply Z.eqb_eq in Es | apply Z.eqb_neq in Es].
  { cbn. split; [|now right]. split; [lia | tauto]. }
  destruct (kAutoFlushLength <=? List.length (h :: rest))%nat eqn:Et;
    [apply Nat.leb_le in Et | apply Nat.leb_gt in Et].
  - cbn [fst snd]. cbn. rewrite length_map. split; [|now right].
    split; [lia|]. cbn in Et. lia.
  - cbn [snd]. rewrite E. split; [|now left]. tauto.
Qed.

(** X4: [enqueInput] always queues exactly its item: the queue grows by
    one, and up to sequence marks its content is the old content plus
    the new item. *)
Theorem enqueInput_adds_exactly_one input cp :
  List.length (inputQueue_ (enqueInput input cp)) =
    S (List.length (inputQueue_ cp)) /\
  exists q, Permutation q (input :: inputQueue_ cp) /\
            Forall2 same_content (inputQueue_ (enqueInput input cp)) q.
Proof.
  unfold enqueInput.
  destruct (sequence input =? kIgnoreSequence); [|destruct (sequence input =? kFlushSequence)]; cbn.
  - split; [rewrite length_app; cbn; lia|].
    exists (inputQueue_ cp ++ [input]). split.
    + apply Permutation_sym, Permutation_cons_append.
    + apply Forall2_same_content_refl.
  - split; [rewrite length_map, length_app; cbn; lia|].
    exists (inputQueue_ cp ++ [input]). split.
    + apply Permutation_sym, Permutation_cons_append.
    + apply Forall2_same_content_marked.
  - split.
    + rewrite (Permutation_length (insert_by_sequence_perm input _)). reflexivity.
    + exists (insert_by_sequence input (inputQueue_ cp)). split.
      * apply insert_by_sequence_perm.
      * apply Forall2_same_content_refl.
Qed.

Lemma insert_by_sequence_position input q :
  exists before after,
    q = before ++ after /\
    insert_by_sequence input q = before ++ input :: after /\
    Forall (fun i => sequence i <= sequence input) before /\
    match after with
    | [] => True
    | a :: _ => sequence input < sequence a
    end.
Proof.
  induction q as [|it q IH]; cbn.
  - exists [], []. repeat split. constructor.
  - destruct (sequence input <? sequence it) eqn:E.
    + apply Z.ltb_lt in E. exists [], (it :: q). repeat split; [constructor | exact E].
    + apply Z.ltb_ge in E. destruct IH as (b & a & -> & -> & Hb & Ha).
      exists (it :: b), a. repeat split; [constructor; assumption | exact Ha].
Qed.

Lemma sorted_insert before input after :
  StronglySorted leseq (before ++ after) ->
  Forall (fun i => sequence i <= sequence input) before ->
  match after with [] => True | a :: _ => sequence input < sequence a end ->
  StronglySorted leseq (before ++ input :: after).
Proof.
  induction before as [|b before IH]; cbn; intros HS Hb Ha.
  - constructor; [exact HS|]. destruct after as [|a after]; [constructor|].
    apply StronglySorted_inv in HS as [_ HF]. constructor; [unfold leseq; lia|].
    eapply Forall_impl; [|exact HF]. unfold leseq. intros; lia.
  - apply StronglySorted_inv in HS as [HS HF]. inversion Hb; subst.
    constructor; [now apply IH|].
    apply Forall_app in HF as [F1 F2]. apply Forall_app. split; [exact F1|].
    constructor; [exact H3 | exact F2].
Qed.

(** X5: an ordered item is queued behind every item whose sequence is
    not larger than its own and directly in front of the first one with
    a larger sequence (so equal sequences keep their order of arrival);
    a queue that was in non-decreasing order stays so. *)
Theorem enqueInput_ordered_position input cp :
  is_ordered input ->
  (exists before after,
     inputQueue_ cp = before ++ after /\
     inputQueue_ (enqueInput input cp) = before ++ input :: after /\
     Forall (fun i => sequence i <= sequence input) before /\
     match after with
     | [] => True
     | a :: _ => sequence input < sequence a
     end) /\
  (StronglySorted leseq (inputQueue_ cp) ->
   StronglySorted leseq (inputQueue_ (enqueInput input cp))).
Proof.
  intros Ho. rewrite enqueInput_ordered by exact Ho. cbn.
  destruct (insert_by_sequence_position input (inputQueue_ cp))
    as (b & a & E & E' & Hb & Ha).
  split; [exists b, a; auto|].
  intros HS. rewrite E', E in *. now apply sorted_insert.
Qed.

(** X6: however many items are lost on the way, what the dequeues return
    from a fresh session is never out of order: as long as fewer items
    than the threshold arrive, with distinct sequence numbers above the
    initial one, the returned items are arrivals and carry the sequence
    numbers [kIgnoreSequence + 1, ..., kIgnoreSequence + d] in this
    order, for some [d]. *)
Theorem returned_is_consecutive_prefix N sched cp :
  (N < kAutoFlushLength)%nat ->
  - 2 ^ 31 <= kIgnoreSequence -> kIgnoreSequence + Z.of_nat N < 2 ^ 31 ->
  inputQueue_ cp = [] -> lastInputSequence_ cp = kIgnoreSequence ->
  NoDup (map sequence (arrivals sched)) ->
  Forall (fun i => is_ordered i /\ Input_empty i = false) (arrivals sched) ->
  Forall (fun i => kIgnoreSequence < sequence i) (arrivals sched) ->
  (List.length (arrivals sched) <= N)%nat ->
  exists d,
    map sequence (returned (fst (run_schedule sched cp))) =
      sequence_numbers kIgnoreSequence d /\
    incl (returned (fst (run_schedule sched cp))) (arrivals sched) /\
    lastInputSequence_ (snd (run_schedule sched cp)) =
      kIgnoreSequence + Z.of_nat d.
Proof.
  intros Hthr Hmin Hmax Hq Hl Hnd Hgood Hlo Hlen.
  assert (Hinv0 : seq_inv cp [] []).
  { unfold seq_inv. cbn. rewrite Hq, Hl. repeat split; try constructor. lia. }
  pose proof (run_schedule_inv N sched cp [] [] Hinv0 Hnd Hgood Hlo Hlen Hthr
                Hmin Hmax) as (_ & HP & HD & HL).
  cbn [app] in *. eexists. split; [exact HD|]. split; [|exact HL].
  intros x Hx. eapply Permutation_in; [exact HP|]. apply in_or_app. now left.
Qed.

End SequencerExtras.

(** ** More on queued input *)

Section QueuedInputExtras.
Context `{Constants} `{Collaborators}.

Lemma filter_requests_emit e cp :
  filter is_ops_request (effects_ (emit e cp)) =
  filter is_ops_request (effects_ cp) ++ (if is_ops_request e then [e] else []).
Proof. cbn. rewrite filter_app. cbn. now destruct (is_ops_request e). Qed.

Lemma process_input_requests ops i cp :
  filter is_ops_request (effects_ (process_input ops i cp)) =
  filter is_ops_request (effects_ cp) ++ [ops_request i].
Proof.
  unfold process_input, ops_request, log_if_error, now.
  break_tests; rewrite ?filter_app; cbn; rewrite ?app_nil_r, <- ?app_assoc;
    reflexivity.
Qed.

Lemma process_input_pending ops i cp :
  pendingCommand_ (process_input ops i cp) = negb (submits i).
Proof.
  unfold process_input, submits, log_if_error, now, ends_with_char.
  destruct (interrupt i); [now break_tests|]. cbn [negb andb].
  destruct (text i) as [|c s]; [now break_tests|]. cbn [string_empty negb andb].
  destruct (last_char (String c s)) as [d|]; [|now break_tests].
  destruct (Ascii.eqb d carriage_return); now break_tests.
Qed.

Lemma last_cons_default {A} (x : A) l a b : List.last (x :: l) a = List.last (x :: l) b.
Proof.
  revert x. induction l as [|y l IH]; intros x; [reflexivity|].
  change (List.last (y :: l) a = List.last (y :: l) b). apply IH.
Qed.

Lemma loop_drains ops q : forall i cp fuel,
  Input_empty i = false -> inputQueue_ cp = q ->
  Forall (fun j => is_unordered j /\ Input_empty j = false) q ->
  (List.length q < fuel)%nat ->
  exists cp',
    processQueuedInput_loop fuel ops i cp = Some cp' /\
    inputQueue_ cp' = [] /\
    filter is_ops_request (effects_ cp') =
      filter is_ops_request (effects_ cp) ++ map ops_request (i :: q) /\
    pendingCommand_ cp' = negb (submits (List.last q i)).
Proof.
  induction q as [|h rest IH]; intros i cp fuel Hi Hq Hall Hf;
    (destruct fuel as [|fuel]; [cbn in Hf; lia|]);
    cbn [processQueuedInput_loop]; rewrite Hi.
  - rewrite dequeInput_nil by (now rewrite process_input_queue).
    exists (process_input ops i cp).
    split; [now destruct fuel|].
    split; [now rewrite process_input_queue|].
    split; [apply process_input_requests | apply process_input_pending].
  - inversion Hall as [|? ? [Hu He] Hrest]; subst.
    rewrite (dequeInput_unordered _ h rest)
      by (try (rewrite process_input_queue); assumption).
    destruct (IH h (set_inputQueue rest (process_input ops i cp)) fuel)
      as (cp' & Hl & Hq' & Hr & Hp); try assumption; try reflexivity.
    { cbn in Hf. lia. }
    exists cp'. split; [exact Hl|]. split; [exact Hq'|]. split.
    + rewrite Hr. cbn [effects_ set_inputQueue map].
      rewrite process_input_requests, <- app_assoc. reflexivity.
    + rewrite Hp. destruct rest as [|r rest]; [reflexivity|].
      f_equal. f_equal. change (List.last (h :: r :: rest) i)
        with (List.last (r :: rest) i). apply last_cons_default.
Qed.

Lemma processQueuedInput_drains ops cp :
  Forall (fun j => is_unordered j /\ Input_empty j = false) (inputQueue_ cp) ->
  exists cp',
    processQueuedInput ops cp = Some cp' /\
    inputQueue_ cp' = [] /\
    filter is_ops_request (effects_ cp') =
      filter is_ops_request (effects_ cp) ++ map ops_request (inputQueue_ cp) /\
    (inputQueue_ cp <> [] ->
     forall l,
       pendingCommand_ cp' = negb (submits (List.last (inputQueue_ cp) l))).
Proof.
  intros Hall. unfold processQueuedInput.
  destruct (inputQueue_ cp) as [|h rest] eqn:Hq.
  - rewrite dequeInput_nil by exact Hq. exists cp. cbn.
    rewrite app_nil_r. repeat split; auto. congruence.
  - inversion Hall as [|? ? [Hu He] Hrest]; subst.
    rewrite (dequeInput_unordered cp h rest) by assumption.
    destruct (loop_drains ops rest h (set_inputQueue rest cp)
                (List.length (h :: rest))) as (cp' & Hl & Hq' & Hr & Hp);
      try assumption; try reflexivity.
    { cbn. lia. }
    exists cp'. split; [exact Hl|]. split; [exact Hq'|]. split; [exact Hr|].
    intros _ l. rewrite Hp. destruct rest as [|r rest]; [reflexivity|].
    f_equal. f_equal. change (List.last (h :: r :: rest) l)
      with (List.last (r :: rest) l). apply last_cons_default.
Qed.

(** X7: [processQueuedInput] on a queue of unordered items, each with
    text or an interrupt, empties the queue and asks the process for
    each of them in queue order (a write to stdin for text, a pty
    interrupt for an interrupt); afterwards a command counts as pending
    unless the last item was text ending in a carriage return. *)
Theorem processQueuedInput_drains_in_order ops cp :
  Forall (fun j => is_unordered j /\ Input_empty j = false) (inputQueue_ cp) ->
  exists cp',
    processQueuedInput ops cp = Some cp' /\
    inputQueue_ cp' = [] /\
    filter is_ops_request (effects_ cp') =
      filter is_ops_request (effects_ cp) ++ map ops_request (inputQueue_ cp) /\
    (inputQueue_ cp <> [] ->
     forall l,
       pendingCommand_ cp' = negb (submits (List.last (inputQueue_ cp) l))).
Proof. exact (processQueuedInput_drains ops cp). Qed.

(** X8: an unordered item without text that is no interrupt ends the
    processing of the queue where it stands: it is removed, nothing is
    written, and the items behind it stay queued. *)
Theorem empty_item_stops_processing ops i rest cp :
  inputQueue_ cp = i :: rest -> is_unordered i -> Input_empty i = true ->
  processQueuedInput ops cp = Some (set_inputQueue rest cp).
Proof.
  intros Hq Hu He. unfold processQueuedInput.
  rewrite (dequeInput_unordered cp i rest) by assumption. rewrite Hq.
  cbn [List.length processQueuedInput_loop]. now rewrite He.
Qed.

(** X9: the loop of [processQueuedInput] ends: the call returns a
    session, whose queue is no longer than before. *)
Theorem processQueuedInput_returns ops cp :
  exists cp',
    processQueuedInput ops cp = Some cp' /\
    (List.length (inputQueue_ cp') <= List.length (inputQueue_ cp))%nat.
Proof.
  destruct (processQueuedInput_total ops cp) as [cp' Hp].
  exists cp'. split; [exact Hp|].
  revert Hp. unfold processQueuedInput.
  pose proof (dequeInput_progress cp) as H0'.
  destruct (dequeInput cp) as [i cp1]. cbn in H0'.
  assert (Hle : (List.length (inputQueue_ cp1) <= List.length (inputQueue_ cp))%nat).
  { destruct H0' as [[_ ->]|E]; lia. }
  clear H0'. revert Hle. generalize (List.length (inputQueue_ cp)) at 2 as fuel.
  generalize (List.length (inputQueue_ cp)) as n.
  intros n fuel. revert i cp1. induction fuel as [|fuel IH]; intros i cp1 Hle; cbn.
  - destruct (Input_empty i); [|discriminate]. now intros [= <-].
  - destruct (Input_empty i); [now intros [= <-]|].
    pose proof (dequeInput_progress (process_input ops i cp1)) as Hp.
    destruct (dequeInput (process_input ops i cp1)) as [next cp2]. cbn in Hp.
    rewrite process_input_queue in Hp. apply IH.
    destruct Hp as [[_ ->]|E]; [rewrite process_input_queue|]; lia.
Qed.

(** X10: input received from the websocket.  When the process operations
    are gone, or while a private sample is in progress, it is only
    queued.  Otherwise, on a queue of unordered items with content (the
    received one included), everything queued is handed to the process
    at once, the received text last. *)
Theorem onReceivedInput_delivers input_of_text ops input cp :
  sequence (input_of_text input) = kIgnoreSequence ->
  (onReceivedInput input_of_text None input cp =
     Some (set_inputQueue (inputQueue_ cp ++ [input_of_text input]) cp)) /\
  (privateCommandLoop_ cp = true ->
   onReceivedInput input_of_text (Some ops) input cp =
     Some (set_inputQueue (inputQueue_ cp ++ [input_of_text input]) cp)) /\
  (privateCommandLoop_ cp = false ->
   Forall (fun j => is_unordered j /\ Input_empty j = false)
          (inputQueue_ cp ++ [input_of_text input]) ->
   exists cp',
     onReceivedInput input_of_text (Some ops) input cp = Some cp' /\
     inputQueue_ cp' = [] /\
     filter is_ops_request (effects_ cp') =
       filter is_ops_request (effects_ cp) ++
       map ops_request (inputQueue_ cp) ++ [ops_request (input_of_text input)]).
Proof.
  intros Hs.
  assert (E : enqueInput (input_of_text input) cp =
              set_inputQueue (inputQueue_ cp ++ [input_of_text input]) cp).
  { unfold enqueInput. now rewrite Hs, Z.eqb_refl. }
  unfold onReceivedInput. rewrite E. cbn [privateCommandLoop_ set_inputQueue].
  split; [reflexivity|]. split; [now intros ->|].
  intros -> Hall. cbn [negb].
  destruct (processQueuedInput_drains ops
              (set_inputQueue (inputQueue_ cp ++ [input_of_text input]) cp))
    as (cp' & Hp & Hq & Hr & _); [exact Hall|].
  exists cp'. split; [exact Hp|]. split; [exact Hq|].
  rewrite Hr. cbn. now rewrite map_app.
Qed.

End QueuedInputExtras.

(** ** What stays as it is *)

Ltac sticky_tac :=
  unfold sticky; break_tests; repeat split; auto; try congruence.

Section LifecycleExtras.
Context `{Constants} `{Collaborators}.

Lemma sticky_refl cp : sticky cp cp.
Proof. unfold sticky. auto 10. Qed.

Lemma sticky_trans cp1 cp2 cp3 : sticky cp1 cp2 -> sticky cp2 cp3 -> sticky cp1 cp3.
Proof.
  unfold sticky. intros (A1 & B1 & C1 & D1 & E1 & F1) (A2 & B2 & C2 & D2 & E2 & F2).
  repeat split; auto; congruence.
Qed.

Lemma sticky_start supervisor cp : sticky cp (snd (start supervisor cp)).
Proof.
  destruct (started_ cp) eqn:Es;
    [rewrite start_not_needed by auto; apply sticky_refl|].
  destruct (zombie_ (procInfo_ cp)) eqn:Ez;
    [rewrite start_not_needed by auto; apply sticky_refl|].
  destruct (start_launching supervisor cp Es Ez) as (call & _ & _ & ->).
  cbn [snd]. destruct (is_error _); unfold sticky; cbn; repeat split; auto;
    congruence.
Qed.

Lemma sticky_enqueInput i cp : sticky cp (enqueInput i cp).
Proof. unfold enqueInput. sticky_tac. Qed.

Lemma sticky_dequeInput cp : sticky cp (snd (dequeInput cp)).
Proof.
  unfold dequeInput. destruct (inputQueue_ cp) as [|h rest]; [apply sticky_refl|].
  rewrite autoflush_loop_spec. sticky_tac.
Qed.

Lemma sticky_process_input ops i cp : sticky cp (process_input ops i cp).
Proof. unfold process_input, log_if_error, now. sticky_tac. Qed.

Lemma sticky_processQueuedInput_loop ops fuel : forall i cp cp',
  processQueuedInput_loop fuel ops i cp = Some cp' -> sticky cp cp'.
Proof.
  induction fuel as [|fuel IH]; intros i cp cp'; cbn.
  - destruct (Input_empty i); [|discriminate]. intros [= <-]. apply sticky_refl.
  - destruct (Input_empty i); [intros [= <-]; apply sticky_refl|].
    destruct (dequeInput (process_input ops i cp)) as [next cp2] eqn:E.
    intros Hl. apply IH in Hl.
    eapply sticky_trans; [apply (sticky_process_input ops i)|].
    eapply sticky_trans; [apply sticky_dequeInput|]. now rewrite E.
Qed.

Lemma sticky_processQueuedInput ops cp cp' :
  processQueuedInput ops cp = Some cp' -> sticky cp cp'.
Proof.
  unfold processQueuedInput. destruct (dequeInput cp) as [i cp1] eqn:E.
  intros Hl. apply sticky_processQueuedInput_loop in Hl.
  eapply sticky_trans; [apply sticky_dequeInput|]. now rewrite E.
Qed.

Lemma sticky_privateCommandLoop ops cp : sticky cp (snd (privateCommandLoop ops cp)).
Proof. unfold privateCommandLoop, now. sticky_tac. Qed.

Lemma sticky_onContinue ops cp r cp' :
  onContinue ops cp = Some (r, cp') -> sticky cp cp'.
Proof.
  unfold onContinue. destruct (interrupt_ cp); [intros [= _ <-]; apply sticky_refl|].
  intros Hc.
  match type of Hc with
  | context [privateCommandLoop ops ?a] =>
      assert (Ha : sticky cp a) by (unfold log_if_error; sticky_tac);
      pose proof (sticky_privateCommandLoop ops a) as Hb;
      destruct (privateCommandLoop ops a) as [s cp_b]
  end.
  cbn [snd] in Hb. pose proof (sticky_trans _ _ _ Ha Hb) as Hab.
  destruct s; [injection Hc as _ <-; exact Hab|].
  destruct (processQueuedInput ops cp_b) as [cp_c|] eqn:Eq; [|discriminate].
  apply sticky_processQueuedInput in Eq. injection Hc as _ <-.
  eapply sticky_trans; [exact Hab|]. eapply sticky_trans; [exact Eq|].
  sticky_tac.
Qed.

Lemma sticky_enqueOutputEvent output cp : sticky cp (enqueOutputEvent output cp).
Proof. unfold enqueOutputEvent. sticky_tac. Qed.

Lemma sticky_handleConsolePrompt ops prompt cp :
  sticky cp (handleConsolePrompt ops prompt cp).
Proof.
  unfold handleConsolePrompt, enquePromptEvent, log_if_error, enqueInput.
  destruct (onPrompt_ cp) as [h|]; [destruct (h prompt Input_ctor) as [[|] input]|];
    sticky_tac.
Qed.

Lemma sticky_maybeConsolePrompt ops output cp :
  sticky cp (maybeConsolePrompt ops output cp).
Proof.
  unfold maybeConsolePrompt.
  destruct (regex_search _ _); destruct (negb _);
    try apply sticky_enqueOutputEvent; try apply sticky_handleConsolePrompt;
    (eapply sticky_trans; [apply sticky_enqueOutputEvent|]);
    first [apply sticky_enqueOutputEvent | apply sticky_handleConsolePrompt].
Qed.

Lemma sticky_onStdout ops output cp : sticky cp (onStdout ops output cp).
Proof.
  unfold onStdout. destruct (smartTerminal_ cp); [apply sticky_enqueOutputEvent|].
  destruct (ends_with_char _ _); [apply sticky_enqueOutputEvent|].
  destruct (find_last_newline_or_formfeed _); [|apply sticky_maybeConsolePrompt].
  eapply sticky_trans; [apply sticky_enqueOutputEvent | apply sticky_maybeConsolePrompt].
Qed.

Lemma step_sticky cp cp' : step cp cp' -> sticky cp cp'.
Proof.
  intros Hs. inversion Hs; subst.
  - apply sticky_start.
  - apply sticky_enqueInput.
  - eapply sticky_onContinue; eassumption.
  - eapply sticky_processQueuedInput; eassumption.
  - apply sticky_onStdout.
  - unfold onExit. sticky_tac.
  - unfold onHasSubprocs. sticky_tac.
  - unfold reportCwd. sticky_tac.
  - unfold ConsoleProcess_interrupt. sticky_tac.
  - unfold interruptChild. sticky_tac.
  - unfold resize. sticky_tac.
  - unfold setPromptHandler. sticky_tac.
  - unfold setRpcMode. sticky_tac.
  - unfold setZombie. sticky_tac.
Qed.

(** X11: whatever member functions are called, in whatever order, a
    started session stays started, a zombie stays a zombie, a session on
    the poll channel never goes (back) to the websocket channel, captured
    process operations stay captured, and the handle never changes. *)
Theorem lifecycle_flags_are_sticky cp cp' :
  steps cp cp' ->
  (started_ cp = true -> started_ cp' = true) /\
  (zombie_ (procInfo_ cp) = true -> zombie_ (procInfo_ cp') = true) /\
  (channelMode_ (procInfo_ cp) = Rpc -> channelMode_ (procInfo_ cp') = Rpc) /\
  (haveProcOps_ cp = true -> haveProcOps_ cp' = true) /\
  handle_ (procInfo_ cp') = handle_ (procInfo_ cp).
Proof.
  intros Hs.
  assert (St : sticky cp cp').
  { induction Hs as [|cp1 cp2 cp3 H1 _ IH]; [apply sticky_refl|].
    eapply sticky_trans; [apply step_sticky; exact H1 | exact IH]. }
  unfold sticky in St. tauto.
Qed.

Lemma step_launches_unless_start cp cp' :
  step cp cp' ->
  started_ cp = true \/ zombie_ (procInfo_ cp) = true ->
  launches (effects_ cp') = launches (effects_ cp).
Proof.
  intros Hs Hz. inversion Hs; subst;
    try (match goal with
         | |- launches (effects_ ?c) = _ =>
             first [ apply frame_enqueInput | apply frame_onStdout
                   | apply frame_onExit | apply frame_onHasSubprocs
                   | apply frame_reportCwd | apply frame_setRpcMode
                   | apply frame_setZombie ]
         end).
  - now rewrite start_not_needed.
  - match goal with Hc : onContinue _ _ = _ |- _ =>
      apply onContinue_decompose in Hc as [->|(cp_a & Fa & Fb)] end;
      [reflexivity|].
    destruct Fa as (_ & La & _). destruct Fb as (_ & Lb & _).
    rewrite Lb, (proj2 (privateCommandLoop_launch ops cp_a)). exact La.
  - match goal with Hc : processQueuedInput _ _ = _ |- _ =>
      apply frame_processQueuedInput in Hc; apply Hc end.
  - unfold ConsoleProcess_interrupt. reflexivity.
  - reflexivity.
  - reflexivity.
  - reflexivity.
Qed.

(** X12: a zombie session never launches a process: from a session
    marked zombie no sequence of member-function calls, [start]
    included, leads to a further successful launch. *)
Theorem zombie_never_launches cp cp' :
  zombie_ (procInfo_ cp) = true -> steps cp cp' ->
  launches (effects_ cp') = launches (effects_ cp) /\
  zombie_ (procInfo_ cp') = true.
Proof.
  intros Hz Hs. induction Hs as [|cp1 cp2 cp3 H1 _ IH]; [auto|].
  pose proof (step_sticky _ _ H1) as (_ & Z & _).
  destruct (IH (Z Hz)) as [L Z3]. split; [|exact Z3].
  rewrite L. apply step_launches_unless_start; auto.
Qed.

End LifecycleExtras.

(** ** Notifications, sampling and ticks *)

Section NotificationExtras.
Context `{Constants} `{Collaborators}.

(** X13: [onHasSubprocs b] leaves [b] stored and the notification
    marked as sent; it emits one subprocs notification when [b] differs
    from the stored value or none was sent before, and nothing
    otherwise; repeating the call changes nothing. *)
Theorem onHasSubprocs_notifies_on_change b cp :
  hasChildProcs_ (procInfo_ (onHasSubprocs b cp)) = b /\
  childProcsSent_ (onHasSubprocs b cp) = true /\
  effects_ (onHasSubprocs b cp) =
    effects_ cp ++
    (if negb (Bool.eqb b (hasChildProcs_ (procInfo_ cp)))
        || negb (childProcsSent_ cp)
     then [enqueClientEvent (kTerminalSubprocs (handle cp) b)] else []) /\
  onHasSubprocs b (onHasSubprocs b cp) = onHasSubprocs b cp.
Proof.
  assert (Hstored : hasChildProcs_ (procInfo_ (onHasSubprocs b cp)) = b).
  { unfold onHasSubprocs.
    destruct (Bool.eqb b (hasChildProcs_ (procInfo_ cp))) eqn:E; cbn.
    - apply Bool.eqb_prop in E. now destruct (childProcsSent_ cp).
    - reflexivity. }
  assert (Hsent : childProcsSent_ (onHasSubprocs b cp) = true).
  { unfold onHasSubprocs.
    destruct (Bool.eqb b (hasChildProcs_ (procInfo_ cp))); cbn;
      [destruct (childProcsSent_ cp) eqn:E|]; cbn; auto. }
  split; [exact Hstored|]. split; [exact Hsent|]. split.
  - unfold onHasSubprocs, handle.
    destruct (_ || _); cbn; [reflexivity | now rewrite app_nil_r].
  - unfold onHasSubprocs at 1. rewrite Hstored, Hsent, Bool.eqb_reflx.
    reflexivity.
Qed.

(** X14: [reportCwd] leaves the reported directory stored; a report of
    the directory already stored changes nothing and emits nothing, so
    repeating a report has no further effect. *)
Theorem reportCwd_only_on_change cwd cp :
  cwd_ (procInfo_ (reportCwd cwd cp)) = cwd /\
  (cwd_ (procInfo_ cp) = cwd -> reportCwd cwd cp = cp) /\
  reportCwd cwd (reportCwd cwd cp) = reportCwd cwd cp.
Proof.
  assert (Hstored : cwd_ (procInfo_ (reportCwd cwd cp)) = cwd).
  { unfold reportCwd. destruct (String.eqb (cwd_ (procInfo_ cp)) cwd) eqn:E; cbn.
    - now apply String.eqb_eq in E.
    - reflexivity. }
  assert (Hsame : forall c, cwd_ (procInfo_ c) = cwd -> reportCwd cwd c = c).
  { intros c Hc. unfold reportCwd. now rewrite Hc, String.eqb_refl. }
  split; [exact Hstored|]. split; [apply Hsame|]. now apply Hsame.
Qed.

(** X15: with the last submission at the time [e], a sample is attempted
    exactly when the environment is tracked, the shell has no child
    processes, no sample is in progress, no command is pending, the
    clock reads more than [e] plus 1.5 s and, when there was a sample
    before at [p], also more than [p] plus 3 s with [p] not after [e].
    Both bounds are strict; once sampling is disabled the answer is
    never. *)
Theorem sample_attempted_exactly_when ops cp e :
  lastEnterTime_ cp = time_point e ->
  (sample_attempted ops cp <->
   trackEnv_ (procInfo_ cp) = true /\
   hasChildProcs_ (procInfo_ cp) = false /\
   privateCommandLoop_ cp = false /\
   pendingCommand_ cp = false /\
   e + kWaitForCommandDelay < reading cp /\
   match lastPrivateCommand_ cp with
   | not_a_date_time | neg_infin => True
   | time_point p => p + kPrivateCommandDelay < reading cp /\ p <= e
   | pos_infin => False
   end).
Proof.
  intros He. rewrite sample_attempted_iff. unfold sample_gates.
  rewrite He, !andb_true_iff, !negb_true_iff.
  unfold ptime_le, ptime_gt, kWaitForCommandDelay, kPrivateCommandDelay.
  destruct (lastPrivateCommand_ cp); cbn;
    rewrite ?negb_false_iff, ?Z.ltb_lt, ?Z.ltb_ge, ?andb_false_iff,
            ?negb_true_iff, ?negb_false_iff, ?Z.ltb_lt, ?Z.ltb_ge;
    intuition (try lia; try discriminate).
Qed.

Lemma enqueOutputEvent_sampling_fields output cp :
  lastPrivateCommand_ (enqueOutputEvent output cp) = lastPrivateCommand_ cp /\
  lastEnterTime_ (enqueOutputEvent output cp) = lastEnterTime_ cp.
Proof. unfold enqueOutputEvent. now break_tests. Qed.

(** X16: a sample whose write succeeds is in progress afterwards, and
    no second one follows it: neither while it is in progress nor after
    its output has arrived is another sample attempted, until a command
    is submitted again. *)
Theorem one_sample_per_command ops ops' output cp :
  sample_attempted ops cp ->
  is_error (writeToStdin ops (captureEnvironmentCommand_ cp) false) = false ->
  fst (privateCommandLoop ops cp) = true /\
  privateCommandLoop_ (snd (privateCommandLoop ops cp)) = true /\
  lastPrivateCommand_ (snd (privateCommandLoop ops cp)) =
    time_point (reading cp) /\
  ~ sample_attempted ops' (snd (privateCommandLoop ops cp)) /\
  ~ sample_attempted ops'
      (enqueOutputEvent output (snd (privateCommandLoop ops cp))).
Proof.
  intros Ha He. apply sample_attempted_iff in Ha.
  assert (Hrun : privateCommandLoop ops cp =
    (true,
     emit (opsWriteToStdin (captureEnvironmentCommand_ cp))
       (set_privateCommandLoop true
          (set_lastPrivateCommand (time_point (reading cp))
             (set_clockReads (S (clockReads_ cp)) cp))))).
  { revert Ha. unfold sample_gates, privateCommandLoop, now, reading.
    destruct (trackEnv_ (procInfo_ cp)), (hasChildProcs_ (procInfo_ cp)),
      (privateCommandLoop_ cp) eqn:Ep, (pendingCommand_ cp) eqn:Epc,
      (lastEnterTime_ cp) eqn:Ee, (lastPrivateCommand_ cp) eqn:El;
      cbn; rewrite ?Ep, ?Epc, ?Ee, ?El; cbn; try discriminate;
      unfold ptime_le, ptime_gt; cbn;
      repeat match goal with
             | |- context [?a <? ?b] => destruct (a <? b)
             end; cbn; try discriminate; intros _; now rewrite He. }
  rewrite Hrun. cbn [fst snd]. split; [reflexivity|]. split; [reflexivity|].
  split; [reflexivity|]. split.
  - rewrite sample_attempted_iff. unfold sample_gates. cbn.
    rewrite !andb_false_r. cbn. discriminate.
  - rewrite sample_attempted_iff. unfold sample_gates.
    destruct (enqueOutputEvent_sampling_fields output
                (emit (opsWriteToStdin (captureEnvironmentCommand_ cp))
                   (set_privateCommandLoop true
                      (set_lastPrivateCommand (time_point (reading cp))
                         (set_clockReads (S (clockReads_ cp)) cp)))))
      as [-> ->].
    cbn [lastPrivateCommand_ lastEnterTime_ emit set_effects
         set_privateCommandLoop set_lastPrivateCommand set_clockReads].
    unfold sample_gates in Ha.
    apply andb_prop in Ha as [Ha _]. apply andb_prop in Ha as [Ha _].
    apply andb_prop in Ha as [Ha Hidle]. apply andb_prop in Ha as [_ Hnadt].
    assert (Hgt : ptime_gt (time_point (reading cp)) (lastEnterTime_ cp) = true).
    { revert Hidle Hnadt. unfold ptime_le, ptime_gt, kWaitForCommandDelay.
      destruct (lastEnterTime_ cp); cbn; try discriminate; auto.
      rewrite negb_involutive, !Z.ltb_lt. lia. }
    rewrite Hgt. cbn. rewrite andb_false_r. discriminate.
Qed.

(** X17: while a sample is in progress on a session that tracks its
    environment and has no child processes, a tick does nothing but read
    the clock: queued input is not written, a pending resize is not
    applied and the pid is not refreshed. *)
Theorem tick_waits_for_sample ops cp :
  interrupt_ cp = false -> interruptChild_ cp = false ->
  trackEnv_ (procInfo_ cp) = true -> hasChildProcs_ (procInfo_ cp) = false ->
  privateCommandLoop_ cp = true ->
  onContinue ops cp = Some (true, set_clockReads (S (clockReads_ cp)) cp).
Proof.
  intros Hi Hc Ht Hh Hp. unfold onContinue, privateCommandLoop, now.
  rewrite Hi, Hc, Ht, Hh. cbn. now rewrite Hp.
Qed.

End NotificationExtras.

(** ** Resizing and the splitting of output *)

Ltac geometry_tac :=
  unfold geometry_kept; break_tests; repeat split; auto;
  rewrite ?filter_app; cbn; rewrite ?app_nil_r; auto.

Section TickExtras.
Context `{Constants} `{Collaborators}.

Lemma geometry_refl cp : geometry_kept cp cp.
Proof. unfold geometry_kept. auto 10. Qed.

Lemma geometry_trans cp1 cp2 cp3 :
  geometry_kept cp1 cp2 -> geometry_kept cp2 cp3 -> geometry_kept cp1 cp3.
Proof.
  unfold geometry_kept.
  intros (A1 & B1 & C1 & D1 & E1 & F1 & G1) (A2 & B2 & C2 & D2 & E2 & F2 & G2).
  repeat split; congruence.
Qed.

Lemma geometry_dequeInput cp : geometry_kept cp (snd (dequeInput cp)).
Proof.
  unfold dequeInput. destruct (inputQueue_ cp) as [|h rest]; [apply geometry_refl|].
  rewrite autoflush_loop_spec. geometry_tac.
Qed.

Lemma geometry_process_input ops i cp : geometry_kept cp (process_input ops i cp).
Proof. unfold process_input, log_if_error, now. geometry_tac. Qed.

Lemma geometry_processQueuedInput_loop ops fuel : forall i cp cp',
  processQueuedInput_loop fuel ops i cp = Some cp' -> geometry_kept cp cp'.
Proof.
  induction fuel as [|fuel IH]; intros i cp cp'; cbn.
  - destruct (Input_empty i); [|discriminate]. intros [= <-]. apply geometry_refl.
  - destruct (Input_empty i); [intros [= <-]; apply geometry_refl|].
    destruct (dequeInput (process_input ops i cp)) as [next cp2] eqn:E.
    intros Hl. apply IH in Hl.
    eapply geometry_trans; [apply (geometry_process_input ops i)|].
    eapply geometry_trans; [apply geometry_dequeInput|]. now rewrite E.
Qed.

Lemma geometry_processQueuedInput ops cp cp' :
  processQueuedInput ops cp = Some cp' -> geometry_kept cp cp'.
Proof.
  unfold processQueuedInput. destruct (dequeInput cp) as [i cp1] eqn:E.
  intros Hl. apply geometry_processQueuedInput_loop in Hl.
  eapply geometry_trans; [apply geometry_dequeInput|]. now rewrite E.
Qed.

Lemma privateCommandLoop_untracked ops cp :
  trackEnv_ (procInfo_ cp) = false -> privateCommandLoop ops cp = (false, cp).
Proof. intros Ht. unfold privateCommandLoop. now rewrite Ht. Qed.

(** X18: on a session that is not sampled (the environment is not
    tracked), with no interrupt requested, a tick first processes the
    queued input, which passes no size to the pty.  Then, when a
    complete resize is pending, it passes the new size to the pty,
    records it in the session record, saves and clears the pending
    resize: these two effects come after those of the queued input.
    With a column or row count of -1 the resize is not applied: the
    tick has the effects of the queued input and no others, so no size
    is passed to the pty.  In both cases the pid is refreshed and the
    tick continues. *)
Theorem tick_applies_pending_resize ops cp :
  interrupt_ cp = false -> interruptChild_ cp = false ->
  trackEnv_ (procInfo_ cp) = false ->
  exists cp0 cp',
    processQueuedInput ops cp = Some cp0 /\
    filter is_pty_resize (effects_ cp0) = filter is_pty_resize (effects_ cp) /\
    onContinue ops cp = Some (true, cp') /\
    pid_ cp' = getPid ops /\
    (newCols_ cp <> -1 -> newRows_ cp <> -1 ->
     cols_ (procInfo_ cp') = newCols_ cp /\
     rows_ (procInfo_ cp') = newRows_ cp /\
     newCols_ cp' = -1 /\ newRows_ cp' = -1 /\
     effects_ cp' =
       effects_ cp0 ++
       [opsPtySetSize (newCols_ cp) (newRows_ cp); saveConsoleProcesses]) /\
    (newCols_ cp = -1 \/ newRows_ cp = -1 ->
     cols_ (procInfo_ cp') = cols_ (procInfo_ cp) /\
     rows_ (procInfo_ cp') = rows_ (procInfo_ cp) /\
     newCols_ cp' = newCols_ cp /\ newRows_ cp' = newRows_ cp /\
     effects_ cp' = effects_ cp0 /\
     filter is_pty_resize (effects_ cp') = filter is_pty_resize (effects_ cp)).
Proof.
  intros Hi Hic Ht. unfold onContinue. rewrite Hi, Hic.
  rewrite (privateCommandLoop_untracked ops cp Ht).
  destruct (processQueuedInput_total ops cp) as [cp_c Hc]. rewrite Hc.
  pose proof (geometry_processQueuedInput ops cp cp_c Hc)
    as (NC & NR & C & R & _ & _ & P).
  exists cp_c. cbv zeta.
  set (cp_d := match channelMode_ (procInfo_ cp_c) with
               | Rpc => cp_c
               | Websocket =>
                   if negb (haveProcOps_ cp_c) then set_haveProcOps true cp_c
                   else cp_c
               end).
  assert (Gd : newCols_ cp_d = newCols_ cp /\ newRows_ cp_d = newRows_ cp /\
               cols_ (procInfo_ cp_d) = cols_ (procInfo_ cp) /\
               rows_ (procInfo_ cp_d) = rows_ (procInfo_ cp) /\
               effects_ cp_d = effects_ cp_c).
  { unfold cp_d. destruct (channelMode_ (procInfo_ cp_c));
      [|destruct (negb (haveProcOps_ cp_c))]; cbn; auto. }
  destruct Gd as (NCd & NRd & Cd & Rd & Ed). rewrite NCd, NRd.
  destruct (negb (newCols_ cp =? -1) && negb (newRows_ cp =? -1)) eqn:Et;
    eexists; (split; [reflexivity|]); (split; [exact P|]);
    (split; [reflexivity|]); cbn; (split; [reflexivity|]).
  - apply andb_prop in Et as [E1 E2]. split.
    + intros _ _. rewrite ?NCd, ?NRd, Ed, <- app_assoc. repeat split; reflexivity.
    + apply negb_true_iff, Z.eqb_neq in E1. apply negb_true_iff, Z.eqb_neq in E2.
      intros [E|E]; contradiction.
  - split.
    + intros E1 E2. apply Z.eqb_neq in E1, E2. rewrite E1, E2 in Et. discriminate.
    + intros _. rewrite Cd, Rd, NCd, NRd, Ed, P. repeat split; reflexivity.
Qed.

End TickExtras.

Section StdoutExtras.
Context `{Constants} `{Collaborators}.

Lemma no_separator_cons a s :
  is_separator a = false -> no_separator s -> no_separator (String a s).
Proof. intros Ha Hs c [<-|Hc]; [exact Ha | now apply Hs]. Qed.

Lemma no_separator_tail a s : no_separator (String a s) -> no_separator s.
Proof. intros Hs c Hc. apply Hs. now right. Qed.

Lemma find_last_of_from_spec s : forall n found,
  match find_last_of_from n found s with
  | Some m =>
      (found = Some m /\ no_separator s) \/
      (exists pre c suf,
         s = (pre ++ String c suf)%string /\ is_separator c = true /\
         no_separator suf /\ m = (n + String.length pre)%nat)
  | None => found = None /\ no_separator s
  end.
Proof.
  induction s as [|a s IH]; intros n found; cbn [find_last_of_from].
  - destruct found; [left|]; split; auto; intros c [].
  - fold (is_separator a). specialize (IH (S n) (if is_separator a then Some n else found)).
    destruct (find_last_of_from _ _ s) as [m|].
    + destruct IH as [[Hf Hs]|(pre & c & suf & -> & Hc & Hsuf & ->)].
      * destruct (is_separator a) eqn:Ea.
        -- right. exists ""%string, a, s. injection Hf as <-.
           repeat split; auto; cbn; lia.
        -- left. split; [exact Hf | now apply no_separator_cons].
      * right. exists (String a pre), c, suf. repeat split; auto; cbn; lia.
    + destruct IH as [Hf Hs]. destruct (is_separator a) eqn:Ea; [discriminate|].
      split; [exact Hf | now apply no_separator_cons].
Qed.

Lemma substring_prefix pre s :
  substring 0 (String.length pre) (pre ++ s) = pre.
Proof.
  induction pre as [|a pre IH]; cbn.
  - now destruct s.
  - now rewrite IH.
Qed.

Lemma substring_whole s : substring 0 (String.length s) s = s.
Proof. induction s as [|a s IH]; cbn; [reflexivity | now rewrite IH]. Qed.

Lemma substring_suffix pre c suf :
  substring (String.length pre + 1)
    (String.length (pre ++ String c suf) - (String.length pre + 1))
    (pre ++ String c suf) = suf.
Proof.
  induction pre as [|a pre IH]; cbn.
  - rewrite Nat.sub_0_r. apply substring_whole.
  - exact IH.
Qed.

(** X19: on a dumb terminal, output that does not end in a newline is
    split at its last newline or form feed (after the conversion of
    line endings): what stands before that character is delivered as
    output, what stands after it goes to the prompt classifier, and the
    character itself is dropped; without such a character the whole
    output goes to the classifier.  The classifier never sees a newline
    or a form feed. *)
Theorem onStdout_splits_at_last_newline ops output cp :
  smartTerminal_ cp = false ->
  ends_with_char newline (convertLineEndingsPosix output) = false ->
  (no_separator (convertLineEndingsPosix output) /\
   onStdout ops output cp =
     maybeConsolePrompt ops (convertLineEndingsPosix output) cp) \/
  (exists pre c suf,
     convertLineEndingsPosix output = (pre ++ String c suf)%string /\
     is_separator c = true /\ no_separator suf /\
     onStdout ops output cp =
       maybeConsolePrompt ops suf (enqueOutputEvent pre cp)).
Proof.
  intros Hs He. unfold onStdout, find_last_newline_or_formfeed. rewrite Hs, He.
  pose proof (find_last_of_from_spec (convertLineEndingsPosix output) 0 None) as Hf.
  destruct (find_last_of_from 0 None (convertLineEndingsPosix output)) as [m|].
  - right. destruct Hf as [[Hf _]|(pre & c & suf & E & Hc & Hsuf & ->)];
      [discriminate|].
    exists pre, c, suf. repeat split; auto.
    rewrite E. cbn [Nat.add]. now rewrite substring_prefix, substring_suffix.
  - left. split; [apply Hf | reflexivity].
Qed.

End StdoutExtras.

(** ** The prompt pattern, unordered input and the poll channel *)

Ltac socket_tac :=
  unfold socket_silent; intros; break_tests;
  (split; [auto|]); rewrite ?filter_app; cbn; rewrite ?app_nil_r;
  auto; try (cbn in *; congruence).

Section ShapeExtras.

(** X20: what [promptPattern_] asks of a candidate: it matches only
    strings of at least three characters that end in a space, and it
    matches every string of at least three characters that ends in two
    spaces, whatever stands before them. *)
Theorem promptPattern_needs_and_accepts (s : string) :
  (regex_match promptPattern_ s = true ->
   (3 <= String.length s)%nat /\ ends_with_char space s = true) /\
  (forall a c,
     s = (String c a ++ String space (String space ""))%string ->
     regex_match promptPattern_ s = true).
Proof.
  split.
  - intros Hm. apply promptPattern_match in Hm
      as (a & c & sp & E & Ha & _ & Hsp & Hall).
    assert (Hlen : List.length (list_ascii_of_string s) = String.length s).
    { clear. induction s; cbn; auto. }
    split.
    + rewrite <- Hlen, E, length_app. cbn.
      destruct a; [congruence|]. destruct sp; [congruence|]. cbn. lia.
    + unfold ends_with_char, last_char. rewrite E, rev_app_distr. cbn [rev].
      destruct sp as [|d sp] using rev_ind; [congruence|].
      rewrite rev_app_distr. cbn.
      apply Forall_app in Hall as [_ Hd]. inversion Hd; subst.
      apply Ascii.eqb_refl.
  - intros a c ->. apply promptPattern_match.
    exists (c :: list_ascii_of_string a), space, [space].
    repeat split; try discriminate; auto.
    clear. cbn. f_equal. induction a as [|x a IH]; cbn; [reflexivity|].
    now rewrite IH.
Qed.

End ShapeExtras.

Section ChannelExtras.
Context `{Constants} `{Collaborators}.

Lemma enqueue_all_unordered l : forall cp,
  Forall (fun i => sequence i = kIgnoreSequence) l ->
  inputQueue_ (enqueue_all l cp) = inputQueue_ cp ++ l /\
  lastInputSequence_ (enqueue_all l cp) = lastInputSequence_ cp.
Proof.
  induction l as [|i l IH]; intros cp Hl; cbn.
  - now rewrite app_nil_r.
  - inversion Hl as [|? ? Hi Hl']; subst.
    destruct (IH (enqueInput i cp) Hl') as [Q L].
    unfold enqueue_all in *. rewrite Q, L. unfold enqueInput.
    rewrite Hi, Z.eqb_refl. cbn. now rewrite <- app_assoc.
Qed.

(** X21: items without a sequence number (the Unordered sentinel) are
    first in, first out: queued on an empty queue in any number, they
    are returned by as many dequeues in the order of their arrival, and
    neither the queueing nor the dequeuing moves the last seen
    sequence. *)
Theorem unordered_items_are_fifo l cp :
  inputQueue_ cp = [] ->
  Forall (fun i => sequence i = kIgnoreSequence) l ->
  fst (run_schedule (repeat Deq (List.length l)) (enqueue_all l cp)) = l /\
  inputQueue_ (snd (run_schedule (repeat Deq (List.length l))
                      (enqueue_all l cp))) = [] /\
  lastInputSequence_ (snd (run_schedule (repeat Deq (List.length l))
                             (enqueue_all l cp))) = lastInputSequence_ cp.
Proof.
  intros Hq Hl. destruct (enqueue_all_unordered l cp Hl) as [Q L].
  rewrite Hq in Q. cbn in Q.
  destruct (drain_unordered l (enqueue_all l cp) Q) as (A & B & C).
  - eapply Forall_impl; [|exact Hl]. intros i Hi. now left.
  - rewrite A, B, C, L. auto.
Qed.

Lemma socket_refl cp : socket_silent cp cp.
Proof. unfold socket_silent. auto. Qed.

Lemma socket_trans cp1 cp2 cp3 :
  socket_silent cp1 cp2 -> socket_silent cp2 cp3 -> socket_silent cp1 cp3.
Proof.
  unfold socket_silent. intros H12 H23 Hr.
  destruct (H12 Hr) as [R2 E2]. destruct (H23 R2) as [R3 E3].
  split; [exact R3 | congruence].
Qed.

Lemma socket_start supervisor cp : socket_silent cp (snd (start supervisor cp)).
Proof.
  destruct (started_ cp) eqn:Es;
    [rewrite start_not_needed by auto; apply socket_refl|].
  destruct (zombie_ (procInfo_ cp)) eqn:Ez;
    [rewrite start_not_needed by auto; apply socket_refl|].
  destruct (start_launching supervisor cp Es Ez) as (call & Hc & _ & ->).
  cbn [snd]. unfold socket_silent. intros Hr.
  destruct (is_error _); cbn; (split; [exact Hr|]);
    rewrite filter_app; cbn; destruct call; try discriminate;
    cbn; now rewrite app_nil_r.
Qed.

Lemma socket_enqueInput i cp : socket_silent cp (enqueInput i cp).
Proof. unfold enqueInput. socket_tac. Qed.

Lemma socket_dequeInput cp : socket_silent cp (snd (dequeInput cp)).
Proof.
  unfold dequeInput. destruct (inputQueue_ cp) as [|h rest]; [apply socket_refl|].
  rewrite autoflush_loop_spec. socket_tac.
Qed.

Lemma socket_process_input ops i cp : socket_silent cp (process_input ops i cp).
Proof. unfold process_input, log_if_error, now. socket_tac. Qed.

Lemma socket_processQueuedInput_loop ops fuel : forall i cp cp',
  processQueuedInput_loop fuel ops i cp = Some cp' -> socket_silent cp cp'.
Proof.
  induction fuel as [|fuel IH]; intros i cp cp'; cbn.
  - destruct (Input_empty i); [|discriminate]. intros [= <-]. apply socket_refl.
  - destruct (Input_empty i); [intros [= <-]; apply socket_refl|].
    destruct (dequeInput (process_input ops i cp)) as [next cp2] eqn:E.
    intros Hl. apply IH in Hl.
    eapply socket_trans; [apply (socket_process_input ops i)|].
    eapply socket_trans; [apply socket_dequeInput|]. now rewrite E.
Qed.

Lemma socket_processQueuedInput ops cp cp' :
  processQueuedInput ops cp = Some cp' -> socket_silent cp cp'.
Proof.
  unfold processQueuedInput. destruct (dequeInput cp) as [i cp1] eqn:E.
  intros Hl. apply socket_processQueuedInput_loop in Hl.
  eapply socket_trans; [apply socket_dequeInput|]. now rewrite E.
Qed.

Lemma socket_privateCommandLoop ops cp :
  socket_silent cp (snd (privateCommandLoop ops cp)).
Proof. unfold privateCommandLoop, now. socket_tac. Qed.

Lemma socket_onContinue ops cp r cp' :
  onContinue ops cp = Some (r, cp') -> socket_silent cp cp'.
Proof.
  unfold onContinue. destruct (interrupt_ cp); [intros [= _ <-]; apply socket_refl|].
  intros Hc.
  match type of Hc with
  | context [privateCommandLoop ops ?a] =>
      assert (Ha : socket_silent cp a) by (unfold log_if_error; socket_tac);
      pose proof (socket_privateCommandLoop ops a) as Hb;
      destruct (privateCommandLoop ops a) as [s cp_b]
  end.
  cbn [snd] in Hb. pose proof (socket_trans _ _ _ Ha Hb) as Hab.
  destruct s; [injection Hc as _ <-; exact Hab|].
  destruct (processQueuedInput ops cp_b) as [cp_c|] eqn:Eq; [|discriminate].
  apply socket_processQueuedInput in Eq. injection Hc as _ <-.
  eapply socket_trans; [exact Hab|]. eapply socket_trans; [exact Eq|].
  socket_tac.
Qed.

Lemma socket_enqueOutputEvent output cp :
  socket_silent cp (enqueOutputEvent output cp).
Proof. unfold enqueOutputEvent. socket_tac. Qed.

Lemma socket_handleConsolePrompt ops prompt cp :
  socket_silent cp (handleConsolePrompt ops prompt cp).
Proof.
  unfold handleConsolePrompt, enquePromptEvent, log_if_error, enqueInput.
  destruct (onPrompt_ cp) as [h|]; [destruct (h prompt Input_ctor) as [[|] input]|];
    socket_tac.
Qed.

Lemma socket_maybeConsolePrompt ops output cp :
  socket_silent cp (maybeConsolePrompt ops output cp).
Proof.
  unfold maybeConsolePrompt.
  destruct (regex_search _ _); destruct (negb _);
    try apply socket_enqueOutputEvent; try apply socket_handleConsolePrompt;
    (eapply socket_trans; [apply socket_enqueOutputEvent|]);
    first [apply socket_enqueOutputEvent | apply socket_handleConsolePrompt].
Qed.

Lemma socket_onStdout ops output cp : socket_silent cp (onStdout ops output cp).
Proof.
  unfold onStdout. destruct (smartTerminal_ cp); [apply socket_enqueOutputEvent|].
  destruct (ends_with_char _ _); [apply socket_enqueOutputEvent|].
  destruct (find_last_newline_or_formfeed _); [|apply socket_maybeConsolePrompt].
  eapply socket_trans; [apply socket_enqueOutputEvent | apply socket_maybeConsolePrompt].
Qed.

Lemma step_socket cp cp' : step cp cp' -> socket_silent cp cp'.
Proof.
  intros Hs. inversion Hs; subst.
  - apply socket_start.
  - apply socket_enqueInput.
  - eapply socket_onContinue; eassumption.
  - eapply socket_processQueuedInput; eassumption.
  - apply socket_onStdout.
  - unfold onExit. socket_tac.
  - unfold onHasSubprocs. socket_tac.
  - unfold reportCwd. socket_tac.
  - unfold ConsoleProcess_interrupt. socket_tac.
  - unfold interruptChild. socket_tac.
  - unfold resize. socket_tac.
  - unfold setPromptHandler. socket_tac.
  - unfold setRpcMode. socket_tac.
  - unfold setZombie. socket_tac.
Qed.

(** X22: after [setRpcMode], and from any session on the poll channel,
    no call of a member function sends text to the terminal socket:
    the session stays on the poll channel and output reaches the client
    as output events only. *)
Theorem poll_channel_never_uses_socket cp cp' :
  steps (setRpcMode cp) cp' ->
  channelMode_ (procInfo_ cp') = Rpc /\
  filter is_socket_send (effects_ cp') = filter is_socket_send (effects_ cp) /\
  forall output,
    exists save,
      effects_ (enqueOutputEvent output cp') =
      effects_ cp' ++ save ++
      [enqueClientEvent
         (kConsoleProcessOutput (handle cp')
            (trimLeadingLines (maxOutputLines_ (procInfo_ cp')) output))].
Proof.
  intros Hs.
  assert (St : socket_silent (setRpcMode cp) cp').
  { induction Hs as [|cp1 cp2 cp3 H1 _ IH]; [apply socket_refl|].
    eapply socket_trans; [apply step_socket; exact H1 | exact IH]. }
  destruct (St eq_refl) as [Hr Hf]. split; [exact Hr|]. split.
  - rewrite Hf. cbn. rewrite filter_app. cbn. now rewrite app_nil_r.
  - intros output. unfold enqueOutputEvent, handle.
    destruct (privateCommandLoop_ cp'); cbn;
      destruct (negb _); cbn; rewrite Hr; cbn;
      first [ exists [saveConsoleProcesses]; now rewrite <- app_assoc
            | exists []; reflexivity ].
Qed.

End ChannelExtras.

(** ** A prompt answered by its handler *)

Section PromptExtras.
Context `{Constants} `{Collaborators}.

(** X23: a prompt answered by the custom handler.  When a candidate
    without control characters has the shape of a prompt and the
    registered handler accepts it with a response (an unordered input
    with content), the response is queued, neither output nor a prompt
    notification reaches the client and no termination is requested;
    the next processing of the queue writes the response to the
    process. *)
Theorem prompt_response_reaches_process ops output onPrompt response cp :
  ~ has_control_char output -> code_prompt_shape output ->
  onPrompt_ cp = Some onPrompt ->
  onPrompt output Input_ctor = (true, response) ->
  sequence response = kIgnoreSequence -> Input_empty response = false ->
  inputQueue_ cp = [] ->
  inputQueue_ (maybeConsolePrompt ops output cp) = [response] /\
  effects_ (maybeConsolePrompt ops output cp) =
    effects_ cp ++ [callOnPrompt output] /\
  exists cp',
    processQueuedInput ops (maybeConsolePrompt ops output cp) = Some cp' /\
    inputQueue_ cp' = [] /\
    filter is_ops_request (effects_ cp') =
      filter is_ops_request (effects_ cp) ++ [ops_request response].
Proof.
  intros Hc Hs Hh Ha Hu He Hq.
  assert (E : maybeConsolePrompt ops output cp =
              set_inputQueue [response] (emit (callOnPrompt output) cp)).
  { unfold maybeConsolePrompt. rewrite (not_control_chars _ Hc).
    apply promptPattern_match in Hs. rewrite Hs. cbn [negb].
    unfold handleConsolePrompt. rewrite Hh, Ha, He. cbn [negb].
    unfold enqueInput. rewrite Hu, Z.eqb_refl. cbn. now rewrite Hq. }
  rewrite E. split; [reflexivity|]. split; [reflexivity|].
  destruct (processQueuedInput_drains ops
              (set_inputQueue [response] (emit (callOnPrompt output) cp)))
    as (cp' & Hp & Hq' & Hr & _).
  { cbn. constructor; [split; [now left | exact He] | constructor]. }
  exists cp'. split; [exact Hp|]. split; [exact Hq'|].
  rewrite Hr. cbn. rewrite filter_app. cbn. now rewrite app_nil_r.
Qed.

End PromptExtras.

(** * The further properties at sample values *)

Section ExtrasAtSamples.

Import Samples MoreSamples.
Local Existing Instance constants.
Local Existing Instance collaborators.

Lemma flush_barrier_drains_backlog_witness :
  fst (run_schedule (repeat Deq 3) (enqueInput (item (-2)) session_with_gaps)) =
    [item (-1); item (-1); item (-1)] /\
  inputQueue_
    (snd (run_schedule (repeat Deq 3) (enqueInput (item (-2)) session_with_gaps)))
  = [].
Proof.
  destruct (flush_barrier_drains_backlog (item (-2)) session_with_gaps)
    as (_ & _ & Hr & He); [discriminate | reflexivity |].
  split; [exact Hr | exact He].
Defined.

Lemma dequeInput_stalls_iff_witness :
  inputQueue_ session_with_gaps = [item 5; item 9] /\
  List.length (inputQueue_ (snd (dequeInput session_with_gaps))) = 2%nat.
Proof.
  split; [reflexivity|].
  destruct (dequeInput_stalls_iff session_with_gaps (item 5) [item 9] eq_refl)
    as [Hiff _].
  apply (proj2 Hiff). split; [split; discriminate|].
  split; [discriminate | cbn; lia].
Defined.

Lemma enqueInput_ordered_position_witness :
  StronglySorted leseq (inputQueue_ (enqueInput (item 7) session_with_gaps)).
Proof.
  destruct (enqueInput_ordered_position (item 7) session_with_gaps) as [_ Hs].
  - split; discriminate.
  - apply Hs. repeat constructor. unfold leseq. cbn. lia.
Defined.

Lemma returned_is_consecutive_prefix_witness :
  exists d,
    map sequence
      (returned (fst (run_schedule
                        [Enq (item 2); Enq (item 0); Deq; Deq; Deq] fresh))) =
      sequence_numbers (-1) d /\
    incl (returned (fst (run_schedule
                           [Enq (item 2); Enq (item 0); Deq; Deq; Deq] fresh)))
         [item 2; item 0] /\
    lastInputSequence_
      (snd (run_schedule [Enq (item 2); Enq (item 0); Deq; Deq; Deq] fresh)) =
      -1 + Z.of_nat d.
Proof.
  destruct (returned_is_consecutive_prefix 3
              [Enq (item 2); Enq (item 0); Deq; Deq; Deq] fresh)
    as (d & Hm & Hi & Hl).
  - cbn. lia.
  - cbn. lia.
  - cbn. lia.
  - reflexivity.
  - reflexivity.
  - repeat constructor; cbn; intuition discriminate.
  - repeat constructor; cbn; discriminate.
  - repeat constructor; cbn; lia.
  - cbn. lia.
  - exists d. split; [exact Hm|]. split; [exact Hi | exact Hl].
Defined.

Lemma processQueuedInput_drains_in_order_witness :
  exists cp',
    processQueuedInput ops_ok session_with_command = Some cp' /\
    inputQueue_ cp' = [] /\
    filter is_ops_request (effects_ cp') =
      [opsWriteToStdin (text command_line)].
Proof.
  destruct (processQueuedInput_drains_in_order ops_ok session_with_command)
    as (cp' & Hp & Hq & Hr & _).
  - repeat constructor.
  - exists cp'. split; [exact Hp|]. split; [exact Hq | exact Hr].
Defined.

Lemma empty_item_stops_processing_witness :
  exists cp',
    processQueuedInput ops_ok session_with_blank = Some cp' /\
    inputQueue_ cp' = [typed] /\ effects_ cp' = [].
Proof.
  exists (set_inputQueue [typed] session_with_blank).
  split; [|split; reflexivity].
  apply (empty_item_stops_processing ops_ok blank [typed] session_with_blank).
  - reflexivity.
  - now left.
  - reflexivity.
Defined.

Lemma onReceivedInput_delivers_witness :
  (exists cp',
     onReceivedInput input_of_text (Some ops_ok) "ls" fresh = Some cp' /\
     inputQueue_ cp' = [] /\
     filter is_ops_request (effects_ cp') = [opsWriteToStdin "ls"]) /\
  onReceivedInput input_of_text (Some ops_ok) "ls" sampling =
    Some (set_inputQueue [input_of_text "ls"] sampling).
Proof.
  assert (Hu : sequence (input_of_text "ls") = kIgnoreSequence) by reflexivity.
  destruct (onReceivedInput_delivers input_of_text ops_ok "ls" fresh Hu)
    as (_ & _ & Hlive).
  destruct (onReceivedInput_delivers input_of_text ops_ok "ls" sampling Hu)
    as (_ & Hbusy & _).
  split; [|exact (Hbusy eq_refl)].
  destruct (Hlive eq_refl) as (cp' & Hp & Hq & Hr).
  - repeat constructor.
  - exists cp'. split; [exact Hp|]. split; [exact Hq | exact Hr].
Defined.

Lemma lifecycle_flags_are_sticky_witness :
  started_ (onExit 0 (snd (start supervisor_ok fresh))) = true /\
  handle_ (procInfo_ (onExit 0 (snd (start supervisor_ok fresh)))) = "h1"%string.
Proof.
  destruct (lifecycle_flags_are_sticky (snd (start supervisor_ok fresh))
              (onExit 0 (snd (start supervisor_ok fresh))))
    as (Hs & _ & _ & _ & Hh).
  - eapply steps_step; [apply step_onExit | apply steps_refl].
  - split; [exact (Hs eq_refl) | exact Hh].
Defined.

Lemma zombie_never_launches_witness :
  launches (effects_ (snd (start supervisor_ok (setZombie fresh)))) = 0%nat.
Proof.
  destruct (zombie_never_launches (setZombie fresh)
              (snd (start supervisor_ok (setZombie fresh))) eq_refl)
    as [Hl _].
  - eapply steps_step; [apply step_start | apply steps_refl].
  - exact Hl.
Defined.

Lemma reportCwd_only_on_change_witness :
  reportCwd "/home" fresh = fresh /\
  reportCwd "/tmp" (reportCwd "/tmp" fresh) = reportCwd "/tmp" fresh.
Proof.
  destruct (reportCwd_only_on_change "/home" fresh) as (_ & Hsame & _).
  destruct (reportCwd_only_on_change "/tmp" fresh) as (_ & _ & Hagain).
  split; [exact (Hsame eq_refl) | exact Hagain].
Defined.

Lemma sample_attempted_exactly_when_witness :
  sample_attempted ops_ok after_command /\ ~ sample_attempted ops_ok sampling.
Proof.
  split.
  - apply (proj2 (sample_attempted_exactly_when ops_ok after_command 0 eq_refl)).
    repeat split; try reflexivity.
  - intros Ha.
    apply (proj1 (sample_attempted_exactly_when ops_ok sampling 0 eq_refl)) in Ha.
    destruct Ha as (_ & _ & Hf & _). discriminate Hf.
Defined.

Lemma one_sample_per_command_witness :
  privateCommandLoop_ sampling = true /\
  ~ sample_attempted ops_ok (enqueOutputEvent "PATH=/bin" sampling).
Proof.
  assert (Ha : sample_attempted ops_ok after_command).
  { apply sample_attempted_iff. reflexivity. }
  destruct (one_sample_per_command ops_ok ops_ok "PATH=/bin" after_command Ha
              eq_refl) as (_ & Hp & _ & _ & Hn).
  split; [exact Hp | exact Hn].
Defined.

Lemma tick_waits_for_sample_witness :
  exists cp',
    onContinue ops_ok (enqueInput typed sampling) = Some (true, cp') /\
    inputQueue_ cp' = [typed] /\ effects_ cp' = effects_ sampling.
Proof.
  eexists. split.
  - apply (tick_waits_for_sample ops_ok (enqueInput typed sampling));
      reflexivity.
  - split; reflexivity.
Defined.

Lemma tick_applies_pending_resize_witness :
  (exists cp',
     onContinue ops_ok resizing = Some (true, cp') /\
     cols_ (procInfo_ cp') = 100 /\ rows_ (procInfo_ cp') = 40 /\
     newCols_ cp' = -1 /\ newRows_ cp' = -1 /\
     effects_ cp' = [opsPtySetSize 100 40; saveConsoleProcesses]) /\
  (exists cp',
     onContinue ops_ok (resize 100 (-1) untracked) = Some (true, cp') /\
     cols_ (procInfo_ cp') = 80 /\ rows_ (procInfo_ cp') = 25 /\
     newCols_ cp' = 100 /\ newRows_ cp' = -1 /\
     filter is_pty_resize (effects_ cp') = []).
Proof.
  split.
  - destruct (tick_applies_pending_resize ops_ok resizing
                eq_refl eq_refl eq_refl)
      as (cp0 & cp' & Hq & _ & Hc & _ & Happly & _).
    destruct Happly as (C & R & NC & NR & He); [discriminate | discriminate |].
    assert (E0 : effects_ cp0 = []).
    { vm_compute in Hq. injection Hq as <-. reflexivity. }
    rewrite E0 in He.
    exists cp'. split; [exact Hc|]. repeat split; assumption.
  - destruct (tick_applies_pending_resize ops_ok (resize 100 (-1) untracked)
                eq_refl eq_refl eq_refl)
      as (cp0 & cp' & _ & _ & Hc & _ & _ & Hskip).
    destruct Hskip as (C & R & NC & NR & _ & Hp); [right; reflexivity|].
    exists cp'. split; [exact Hc|]. repeat split; assumption.
Defined.

Lemma onStdout_splits_at_last_newline_witness :
  smartTerminal_ fresh = false /\
  ends_with_char newline (convertLineEndingsPosix line_and_prompt) = false /\
  exists pre c suf,
    convertLineEndingsPosix line_and_prompt = (pre ++ String c suf)%string /\
    is_separator c = true /\ no_separator suf /\
    onStdout ops_ok line_and_prompt fresh =
      maybeConsolePrompt ops_ok suf (enqueOutputEvent pre fresh).
Proof.
  assert (He : ends_with_char newline (convertLineEndingsPosix line_and_prompt)
               = false) by reflexivity.
  split; [reflexivity|]. split; [exact He|].
  destruct (onStdout_splits_at_last_newline ops_ok line_and_prompt fresh
              eq_refl He) as [[Hn _]|Hsplit]; [|exact Hsplit].
  exfalso. assert (Hf : is_separator newline = false).
  { apply Hn. cbn. auto 10. }
  discriminate Hf.
Defined.

Lemma promptPattern_needs_and_accepts_witness :
  regex_match promptPattern_ "ab  " = true /\
  ends_with_char space "ab  " = true.
Proof.
  destruct (promptPattern_needs_and_accepts "ab  "%string) as [Hneeds Haccepts].
  assert (Hm : regex_match promptPattern_ "ab  " = true)
    by (apply (Haccepts "b"%string "a"%char); reflexivity).
  split; [exact Hm | exact (proj2 (Hneeds Hm))].
Defined.

Lemma unordered_items_are_fifo_witness :
  fst (run_schedule (repeat Deq 2) (enqueue_all [typed; blank] fresh)) =
    [typed; blank].
Proof.
  destruct (unordered_items_are_fifo [typed; blank] fresh) as (Hf & _ & _).
  - reflexivity.
  - repeat constructor.
  - exact Hf.
Defined.

Lemma poll_channel_never_uses_socket_witness :
  filter is_socket_send
    (effects_ (onStdout ops_ok line_and_prompt (setRpcMode untracked))) = [].
Proof.
  destruct (poll_channel_never_uses_socket untracked
              (onStdout ops_ok line_and_prompt (setRpcMode untracked)))
    as (_ & Hf & _).
  - eapply steps_step; [apply step_onStdout | apply steps_refl].
  - exact Hf.
Defined.

End ExtrasAtSamples.

Section PromptAtSamples.

Import Samples PromptSamples.
Local Existing Instance constants.
Local Existing Instance collaborators.

Lemma prompt_response_reaches_process_witness :
  exists cp',
    processQueuedInput ops_ok
      (maybeConsolePrompt ops_ok "Password: " session_with_handler) = Some cp' /\
    inputQueue_ cp' = [] /\
    filter is_ops_request (effects_ cp') = [opsWriteToStdin "yes"].
Proof.
  destruct (prompt_response_reaches_process ops_ok "Password: " answer_yes
              (snd (answer_yes ""%string Input_ctor)) session_with_handler)
    as (_ & _ & cp' & Hp & Hq & Hr).
  - intros [Hc|Hc]; cbn in Hc;
      repeat (destruct Hc as [Hc|Hc]; [discriminate Hc|]); exact Hc.
  - apply promptPattern_match. vm_compute. reflexivity.
  - reflexivity.
  - reflexivity.
  - reflexivity.
  - reflexivity.
  - reflexivity.
  - exists cp'. split; [exact Hp|]. split; [exact Hq | exact Hr].
Defined.

End PromptAtSamples.
